(** * Re-ranking and debiasing pipeline of the music recommender

    A shallow embedding of [src/ml/debiasing.py], of the
    exploration/exploitation selector of [src/ml/models.py], of
    [calculate_novelty_score] of [src/utils/helpers.py] and of the
    satisfaction summary of [src/ml/evaluation.py].

    Conventions of the embedding.
    - Python floats are IEEE 754 binary64 numbers.  Where a result turns on
      their rounding (the update of the exploration rate, the split of the
      slots, the popularity penalty, the context adjustment) the function
      is embedded over the primitive floats, in module [Binary64].
      Elsewhere a score is an exact rational [Q], arithmetic does not round
      and equality of scores is [==]; the statements made over [Q] are about
      order, grouping, control flow and ranges.
    - A track is a Python dict.  Its structured entries are record fields,
      its numeric entries live in one finite map from key to number, so
      that [track.get(k, d)] and [track[k] = v] read as in the source.
    - Every [try ... except Exception] of the source is modelled: a body
      that raises is a value [Raise e], and the handler's result is what the
      embedded function returns.
    - The stages mutate the dicts of the caller's list in place.  Every field
      a stage writes is computed from fields that no stage writes, so the
      embedding works on values: a dict shared by two positions of a list
      receives the same entries at both. *)

From stdpp Require Import base numbers option list sorting strings gmap.
From Stdlib Require Import QArith Qminmax Qround Lqa Lia Sorting.Sorted.
From Stdlib Require Import Floats.

Set Default Proof Using "Type".
Open Scope Q_scope.

(** ** Numbers *)

(** [x < y] on floats, as a boolean. *)
Definition Qltb (x y : Q) : bool := negb (Qle_bool y x).

#[global] Instance Qeq_decision (x y : Q) : Decision (x == y) := Qeq_dec x y.

(** Python's [int(x)] on a float: truncation towards zero. *)
Definition py_int (x : Q) : Z :=
  if Qltb x 0 then (- Qfloor (- x))%Z else Qfloor x.

(** Python's [l[:k]]: a negative [k] counts from the end. *)
Definition py_slice_to {A : Type} (l : list A) (k : Z) : list A :=
  if (k <? 0)%Z then take (Z.to_nat (Z.of_nat (length l) + k)) l
  else take (Z.to_nat k) l.

(** Python's [max(a, b)] and [min(a, b)] on floats: the first argument wins
    ties. *)
Definition py_max (a b : Q) : Q := if Qltb a b then b else a.
Definition py_min (a b : Q) : Q := if Qltb b a then b else a.

(** [np.mean], [sum(l) / len(l)]; on an empty list numpy answers [nan]. *)
Inductive npfloat : Type :=
| Fin (q : Q)
| NaN.

Definition Qsum (l : list Q) : Q := foldr Qplus 0 l.

Definition mean (l : list Q) : Q := Qsum l / inject_Z (Z.of_nat (length l)).

Definition np_mean (l : list Q) : npfloat :=
  match l with
  | [] => NaN
  | _ => Fin (mean l)
  end.

(** ** Sorting

    [list.sort(key=..., reverse=True)] and [sorted(..., reverse=True)] are
    stable: items with equal keys keep their relative order.  The embedding
    is the stable insertion sort; an item moves only past items whose key is
    strictly smaller. *)

Section PySort.
Context {A : Type} (key : A → Q).

Fixpoint insert_desc (x : A) (l : list A) : list A :=
  match l with
  | [] => [x]
  | y :: l' => if Qltb (key x) (key y) then y :: insert_desc x l' else x :: l
  end.

Definition sort_desc (l : list A) : list A := foldr insert_desc [] l.

(** Descending order of the keys. *)
Definition desc (x y : A) : Prop := key y <= key x.
End PySort.

(** ** Exceptions *)

Inductive exn : Type :=
| IndexError
| ZeroDivisionError
| KeyError.

Inductive Exc (A : Type) : Type :=
| Ret (a : A)
| Raise (e : exn).
Arguments Ret {A} a.
Arguments Raise {A} e.

#[global] Instance Exc_bind : MBind Exc :=
  λ A B f m, match m with Ret a => f a | Raise e => Raise e end.
#[global] Instance Exc_ret : MRet Exc := λ A a, Ret a.

(** [[f(x) for x in l]] where [f] may raise: the first failure aborts. *)
Fixpoint mapE {A B : Type} (f : A → Exc B) (l : list A) : Exc (list B) :=
  match l with
  | [] => Ret []
  | x :: l' => y ← f x; ys ← mapE f l'; Ret (y :: ys)
  end.

(** ** Data model *)

(** An entry of [track['artists']]: a dict with an optional ['id']. *)
Record Artist : Type := { artist_id : option string }.

(** A candidate track.  [None] in a field means that the key is absent. *)
Record Track : Type := {
  f_id : option string;                 (* 'id' *)
  f_artists : option (list Artist); (* 'artists' *)
  f_genres : option (list string);  (* 'genres' *)
  f_release_date : option string;   (* 'album' -> 'release_date' *)
  f_scores : option (gmap string Q);(* 'scores', a dict of floats *)
  f_num : gmap string Q;            (* every numeric entry *)
}.

(** [track.get(k, d)] and [track[k] = v] on numeric entries. *)
Definition get (t : Track) (k : string) (d : Q) : Q :=
  default d (f_num t !! k).

Definition set (t : Track) (k : string) (v : Q) : Track :=
  {| f_id := f_id t;
     f_artists := f_artists t;
     f_genres := f_genres t;
     f_release_date := f_release_date t;
     f_scores := f_scores t;
     f_num := <[k := v]> (f_num t) |}.

(** [track.get('artists', [{}])[0].get('id', dflt)]: a missing key gives the
    default id, an empty list of artists raises [IndexError]. *)
Definition primary_artist (dflt : string) (t : Track) : Exc string :=
  match f_artists t with
  | None => Ret dflt
  | Some [] => Raise IndexError
  | Some (a :: _) => Ret (default dflt (artist_id a))
  end.

(** The base score, [track.get('recommendation_score', 0)]. *)
Definition base_score (t : Track) : Q := get t "recommendation_score" 0.

(** A loop [for track in tracks: ...] that mutates each dict in turn, inside
    a [try] whose handler returns [tracks]: when the body raises, the dicts
    visited before stay mutated and the others are left as they were. *)
Fixpoint for_each (body : Track → Exc Track) (tracks : list Track) : list Track :=
  match tracks with
  | [] => []
  | t :: rest =>
      match body t with
      | Ret t' => t' :: for_each body rest
      | Raise _ => tracks
      end
  end.

(** ** Grouping by primary artist

    [artist_tracks] is a dict from artist id to the list of its tracks.  A
    Python dict iterates in insertion order, and the allocator's tie-break
    follows that order, so the dict is an association list whose keys are in
    order of first appearance. *)

Abbreviation Groups := (list (string * list Track)).

Fixpoint group_insert (a : string) (t : Track) (groups : Groups) : Groups :=
  match groups with
  | [] => [(a, [t])]
  | (b, g) :: rest =>
      if decide (a = b) then (b, g ++ [t]) :: rest
      else (b, g) :: group_insert a t rest
  end.

Fixpoint group_tracks (dflt : string) (tracks : list Track) (groups : Groups)
  : Exc Groups :=
  match tracks with
  | [] => Ret groups
  | t :: rest =>
      a ← primary_artist dflt t;
      group_tracks dflt rest (group_insert a t groups)
  end.

Definition group_by_artist (tracks : list Track) : Exc Groups :=
  group_tracks "unknown" tracks [].

(** [artist_tracks[a]]. *)
Fixpoint lookup_group (a : string) (groups : Groups) : Exc (list Track) :=
  match groups with
  | [] => Raise KeyError
  | (b, g) :: rest => if decide (a = b) then Ret g else lookup_group a rest
  end.

(** [artist_tracks[a] = g], for a key that is present. *)
Fixpoint update_group (a : string) (g : list Track) (groups : Groups) : Groups :=
  match groups with
  | [] => []
  | (b, g') :: rest =>
      if decide (a = b) then (b, g) :: rest
      else (b, g') :: update_group a g rest
  end.

(** ** Popularity debiasing ([PopularityDebiasing]) *)

Section Stages.
(** The float power [x ** y] of Python; [None] when it raises. *)
Variable float_pow : Q → Q → option Q.
(** Python's [int(s)] on a string; [None] when it raises [ValueError]. *)
Variable parse_int : string → option Z.

Definition apply_popularity_normalization (alpha : Q) (tracks : list Track)
  : list Track :=
  let popularities := map (λ t, get t "popularity" 50) tracks in
  match mapM (λ popularity, float_pow (popularity / 100) alpha) popularities with
  | None => tracks
  | Some normalized_popularities =>
      zip_with
        (λ t n, set (set t "normalized_popularity" n)
                    "popularity_bias_reduction" (1 - n))
        tracks normalized_popularities
  end.

Definition popularity_penalty (penalty_strength : Q) (t : Track) : Q :=
  let popularity := get t "popularity" 50 / 100 in
  if Qltb 0.8 popularity then penalty_strength * (popularity - 0.8) * 5
  else if Qltb 0.6 popularity then penalty_strength * (popularity - 0.6) * 2.5
  else 0.

Definition penalise (penalty_strength : Q) (t : Track) : Track :=
  let penalty := popularity_penalty penalty_strength t in
  let t1 := set t "popularity_penalty" penalty in
  set t1 "popularity_adjusted_score"
    (get t1 "recommendation_score" 0 * (1 - penalty)).

Definition apply_popularity_penalty (penalty_strength : Q)
  (tracks : list Track) : list Track :=
  map (penalise penalty_strength) tracks.

Definition popularity_aware (t : Track) : Track :=
  let popularity := get t "popularity" 50 / 100 in
  let base_score := get t "recommendation_score" 0 in
  let popularity_weight := 1 - popularity * 0.5 in
  let adjusted_score := base_score * (1 + popularity_weight * 0.3) in
  set t "popularity_aware_score" adjusted_score.

Definition apply_popularity_aware_ranking (tracks : list Track) : list Track :=
  map popularity_aware tracks.

(** ** Diversity promotion ([DiversityPromotion]) *)

Definition diversity_boosted (diversity_weight : Q) (artist_tracks : Groups)
  (t : Track) : Exc Track :=
  artist_id ← primary_artist "unknown" t;
  g ← lookup_group artist_id artist_tracks;
  let artist_count := Z.of_nat (length g) in
  let diversity_boost := 1 / inject_Z (Z.max artist_count 1) in
  let t1 := set t "diversity_boost" diversity_boost in
  let base_score := get t1 "recommendation_score" 0 in
  Ret (set t1 "diversity_adjusted_score"
         (base_score * (1 + diversity_boost * diversity_weight))).

Definition apply_diversity_boost (diversity_weight : Q) (tracks : list Track)
  : list Track :=
  match group_by_artist tracks with
  | Raise _ => tracks
  | Ret artist_tracks =>
      for_each (diversity_boosted diversity_weight artist_tracks) tracks
  end.

(** [any(g in other_genres for g in track_genre)]. *)
Definition shares_genre (track_genre other_genres : list string) : bool :=
  existsb (λ g, bool_decide (g ∈ other_genres)) track_genre.

Definition genre_overlap (track_genres : list (list string)) (i : nat)
  (track_genre : list string) : nat :=
  length (List.filter
            (λ '(j, other_genres),
               negb (Nat.eqb i j) && shares_genre track_genre other_genres)
            (imap pair track_genres)).

Definition apply_genre_diversity (tracks : list Track) : list Track :=
  let track_genres := map (λ t, default [] (f_genres t)) tracks in
  imap
    (λ i t,
       let track_genre := default [] (f_genres t) in
       let overlap := genre_overlap track_genres i track_genre in
       let genre_diversity_boost :=
         1 / inject_Z (Z.max (Z.of_nat overlap + 1) 1) in
       set t "genre_diversity_boost" genre_diversity_boost)
    tracks.

Definition release_year (t : Track) : Z :=
  let release_date := default "" (f_release_date t) in
  if decide (release_date = "") then 2020%Z
  else default 2020%Z (parse_int (String.substring 0 4 release_date)).

Definition temporal_boost (year : Z) : Q :=
  let current_year := 2024%Z in
  let years_old := (current_year - year)%Z in
  if (20 <? years_old)%Z then 1.3
  else if (10 <? years_old)%Z then 1.2
  else if (5 <? years_old)%Z then 1.1
  else 1.0.

Definition apply_temporal_diversity (tracks : list Track) : list Track :=
  let release_years := map release_year tracks in
  zip_with (λ t year, set t "temporal_diversity_boost" (temporal_boost year))
    tracks release_years.

(** ** Novelty promotion ([NoveltyPromotion]) *)

(** [config.NOVELTY_BOOST]. *)
Definition NOVELTY_BOOST : Q := 1.5.

(** [calculate_novelty_score] of [utils/helpers.py]. *)
Definition calculate_novelty_score (track_data : Track)
  (user_history : list string) : Exc Q :=
  artist_id ← primary_artist "" track_data;
  let track_id := default "" (f_id track_data) in
  let artist_novelty :=
    if decide (artist_id ∈ user_history) then 0.3 else 1.0 in
  let track_novelty :=
    if decide (track_id ∈ user_history) then 0.1 else 1.0 in
  let novelty_score := artist_novelty * 0.7 + track_novelty * 0.3 in
  Ret (novelty_score * NOVELTY_BOOST).

Definition novelty_boosted (novelty_weight : Q) (user_history : list string)
  (t : Track) : Exc Track :=
  novelty_score ← calculate_novelty_score t user_history;
  let base_score := get t "recommendation_score" 0 in
  let novelty_adjusted_score := base_score * (1 + novelty_score * novelty_weight) in
  Ret (set (set t "novelty_score" novelty_score)
         "novelty_adjusted_score" novelty_adjusted_score).

Definition apply_novelty_boost (novelty_weight : Q)
  (user_history : list string) (tracks : list Track) : list Track :=
  for_each (novelty_boosted novelty_weight user_history) tracks.

(** The first loop of [apply_artist_novelty]: the number of tracks of each
    artist. *)
Fixpoint count_artists (tracks : list Track) (artist_counts : gmap string Z)
  : Exc (gmap string Z) :=
  match tracks with
  | [] => Ret artist_counts
  | t :: rest =>
      artist_id ← primary_artist "unknown" t;
      count_artists rest
        (<[artist_id := (default 0 (artist_counts !! artist_id) + 1)%Z]>
           artist_counts)
  end.

Definition artist_novelty_boosted (artist_counts : gmap string Z) (t : Track)
  : Exc Track :=
  artist_id ← primary_artist "unknown" t;
  match artist_counts !! artist_id with
  | None => Raise KeyError
  | Some artist_count =>
      let artist_novelty_boost := 1 / inject_Z (Z.max artist_count 1) in
      Ret (set t "artist_novelty_boost" artist_novelty_boost)
  end.

Definition apply_artist_novelty (tracks : list Track) : list Track :=
  match count_artists tracks ∅ with
  | Raise _ => tracks
  | Ret artist_counts => for_each (artist_novelty_boosted artist_counts) tracks
  end.

(** ** Fairness constraints ([FairnessConstraints]) *)

(** The mutable state of the selection loop of
    [apply_fairness_constraints]. *)
Record AllocState : Type := {
  artist_tracks : Groups;
  selected_tracks : list Track;
  artist_counts : gmap string Z;
}.

(** [current_count < min_count], where [min_count] starts at
    [float('inf')], here [None]. *)
Definition below (current_count : Z) (min_count : option Z) : bool :=
  match min_count with
  | None => true
  | Some m => (current_count <? m)%Z
  end.

(** The scan [for artist_id in artist_tracks] for the artist with the
    lowest representation among those under the cap. *)
Fixpoint find_lowest (artist_ids : list string) (counts : gmap string Z)
  (max_tracks_per_artist : Z) (min_count : option Z)
  (selected_artist : option string) : option string :=
  match artist_ids with
  | [] => selected_artist
  | artist_id :: rest =>
      let current_count := default 0%Z (counts !! artist_id) in
      if (current_count <? max_tracks_per_artist)%Z && below current_count min_count
      then find_lowest rest counts max_tracks_per_artist
             (Some current_count) (Some artist_id)
      else find_lowest rest counts max_tracks_per_artist
             min_count selected_artist
  end.

Inductive Step : Type :=
| Break
| Next (s : AllocState).

(** One iteration of the [while] loop's body. *)
Definition allocate_step (max_tracks_per_artist : Z) (s : AllocState)
  : Exc Step :=
  match find_lowest (map fst (artist_tracks s)) (artist_counts s)
          max_tracks_per_artist None None with
  | None => Ret Break
  | Some selected_artist =>
      artist_tracks_list ← lookup_group selected_artist (artist_tracks s);
      match artist_tracks_list with
      | [] => Ret (Next s)
      | track :: rest =>
          Ret (Next
            {| artist_tracks := update_group selected_artist rest (artist_tracks s);
               selected_tracks := selected_tracks s ++ [track];
               artist_counts :=
                 <[selected_artist :=
                     (default 0 (artist_counts s !! selected_artist) + 1)%Z]>
                   (artist_counts s) |})
      end
  end.

(** [while len(selected_tracks) < max_recommendations: ...].  The loop of
    the source has no bound on its iterations; [fuel] bounds them here, and
    [None] says that the loop is still running when the fuel is spent. *)
Fixpoint allocate_loop (fuel : nat) (max_recommendations max_tracks_per_artist : Z)
  (s : AllocState) : option (Exc (list Track)) :=
  if (Z.of_nat (length (selected_tracks s)) <? max_recommendations)%Z then
    match fuel with
    | O => None
    | S fuel' =>
        match allocate_step max_tracks_per_artist s with
        | Raise e => Some (Raise e)
        | Ret Break => Some (Ret (selected_tracks s))
        | Ret (Next s') =>
            allocate_loop fuel' max_recommendations max_tracks_per_artist s'
        end
    end
  else Some (Ret (selected_tracks s)).

(** The groups after [artist_track_list.sort(key=recommendation_score,
    reverse=True)] on each of them. *)
Definition sort_groups (groups : Groups) : Groups :=
  map (λ '(artist_id, artist_track_list),
         (artist_id, sort_desc base_score artist_track_list)) groups.

(** The body of the [try] of [apply_fairness_constraints]. *)
Definition fairness_body (fuel : nat) (tracks : list Track)
  (max_recommendations : Z) : option (Exc (list Track)) :=
  match group_by_artist tracks with
  | Raise e => Some (Raise e)
  | Ret groups =>
      let num_artists := Z.of_nat (length groups) in
      if (num_artists =? 0)%Z then Some (Raise ZeroDivisionError)
      else
        let max_tracks_per_artist :=
          Z.max 1 (max_recommendations / num_artists) in
        allocate_loop fuel max_recommendations max_tracks_per_artist
          {| artist_tracks := sort_groups groups;
             selected_tracks := [];
             artist_counts := ∅ |}
  end.

(** [apply_fairness_constraints]: [Some l] when the call returns [l],
    [None] when it is still looping after [fuel] iterations. *)
Definition apply_fairness_constraints (fuel : nat) (tracks : list Track)
  (max_recommendations : Z) : option (list Track) :=
  match fairness_body fuel tracks max_recommendations with
  | None => None
  | Some (Ret selected) => Some selected
  | Some (Raise _) => Some (py_slice_to tracks max_recommendations)
  end.

(** The category of a track in [apply_representation_quota]. *)
Definition category_of (t : Track) : string :=
  let popularity := get t "popularity" 50 in
  if Qltb 70 popularity then "mainstream"
  else if Qltb popularity 30 then "indie"
  else "vintage".

Definition categorize (tracks : list Track) : gmap string (list Track) :=
  foldl (λ categorized_tracks t,
           let c := category_of t in
           <[c := default [] (categorized_tracks !! c) ++ [t]]> categorized_tracks)
    (<["mainstream" := []]> (<["indie" := []]> (<["vintage" := []]> ∅)))
    tracks.

(** [quota_percentages] is a dict; its items come in insertion order. *)
Definition apply_representation_quota (tracks : list Track)
  (quota_percentages : list (string * Q)) : list Track :=
  let categorized_tracks := categorize tracks in
  let total_needed := Z.of_nat (length tracks) in
  foldl (λ selected_tracks '(category, percentage),
           let category_tracks := default [] (categorized_tracks !! category) in
           let num_needed := py_int (inject_Z total_needed * percentage) in
           selected_tracks
             ++ py_slice_to (sort_desc base_score category_tracks) num_needed)
    [] quota_percentages.

(** ** The full pipeline ([DebiasingPipeline]) *)

(** The parameters and the state held by the pipeline's four members. *)
Record DebiasingPipeline : Type := {
  alpha : Q;
  diversity_weight : Q;
  novelty_weight : Q;
  user_history : list string;
}.

(** [DebiasingPipeline()] with the default arguments of its members. *)
Definition new_pipeline : DebiasingPipeline :=
  {| alpha := 0.7; diversity_weight := 0.4; novelty_weight := 0.3;
     user_history := [] |}.

(** [novelty_promotion.set_user_history], called under
    [if user_history:]: neither [None] nor an empty list is stored. *)
Definition set_user_history (self : DebiasingPipeline)
  (history : option (list string)) : DebiasingPipeline :=
  match history with
  | None | Some [] => self
  | Some h =>
      {| alpha := alpha self; diversity_weight := diversity_weight self;
         novelty_weight := novelty_weight self; user_history := h |}
  end.

(** The eight enrichment stages, in the order of the pipeline. *)
Definition enrich (self : DebiasingPipeline) (tracks : list Track) : list Track :=
  let tracks := apply_popularity_normalization (alpha self) tracks in
  let tracks := apply_popularity_penalty 0.3 tracks in
  let tracks := apply_popularity_aware_ranking tracks in
  let tracks := apply_diversity_boost (diversity_weight self) tracks in
  let tracks := apply_genre_diversity tracks in
  let tracks := apply_temporal_diversity tracks in
  let tracks := apply_novelty_boost (novelty_weight self) (user_history self) tracks in
  apply_artist_novelty tracks.

(** The score combiner: lines "Calculate final debiased scores" and
    "Sort by debiased score". *)
Definition final_score (t : Track) : Q :=
  get t "popularity_adjusted_score" (get t "recommendation_score" 0) * 0.3
  + get t "diversity_adjusted_score" (get t "recommendation_score" 0) * 0.3
  + get t "novelty_adjusted_score" (get t "recommendation_score" 0) * 0.4.

Definition with_debiased_score (t : Track) : Track :=
  set t "debiased_score" (final_score t).

Definition debiased_score (t : Track) : Q := get t "debiased_score" 0.

Definition combine_scores (tracks : list Track) : list Track :=
  sort_desc debiased_score (map with_debiased_score tracks).

Definition apply_full_debiasing (self : DebiasingPipeline)
  (tracks : list Track) (history : option (list string))
  : DebiasingPipeline * list Track :=
  let self := set_user_history self history in
  (self, combine_scores (enrich self tracks)).
End Stages.

(** ** Exploration and exploitation ([ExplorationExploitationModel]) *)

Record ExplorationExploitationModel : Type := {
  exploration_rate : Q;
  exploration_history : list Track;
}.

(** A feedback event, a dict read with
    [feedback.get('is_exploration', False)] and [feedback.get('rating', 0.5)]. *)
Record Feedback : Type := {
  fb_is_exploration : option bool;
  fb_rating : option Q;
}.

(** The ratings of the events flagged as exploration. *)
Definition exploration_satisfaction (user_feedback : list Feedback) : list Q :=
  omap (λ feedback,
          if default false (fb_is_exploration feedback)
          then Some (default 0.5 (fb_rating feedback)) else None)
    user_feedback.

Definition with_rate (self : ExplorationExploitationModel) (rate : Q)
  : ExplorationExploitationModel :=
  {| exploration_rate := rate;
     exploration_history := exploration_history self |}.

Definition update_exploration_rate (self : ExplorationExploitationModel)
  (user_feedback : list Feedback) : ExplorationExploitationModel :=
  match user_feedback with
  | [] => self
  | _ =>
      match exploration_satisfaction user_feedback with
      | [] => self
      | satisfaction =>
          let avg_satisfaction := mean satisfaction in
          if Qltb 0.7 avg_satisfaction then
            with_rate self (py_min 0.5 (exploration_rate self + 0.05))
          else if Qltb avg_satisfaction 0.3 then
            with_rate self (py_max 0.1 (exploration_rate self - 0.05))
          else self
      end
  end.

(** ** Satisfaction tracking ([SatisfactionTracker]) *)

(** An entry of [satisfaction_history].  The timestamp is the parsed
    ISO-8601 string, in microseconds. *)
Record Satisfaction : Type := {
  timestamp : Z;
  rating : Q;
  feedback_type : string;
}.

(** The dict returned by [get_satisfaction_summary]. *)
Record SatisfactionSummary : Type := {
  avg_satisfaction : npfloat;
  satisfaction_variance : npfloat;
  total_feedback : nat;
  positive_feedback_rate : npfloat;
  negative_feedback_rate : npfloat;
  avg_satisfaction_by_type : list (string * npfloat);
}.

(** [np.var]: the mean of the squared deviations from the mean. *)
Definition np_var (l : list Q) : npfloat :=
  match l with
  | [] => NaN
  | _ => let m := mean l in Fin (mean (map (λ x, (x - m) * (x - m)) l))
  end.

(** [feedback_types[data['feedback_type']].append(data['rating'])] on a
    [defaultdict(list)], whose items come in insertion order. *)
Fixpoint type_insert (ty : string) (r : Q) (types : list (string * list Q))
  : list (string * list Q) :=
  match types with
  | [] => [(ty, [r])]
  | (ty', rs) :: rest =>
      if decide (ty = ty') then (ty', rs ++ [r]) :: rest
      else (ty', rs) :: type_insert ty r rest
  end.

Definition feedback_types (recent_data : list Satisfaction)
  : list (string * list Q) :=
  foldl (λ types data, type_insert (feedback_type data) (rating data) types)
    [] recent_data.

Definition microseconds_per_day : Z := 86400000000.

(** The entries of the window [time_period], [now] being [datetime.now()]. *)
Definition recent (now : Z) (time_period : string)
  (satisfaction_history : list Satisfaction) : list Satisfaction :=
  if decide (time_period = "week") then
    let cutoff_date := (now - 7 * microseconds_per_day)%Z in
    List.filter (λ s, (cutoff_date <? timestamp s)%Z) satisfaction_history
  else if decide (time_period = "month") then
    let cutoff_date := (now - 30 * microseconds_per_day)%Z in
    List.filter (λ s, (cutoff_date <? timestamp s)%Z) satisfaction_history
  else satisfaction_history.

(** The summary of a non-empty window. *)
Definition summarize (recent_data : list Satisfaction) : SatisfactionSummary :=
  let ratings := map rating recent_data in
  {| avg_satisfaction := np_mean ratings;
     satisfaction_variance := np_var ratings;
     total_feedback := length ratings;
     positive_feedback_rate :=
       np_mean (map (λ _, 1) (List.filter (λ r, Qltb 0.7 r) ratings));
     negative_feedback_rate :=
       np_mean (map (λ _, 1) (List.filter (λ r, Qltb r 0.3) ratings));
     avg_satisfaction_by_type :=
       map (λ '(ty, type_ratings), (ty, np_mean type_ratings))
         (feedback_types recent_data) |}.

(** [get_satisfaction_summary]; [None] is the empty dict [{}]. *)
Definition get_satisfaction_summary (now : Z)
  (satisfaction_history : list Satisfaction) (time_period : string)
  : option SatisfactionSummary :=
  match satisfaction_history with
  | [] => None
  | _ =>
      match recent now time_period satisfaction_history with
      | [] => None
      | recent_data => Some (summarize recent_data)
      end
  end.

(** The fraction of the ratings that satisfy [p]. *)
Definition fraction (p : Q → bool) (ratings : list Q) : Q :=
  inject_Z (Z.of_nat (length (List.filter p ratings)))
  / inject_Z (Z.of_nat (length ratings)).

(** ** Evaluation ([RecommendationEvaluator], [DiversityTracker]) *)

(** A dict of floats read with [d[k]] or [k in d]: a metrics dict, the
    ['audio_features'] of a track. *)
Abbreviation Floats := (gmap string Q).

(** The weights of [_calculate_overall_quality], in the order of the dict
    literal. *)
Definition quality_weights : list (string * Q) :=
  [("artist_diversity", 0.25); ("genre_diversity", 0.20);
   ("avg_novelty", 0.20); ("time_relevance", 0.15);
   ("mood_relevance", 0.10); ("popularity_variance", 0.10)]%string.

(** The loop [for metric, weight in weights.items()]: the pair
    [(quality_score, total_weight)] after the given weights. *)
Definition weigh (metrics : Floats) (weights : list (string * Q)) : Q * Q :=
  foldl (λ acc entry,
           match metrics !! fst entry with
           | Some value => (fst acc + value * snd entry, snd acc + snd entry)
           | None => acc
           end)
    (0, 0) weights.

Definition _calculate_overall_quality (metrics : Floats) : Q :=
  let (quality_score, total_weight) := weigh metrics quality_weights in
  if Qltb 0 total_weight then quality_score / total_weight else 0.

(** [calculate_diversity_score] of [utils/helpers.py]: the ids of all the
    artists of all the tracks, [''] for an artist without id, and the ratio
    of their number to the number of tracks. *)
Definition all_artist_ids (recommendations : list Track) : list string :=
  flat_map (λ t, map (λ a, default "" (artist_id a)) (default [] (f_artists t)))
    recommendations.

Definition calculate_diversity_score (recommendations : list Track) : Q :=
  match recommendations with
  | [] => 0
  | _ =>
      inject_Z (Z.of_nat (size (list_to_set (all_artist_ids recommendations)
                                  : gset string)))
      / inject_Z (Z.of_nat (length recommendations))
  end.

(** An entry of [diversity_history] and the state of the tracker. *)
Record DiversityEntry : Type := {
  de_timestamp : Z;
  de_overall_diversity : Q;
  de_artist_diversity : Q;
  de_genre_diversity : Q;
}.

(** The metrics dict of [calculate_diversity_metrics]. *)
Record DiversityMetrics : Type := {
  artist_diversity : Q;
  genre_diversity : Q;
  overall_diversity : Q;
}.

(** [DiversityTracker.calculate_diversity_metrics]: the metrics and the
    history with the new entry, [now] being [datetime.now()]. *)
Definition calculate_diversity_metrics (now : Z)
  (diversity_history : list DiversityEntry) (recommendations : list Track)
  : list DiversityEntry * DiversityMetrics :=
  let unique_artists : gset string := list_to_set (all_artist_ids recommendations) in
  let n := inject_Z (Z.of_nat (length recommendations)) in
  let artist_diversity :=
    match recommendations with
    | [] => 0
    | _ => inject_Z (Z.of_nat (size unique_artists)) / n
    end in
  let genres := flat_map (λ t, default [] (f_genres t)) recommendations in
  let unique_genres : gset string := list_to_set genres in
  let genre_diversity :=
    match recommendations with
    | [] => 0
    | _ => inject_Z (Z.of_nat (size unique_genres)) / n
    end in
  let overall_diversity := calculate_diversity_score recommendations in
  (diversity_history
     ++ [ {| de_timestamp := now;
             de_overall_diversity := overall_diversity;
             de_artist_diversity := artist_diversity;
             de_genre_diversity := genre_diversity |} ],
   {| artist_diversity := artist_diversity;
      genre_diversity := genre_diversity;
      overall_diversity := overall_diversity |}).

(** ** Audio features ([utils/helpers.py], [ContentBasedModel]) *)

Definition zero_one_features : list string :=
  ["acousticness"; "danceability"; "energy"; "instrumentalness"; "liveness";
   "speechiness"; "valence"]%string.

(** One [if k in features: normalized[k] = f(features[k])]. *)
Definition normalize_one (features : Floats) (k : string) (f : Q → Q)
  (normalized : Floats) : Floats :=
  match features !! k with
  | Some v => <[k := f v]> normalized
  | None => normalized
  end.

Definition normalize_audio_features (features : Floats) : Floats :=
  let normalized :=
    foldl (λ normalized feature, normalize_one features feature (λ v, v) normalized)
      ∅ zero_one_features in
  let normalized := normalize_one features "tempo" (λ v, (v - 50) / 150) normalized in
  let normalized := normalize_one features "loudness" (λ v, (v + 60) / 60) normalized in
  let normalized := normalize_one features "key" (λ v, v / 11) normalized in
  normalize_one features "mode" (λ v, v) normalized.

(** The context of a request, read with
    [context.get('time_category', 'afternoon')] and
    [context.get('mood', 'neutral')]. *)
Record Context : Type := {
  ctx_time_category : option string;
  ctx_mood : option string;
}.

(** A track together with its ['audio_features'] entry, [None] when the key
    is absent. *)
Record AudioTrack : Type := {
  at_track : Track;
  at_audio_features : option Floats;
}.

(** [track.get('audio_features', {}).get(k, 0.5)]. *)
Definition audio_feature (track : AudioTrack) (k : string) : Q :=
  default 0.5 (default ∅ (at_audio_features track) !! k).





(** [d.get(k)] on a dict kept as an association list. *)
Fixpoint assoc_get {A : Type} (k : string) (d : list (string * A)) : option A :=
  match d with
  | [] => None
  | (k', v) :: rest => if decide (k = k') then Some v else assoc_get k rest
  end.

(** The ratings of the entries of one feedback type, in the order of the
    history. *)
Definition ratings_of_type (ty : string) (data : list Satisfaction) : list Q :=
  map rating (List.filter (λ s, bool_decide (feedback_type s = ty)) data).

(** * The kernels on binary64 floats

    Python's floats are IEEE 754 binary64 numbers, and a few results of the
    code turn on their rounding: the comparison of a mean with a threshold,
    the integer part of a product, a penalty that should equal the strength.
    The functions concerned are embedded here a second time, over the
    primitive floats, operation by operation in the order of the source. *)
Module Binary64.
#[local] Set Warnings "-inexact-float".
Local Open Scope float_scope.

(** Python's [min(a, b)] and [max(a, b)]: the first argument wins unless
    the second is strictly smaller, respectively greater. *)
Definition py_min (a b : float) : float := if b <? a then b else a.
Definition py_max (a b : float) : float := if a <? b then b else a.

(** [float(n)] for a Python int: the nearest float; [None] stands for the
    [OverflowError] of an int too large for a float. *)
Definition of_int (n : Z) : option float :=
  match binary_normalize prec emax n 0 false with
  | S754_infinity _ => None
  | ef => Some (SF2Prim ef)
  end.

(** [int(x)]: truncation towards zero; [None] stands for the
    [OverflowError] on an infinity and the [ValueError] on [nan]. *)
Definition py_int (x : float) : option Z :=
  match Prim2SF x with
  | S754_zero _ => Some 0%Z
  | S754_finite s m e =>
      Some (cond_Zopp s (if (0 <=? e)%Z then Zpos m * 2 ^ e
                         else Zpos m / 2 ^ (- e)))%Z
  | S754_infinity _ | S754_nan => None
  end.

(** [sorted(l, key=key, reverse=True)] on float keys: the stable insertion
    sort, an item moving only past items whose key is strictly smaller. *)
Section PySort.
Context {A : Type} (key : A → float).

Fixpoint insert_desc (x : A) (l : list A) : list A :=
  match l with
  | [] => [x]
  | y :: l' => if key x <? key y then y :: insert_desc x l' else x :: l
  end.

Definition sort_desc (l : list A) : list A := foldr insert_desc [] l.
End PySort.

(** A candidate as far as its numbers go: the numeric entries and the
    ['scores'] dict. *)
Record Track : Type := {
  f_id : option string;
  f_scores : option (gmap string float);
  f_num : gmap string float;
}.

Definition get (t : Track) (k : string) (d : float) : float :=
  default d (f_num t !! k).

Definition set (t : Track) (k : string) (v : float) : Track :=
  {| f_id := f_id t;
     f_scores := f_scores t;
     f_num := <[k := v]> (f_num t) |}.

(** [apply_popularity_penalty]: no operation of the loop raises. *)
Definition popularity_penalty (penalty_strength : float) (track : Track) : float :=
  let popularity := get track "popularity" 50 / 100 in
  if 0.8 <? popularity then penalty_strength * (popularity - 0.8) * 5
  else if 0.6 <? popularity then penalty_strength * (popularity - 0.6) * 2.5
  else 0.

Definition penalise (penalty_strength : float) (track : Track) : Track :=
  let penalty := popularity_penalty penalty_strength track in
  set (set track "popularity_penalty" penalty) "popularity_adjusted_score"
    (get track "recommendation_score" 0 * (1 - penalty)).

Definition apply_popularity_penalty (penalty_strength : float)
  (tracks : list Track) : list Track :=
  map (penalise penalty_strength) tracks.

(** [ExplorationExploitationModel]. *)
Record ExplorationExploitationModel : Type := {
  exploration_rate : float;
  exploration_history : list Track;
}.

Record Feedback : Type := {
  fb_is_exploration : option bool;
  fb_rating : option float;
}.




Definition exploration_satisfaction (user_feedback : list Feedback) : list float :=
  omap (λ feedback,
          if default false (fb_is_exploration feedback)
          then Some (default 0.5 (fb_rating feedback)) else None)
    user_feedback.

Definition with_rate (self : ExplorationExploitationModel) (rate : float)
  : ExplorationExploitationModel :=
  {| exploration_rate := rate;
     exploration_history := exploration_history self |}.

(** [update_exploration_rate]; [np_mean] is numpy's mean of a non-empty
    list of floats. *)
Definition update_exploration_rate (np_mean : list float → float)
  (self : ExplorationExploitationModel) (user_feedback : list Feedback)
  : ExplorationExploitationModel :=
  match user_feedback with
  | [] => self
  | _ =>
      match exploration_satisfaction user_feedback with
      | [] => self
      | satisfaction =>
          let avg_satisfaction := np_mean satisfaction in
          if 0.7 <? avg_satisfaction then
            with_rate self (py_min 0.5 (exploration_rate self + 0.05))
          else if avg_satisfaction <? 0.3 then
            with_rate self (py_max 0.1 (exploration_rate self - 0.05))
          else self
      end
  end.


(** The ['audio_features'] of a track, [None] when the key is absent, and
    [track.get('audio_features', {}).get(k, 0.5)]. *)
Definition audio_feature (audio_features : option (gmap string float))
  (k : string) : float :=
  default 0.5 (default ∅ audio_features !! k).

(** [ContentBasedModel._calculate_context_adjustment]. *)
Definition _calculate_context_adjustment
  (audio_features : option (gmap string float)) (context : Context) : float :=
  let adjustment := 1 in
  let time_category := default "afternoon"%string (ctx_time_category context) in
  let adjustment :=
    if decide (time_category = "morning"%string) then
      adjustment * (0.8 + 0.4 * audio_feature audio_features "energy")
    else if decide (time_category = "night"%string) then
      adjustment * (0.8 + 0.4 * audio_feature audio_features "acousticness")
    else adjustment in
  let mood := default "neutral"%string (ctx_mood context) in
  let valence := audio_feature audio_features "valence" in
  if decide (mood = "happy"%string) then adjustment * (0.7 + 0.6 * valence)
  else if decide (mood = "melancholic"%string) then
    adjustment * (0.7 + 0.6 * (1 - valence))
  else adjustment.

(** Sample data: a track with a popularity and a base score, a selector at
    the initial rate, an exploration event with a rating, and a mean for
    the examples, the sum from left to right over the length. *)
Definition track (i : string) (popularity score : float) : Track :=
  {| f_id := Some i;
     f_scores := None;
     f_num := <["popularity"%string := popularity]>
                (<["recommendation_score"%string := score]> ∅) |}.

Definition fresh_selector : ExplorationExploitationModel :=
  {| exploration_rate := 0.3; exploration_history := [] |}.

Definition exploration_event (rating : float) : Feedback :=
  {| fb_is_exploration := Some true; fb_rating := Some rating |}.

Definition sequential_mean (l : list float) : float :=
  foldl PrimFloat.add 0 l / default 0 (of_int (Z.of_nat (length l))).
End Binary64.

(** ** Vocabulary of the statements *)

(** [t'] is the item [t] after some stages: the entries that the caller
    supplies are the same, only derived scores may differ. *)
Definition same_item (t t' : Track) : Prop :=
  f_id t' = f_id t ∧ f_artists t' = f_artists t ∧ f_genres t' = f_genres t
  ∧ f_release_date t' = f_release_date t ∧ f_scores t' = f_scores t
  ∧ f_num t' !! "popularity" = f_num t !! "popularity"
  ∧ f_num t' !! "recommendation_score" = f_num t !! "recommendation_score".


(** [t]'s primary artist is [a]. *)
Definition by_artist (a : string) (t : Track) : bool :=
  match primary_artist "unknown" t with
  | Ret b => bool_decide (a = b)
  | Raise _ => false
  end.

(** The number of items of [l] whose primary artist is [a]. *)
Definition count_artist (a : string) (l : list Track) : nat :=
  length (List.filter (by_artist a) l).

(** The primary artists of a candidate list, when every track has one. *)
Definition primary_artists (tracks : list Track) : Exc (list string) :=
  mapE (primary_artist "unknown") tracks.

(** The number of distinct values in a list of artist ids. *)
Definition num_distinct (ids : list string) : nat :=
  size (list_to_set ids : gset string).

(** What the groups of the allocator satisfy: each group holds tracks of its
    artist, in descending order of base score. *)
Definition sorted_groups (groups : Groups) : Prop :=
  ∀ a g, lookup_group a groups = Ret g →
         Forall (λ t, by_artist a t = true) g
         ∧ StronglySorted (desc base_score) g.

(** The invariant of the selection loop, [groups] being the sorted groups the
    loop starts from: the tracks selected so far for an artist, followed by
    those still in its list, are its sorted group; [artist_counts] counts the
    selected tracks of each artist and stays within the cap. *)
Definition alloc_inv (groups : Groups) (max_tracks_per_artist : Z)
  (s : AllocState) : Prop :=
  map fst (artist_tracks s) = map fst groups
  ∧ (∀ a g, lookup_group a groups = Ret g →
            ∃ remaining, lookup_group a (artist_tracks s) = Ret remaining
                         ∧ List.filter (by_artist a) (selected_tracks s) ++ remaining = g)
  ∧ (∀ a, default 0%Z (artist_counts s !! a)
          = Z.of_nat (count_artist a (selected_tracks s)))
  ∧ (∀ a, (default 0 (artist_counts s !! a) <= max_tracks_per_artist)%Z)
  ∧ (∀ a, a ∉ map fst groups → List.filter (by_artist a) (selected_tracks s) = []).

(** The events of a batch flagged [is_exploration = true], and the mean of
    their ratings (0.5 for an event without rating). *)
Definition flagged (user_feedback : list Feedback) : list Feedback :=
  List.filter (λ f, bool_decide (fb_is_exploration f = Some true)) user_feedback.

Definition exploration_mean (user_feedback : list Feedback) : Q :=
  mean (map (λ f, default 0.5 (fb_rating f)) (flagged user_feedback)).

(** A selector at the initial rate, an exploration event rated 0.9 and an
    event that is not flagged. *)
Definition fresh_selector : ExplorationExploitationModel :=
  {| exploration_rate := 0.3; exploration_history := [] |}.
Definition plain_feedback : Feedback :=
  {| fb_is_exploration := Some false; fb_rating := Some 0.9 |}.

(** A satisfaction history with one rating above 0.7 out of two. *)
Definition two_ratings : list Satisfaction :=
  [ {| timestamp := 0; rating := 0.9; feedback_type := "like" |};
    {| timestamp := 0; rating := 0.5; feedback_type := "like" |} ].

(** The features that [normalize_audio_features] knows, and the typical
    range of each of them, as the source gives it: tempo 50-200 BPM,
    loudness -60 to 0 dB, key 0-11, the others 0-1.  The range is only ever
    asked of a known feature. *)
Definition known_features : list string :=
  zero_one_features ++ ["tempo"; "loudness"; "key"; "mode"]%string.

Definition in_typical_range (k : string) (v : Q) : Prop :=
  if decide (k = "tempo"%string) then 50 <= v <= 200
  else if decide (k = "loudness"%string) then -60 <= v <= 0
  else if decide (k = "key"%string) then 0 <= v <= 11
  else 0 <= v <= 1.

(** ** Sample candidates *)

(** A track with one artist, a popularity and a base score. *)
Definition track (i a : string) (popularity score : Q) : Track :=
  {| f_id := Some i;
     f_artists := Some [ {| artist_id := Some a |} ];
     f_genres := None;
     f_release_date := None;
     f_scores := None;
     f_num := <["popularity" := popularity]> (<["recommendation_score" := score]> ∅) |}.

(** The candidates of the end-to-end scenario of the specification. *)
Definition track_a : Track := track "a" "X" 90 0.9.
Definition track_b : Track := track "b" "Y" 20 0.6.
Definition track_c : Track := track "c" "Y" 20 0.5.

(** An artist with a single track. *)
Definition solo : Track := track "t1" "X" 50 1.

(** Two tracks of one artist whose debiased scores rank them against their
    base scores. *)
Definition low_base : Track := set (track "p" "X" 50 1) "debiased_score" 2.
Definition high_base : Track := set (track "q" "X" 50 2) "debiased_score" 1.

(** A track whose ['artists'] entry is an empty list. *)
Definition anonymous : Track :=
  {| f_id := Some "n"%string;
     f_artists := Some [];
     f_genres := None;
     f_release_date := None;
     f_scores := None;
     f_num := <["recommendation_score"%string := 0.4]> ∅ |}.

(** The number of candidates of [t]'s primary artist among [tracks]; 0 for a
    track without primary artist. *)
Definition artist_count (tracks : list Track) (t : Track) : Z :=
  match primary_artist "unknown" t with
  | Ret a => Z.of_nat (count_artist a tracks)
  | Raise _ => 0
  end.

(** * Properties *)

(** ** Comparisons on rationals *)

Lemma Qltb_lt (x y : Q) : Qltb x y = true ↔ x < y.
Proof.
  unfold Qltb. rewrite negb_true_iff, <- not_true_iff_false, Qle_bool_iff.
  split; [apply Qnot_le_lt | apply Qlt_not_le].
Qed.

Lemma Qltb_ge (x y : Q) : Qltb x y = false ↔ y <= x.
Proof.
  unfold Qltb. rewrite negb_false_iff. apply Qle_bool_iff.
Qed.

Ltac case_Qltb :=
  match goal with
  | |- context [Qltb ?x ?y] =>
      let H := fresh "Hlt" in
      destruct (Qltb x y) eqn:H;
      [apply Qltb_lt in H | apply Qltb_ge in H]
  end.

(** ** The sort *)

Section PySortFacts.
Context {A : Type} (key : A → Q).

Lemma insert_desc_perm (x : A) (l : list A) : insert_desc key x l ≡ₚ x :: l.
Proof.
  induction l as [|y l IH]; simpl; [done|].
  destruct (Qltb (key x) (key y)); [|done].
  rewrite IH. apply Permutation_swap.
Qed.

Lemma sort_desc_perm (l : list A) : sort_desc key l ≡ₚ l.
Proof.
  induction l as [|x l IH]; simpl; [done|].
  by rewrite insert_desc_perm, IH.
Qed.

Lemma sort_desc_length (l : list A) : length (sort_desc key l) = length l.
Proof. apply Permutation_length, sort_desc_perm. Qed.

Lemma insert_desc_sorted (x : A) (l : list A) :
  StronglySorted (desc key) l → StronglySorted (desc key) (insert_desc key x l).
Proof.
  induction l as [|y l IH]; simpl; intros Hs.
  - repeat constructor.
  - apply StronglySorted_cons in Hs as [Hy Hl].
    case_Qltb.
    + apply StronglySorted_cons. split; [|by apply IH].
      rewrite insert_desc_perm. constructor; [|done].
      unfold desc. by apply Qlt_le_weak.
    + apply StronglySorted_cons. split.
      * constructor; [done|].
        eapply Forall_impl; [exact Hy|]. unfold desc; simpl. intros z Hz.
        by eapply Qle_trans.
      * apply StronglySorted_cons. by split.
Qed.

Lemma sort_desc_sorted (l : list A) : StronglySorted (desc key) (sort_desc key l).
Proof.
  induction l as [|x l IH]; simpl; [constructor|].
  by apply insert_desc_sorted.
Qed.



Lemma sort_desc_sorted_id (l : list A) :
  StronglySorted (desc key) l → sort_desc key l = l.
Proof.
  induction l as [|x l IH]; [done|]. intros Hs.
  apply StronglySorted_cons in Hs as [Hx Hl].
  cbn [sort_desc foldr]. fold (sort_desc key l). rewrite (IH Hl).
  destruct l as [|y l]; [done|]. cbn [insert_desc].
  apply Forall_cons in Hx as [Hy _]. unfold desc in Hy.
  apply Qltb_ge in Hy. by rewrite Hy.
Qed.
End PySortFacts.

(** ** Track entries *)

Lemma get_set_eq (t : Track) (k : string) (v d : Q) : get (set t k v) k d = v.
Proof. unfold get, set; simpl. by rewrite lookup_insert_eq. Qed.

Lemma get_set_ne (t : Track) (k k' : string) (v d : Q) :
  k ≠ k' → get (set t k v) k' d = get t k' d.
Proof. intros Hne. unfold get, set; simpl. by rewrite lookup_insert_ne. Qed.


Lemma same_item_refl (t : Track) : same_item t t.
Proof. by repeat split. Qed.

Lemma same_item_trans (t1 t2 t3 : Track) :
  same_item t1 t2 → same_item t2 t3 → same_item t1 t3.
Proof.
  unfold same_item. intros (?&?&?&?&?&?&?) (?&?&?&?&?&?&?).
  repeat split; congruence.
Qed.

Lemma same_item_set (t : Track) (k : string) (v : Q) :
  k ≠ "popularity" → k ≠ "recommendation_score" → same_item t (set t k v).
Proof.
  intros H1 H2. unfold same_item, set; simpl.
  by rewrite !lookup_insert_ne.
Qed.

Lemma same_item_primary_artist (dflt : string) (t t' : Track) :
  same_item t t' → primary_artist dflt t' = primary_artist dflt t.
Proof. intros (_&Ha&_). unfold primary_artist. by rewrite Ha. Qed.

Lemma same_item_base_score (t t' : Track) :
  same_item t t' → base_score t' = base_score t.
Proof. intros (_&_&_&_&_&_&Hr). unfold base_score, get. by rewrite Hr. Qed.

#[local] Hint Resolve same_item_refl : core.

Ltac same_item_sets :=
  repeat first
    [ apply same_item_refl
    | eapply same_item_trans; [|apply same_item_set; discriminate] ].

(** Each way in which a stage walks over its list keeps the items in place. *)







Section StageFacts.
Variable float_pow : Q → Q → option Q.
Variable parse_int : string → option Z.









End StageFacts.

(** ** The score combiner *)




(** ** Grouping by artist *)

Lemma by_artist_true (a : string) (t : Track) :
  by_artist a t = true ↔ primary_artist "unknown" t = Ret a.
Proof.
  unfold by_artist. destruct (primary_artist "unknown" t) as [b|e].
  - rewrite bool_decide_eq_true. split; congruence.
  - split; discriminate.
Qed.

Lemma by_artist_unique (a b : string) (t : Track) :
  by_artist a t = true → by_artist b t = true → a = b.
Proof. rewrite !by_artist_true. congruence. Qed.

Lemma lookup_group_Some (a : string) (groups : Groups) :
  a ∈ map fst groups ↔ ∃ g, lookup_group a groups = Ret g.
Proof.
  induction groups as [|[b g] groups IH]; simpl.
  - split; [by intros ?%elem_of_nil | by intros [? ?]].
  - destruct (decide (a = b)) as [->|Hne].
    + split; [eauto | intros _; apply list_elem_of_here].
    + rewrite elem_of_cons, IH. split; [intros [?|?]; [done|auto] | auto].
Qed.

Lemma lookup_group_insert (a b : string) (t : Track) (groups : Groups) :
  lookup_group b (group_insert a t groups)
  = if decide (a = b)
    then Ret (match lookup_group a groups with
              | Ret g => g ++ [t]
              | Raise _ => [t]
              end)
    else lookup_group b groups.
Proof.
  induction groups as [|[c g] groups IH]; simpl.
  - repeat case_decide; simplify_eq; done.
  - destruct (decide (a = c)) as [->|Hac]; simpl.
    + repeat case_decide; simplify_eq; done.
    + rewrite IH. repeat case_decide; simplify_eq; done.
Qed.

Lemma group_insert_keys (a : string) (t : Track) (groups : Groups) :
  map fst (group_insert a t groups)
  = if decide (a ∈ map fst groups) then map fst groups
    else map fst groups ++ [a].
Proof.
  induction groups as [|[c g] groups IH].
  - rewrite decide_False; [done|]. apply not_elem_of_nil.
  - cbn [group_insert map fst].
    destruct (decide (a = c)) as [->|Hac]; cbn [map fst].
    + rewrite decide_True; [done|]. apply list_elem_of_here.
    + rewrite IH. destruct (decide (a ∈ map fst groups)) as [Hin|Hnin].
      * rewrite decide_True; [done|]. by apply list_elem_of_further.
      * rewrite decide_False; [done|].
        rewrite elem_of_cons. intros [?|?]; done.
Qed.

Lemma lookup_group_update (a b : string) (g : list Track) (groups : Groups) :
  a ∈ map fst groups →
  lookup_group b (update_group a g groups)
  = if decide (a = b) then Ret g else lookup_group b groups.
Proof.
  induction groups as [|[c g'] groups IH]; simpl.
  - by intros ?%elem_of_nil.
  - intros Hin. destruct (decide (a = c)) as [->|Hac]; simpl.
    + repeat case_decide; simplify_eq; done.
    + apply elem_of_cons in Hin as [?|Hin]; [done|].
      rewrite (IH Hin). repeat case_decide; simplify_eq; done.
Qed.

Lemma update_group_keys (a : string) (g : list Track) (groups : Groups) :
  map fst (update_group a g groups) = map fst groups.
Proof.
  induction groups as [|[c g'] groups IH]; simpl; [done|].
  destruct (decide (a = c)) as [->|Hac]; simpl; [done|]. by rewrite IH.
Qed.

Lemma sort_groups_keys (groups : Groups) :
  map fst (sort_groups groups) = map fst groups.
Proof.
  unfold sort_groups. induction groups as [|[c g] groups IH]; simpl; [done|].
  by rewrite IH.
Qed.

Lemma lookup_group_sort (a : string) (groups : Groups) :
  lookup_group a (sort_groups groups)
  = match lookup_group a groups with
    | Ret g => Ret (sort_desc base_score g)
    | Raise e => Raise e
    end.
Proof.
  unfold sort_groups. induction groups as [|[c g] groups IH]; simpl; [done|].
  by destruct (decide (a = c)).
Qed.

(** The groups built from a candidate list: the keys are the distinct
    primary artists, and each group holds tracks of its artist only. *)
Lemma group_tracks_spec (tracks : list Track) (acc groups : Groups) :
  group_tracks "unknown" tracks acc = Ret groups →
  NoDup (map fst acc) →
  (∀ a g, lookup_group a acc = Ret g → g ≠ [] ∧ Forall (λ t, by_artist a t = true) g) →
  ∃ ids, primary_artists tracks = Ret ids
         ∧ NoDup (map fst groups)
         ∧ (∀ a, a ∈ map fst groups ↔ a ∈ map fst acc ∨ a ∈ ids)
         ∧ (∀ a g, lookup_group a groups = Ret g →
                   g ≠ [] ∧ Forall (λ t, by_artist a t = true) g).
Proof.
  revert acc. induction tracks as [|t tracks IH]; simpl; intros acc Hg Hnd Hacc.
  - injection Hg as <-. exists []. split_and!; try done.
    intros a. rewrite elem_of_nil. tauto.
  - unfold primary_artists; simpl.
    destruct (primary_artist "unknown" t) as [a|e] eqn:Ha; simpl in *; [|done].
    apply IH in Hg as (ids & Hids & Hnd' & Hkeys & Hgs).
    + unfold primary_artists in Hids. rewrite Hids; simpl.
      exists (a :: ids). split_and!; try done.
      intros b. rewrite Hkeys, group_insert_keys, elem_of_cons.
      destruct (decide (a ∈ map fst acc)) as [Hin|Hnin].
      * split; [tauto|]. intros [?|[->|?]]; auto.
      * rewrite elem_of_app, list_elem_of_singleton.
        split; [intros [[?|?]|?]; auto | intros [?|[?|?]]; auto].
    + rewrite group_insert_keys. destruct (decide (a ∈ map fst acc)); [done|].
      apply NoDup_app. split_and!; [done| |apply NoDup_singleton].
      intros x Hx ->%list_elem_of_singleton. done.
    + intros b g. rewrite lookup_group_insert.
      destruct (decide (a = b)) as [<-|Hab]; [|apply Hacc].
      intros [= <-]. destruct (lookup_group a acc) as [g0|] eqn:Hl.
      * destruct (Hacc _ _ Hl) as [_ Hall]. split; [by destruct g0|].
        apply Forall_app. split; [done|]. constructor; [|done].
        by apply by_artist_true.
      * split; [done|]. constructor; [|done]. by apply by_artist_true.
Qed.

Lemma group_by_artist_spec (tracks : list Track) (groups : Groups) :
  group_by_artist tracks = Ret groups →
  ∃ ids, primary_artists tracks = Ret ids
         ∧ length groups = num_distinct ids
         ∧ (∀ a g, lookup_group a groups = Ret g →
                   g ≠ [] ∧ Forall (λ t, by_artist a t = true) g).
Proof.
  intros Hg. apply group_tracks_spec in Hg as (ids & Hids & Hnd & Hkeys & Hgs).
  - exists ids. split_and!; [done| |done].
    unfold num_distinct. rewrite <- (length_map fst groups : length (map fst groups) = _).
    rewrite <- (size_list_to_set (C := gset string)) by done.
    f_equal. apply set_eq. intros a. rewrite !elem_of_list_to_set, Hkeys.
    rewrite elem_of_nil. tauto.
  - constructor.
  - intros a g [=].
Qed.

Lemma primary_artists_group (tracks : list Track) (ids : list string) :
  primary_artists tracks = Ret ids →
  ∃ groups, group_by_artist tracks = Ret groups.
Proof.
  unfold group_by_artist. generalize (@nil (string * list Track)).
  revert ids. induction tracks as [|t tracks IH]; simpl; intros ids acc Hids.
  - eauto.
  - unfold primary_artists in *; simpl in *.
    destruct (primary_artist "unknown" t) as [a|e]; simpl in *; [|done].
    destruct (mapE _ tracks) as [ids'|e] eqn:Hm; simpl in *; [|done].
    eapply IH. done.
Qed.

(** ** The selection loop of the fairness allocator *)

Lemma py_slice_to_nil {A : Type} (k : Z) : py_slice_to (@nil A) k = [].
Proof. unfold py_slice_to. destruct (k <? 0)%Z; apply take_nil. Qed.

Lemma find_lowest_Some (artist_ids : list string) (counts : gmap string Z)
  (cap : Z) (min_count : option Z) (selected_artist : option string) (a : string) :
  find_lowest artist_ids counts cap min_count selected_artist = Some a →
  selected_artist = Some a
  ∨ (a ∈ artist_ids ∧ (default 0 (counts !! a) < cap)%Z).
Proof.
  revert min_count selected_artist.
  induction artist_ids as [|b ids IH]; simpl; intros mc sel Hf; [by left|].
  destruct (_ && _) eqn:Hguard.
  - apply IH in Hf as [[= ->]|[Hin Hlt]].
    + right. apply andb_true_iff in Hguard as [Hcap _].
      split; [apply list_elem_of_here | lia].
    + right. split; [by apply list_elem_of_further | done].
  - apply IH in Hf as [->|[Hin Hlt]]; [by left|].
    right. split; [by apply list_elem_of_further | done].
Qed.

Lemma find_lowest_selected (artist_ids : list string) (counts : gmap string Z)
  (cap : Z) (min_count : option Z) (b : string) :
  is_Some (find_lowest artist_ids counts cap min_count (Some b)).
Proof.
  revert min_count b. induction artist_ids as [|c ids IH]; simpl; intros mc b.
  - eauto.
  - destruct (_ && _); apply IH.
Qed.

(** The scan finds nobody only when every artist has reached the cap. *)
Lemma find_lowest_None (artist_ids : list string) (counts : gmap string Z) (cap : Z) :
  find_lowest artist_ids counts cap None None = None →
  Forall (λ a, (cap <= default 0 (counts !! a))%Z) artist_ids.
Proof.
  induction artist_ids as [|c ids IH]; simpl; intros Hf; [constructor|].
  destruct (_ <? _)%Z eqn:Hcap; simpl in Hf.
  - destruct (find_lowest_selected ids counts cap (Some (default 0%Z (counts !! c))) c)
      as [x Hx]. congruence.
  - constructor; [lia | by apply IH].
Qed.

Lemma count_artist_app (a : string) (l k : list Track) :
  count_artist a (l ++ k) = (count_artist a l + count_artist a k)%nat.
Proof. unfold count_artist. by rewrite List.filter_app, length_app. Qed.

Lemma filter_by_artist_snoc (a b : string) (l : list Track) (t : Track) :
  by_artist a t = true →
  List.filter (by_artist b) (l ++ [t])
  = if decide (a = b) then List.filter (by_artist b) l ++ [t]
    else List.filter (by_artist b) l.
Proof.
  intros Ha. rewrite List.filter_app. simpl.
  destruct (decide (a = b)) as [<-|Hne].
  - by rewrite Ha.
  - destruct (by_artist b t) eqn:Hb.
    + destruct Hne. by eapply by_artist_unique.
    + by rewrite app_nil_r.
Qed.

(** One iteration keeps the invariant, never raises, and selects at most one
    more track. *)
Lemma allocate_step_inv (groups : Groups) (cap : Z) (s : AllocState) :
  sorted_groups groups →
  alloc_inv groups cap s →
  allocate_step cap s = Ret Break
  ∨ ∃ s', allocate_step cap s = Ret (Next s')
          ∧ alloc_inv groups cap s'
          ∧ (selected_tracks s' = selected_tracks s
             ∨ ∃ t, selected_tracks s' = selected_tracks s ++ [t]).
Proof.
  intros Hsorted (Hkeys & Hrem & Hcount & Hcap & Hout).
  unfold allocate_step.
  destruct (find_lowest _ _ _ _ _) as [a|] eqn:Hfind; [|by left]. right.
  apply find_lowest_Some in Hfind as [?|[Hin Hlt]]; [done|].
  assert (Hin0 : a ∈ map fst groups) by (by rewrite <- Hkeys).
  apply lookup_group_Some in Hin0 as [g Hg].
  destruct (Hrem _ _ Hg) as (remaining & Hl & Hsplit).
  rewrite Hl; simpl.
  destruct remaining as [|t rest].
  { exists s. split_and!; [done| |by left]. by split_and!. }
  eexists. split; [done|]. simpl. split; [|eauto].
  assert (Hat : by_artist a t = true).
  { destruct (Hsorted _ _ Hg) as [Hall _]. rewrite <- Hsplit in Hall.
    apply Forall_app in Hall as [_ Hall]. by apply Forall_cons in Hall as [? _]. }
  unfold alloc_inv; simpl. split_and!.
  - by rewrite update_group_keys.
  - intros b g' Hg'. rewrite lookup_group_update by done.
    rewrite (filter_by_artist_snoc a) by done.
    destruct (decide (a = b)) as [<-|Hne].
    + exists rest. split; [done|]. rewrite <- app_assoc. simpl. congruence.
    + apply Hrem, Hg'.
  - intros b. rewrite count_artist_app. unfold count_artist at 2; simpl.
    destruct (decide (a = b)) as [<-|Hne].
    + rewrite lookup_insert_eq, Hat; simpl. rewrite Hcount. lia.
    + rewrite lookup_insert_ne by done.
      destruct (by_artist b t) eqn:Hb.
      * destruct Hne. by eapply by_artist_unique.
      * simpl. rewrite Hcount. lia.
  - intros b. destruct (decide (a = b)) as [<-|Hne].
    + rewrite lookup_insert_eq; simpl. lia.
    + rewrite lookup_insert_ne by done. apply Hcap.
  - intros b Hb. rewrite (filter_by_artist_snoc a) by done.
    rewrite decide_False; [by apply Hout|].
    intros <-. apply Hb. apply lookup_group_Some. eauto.
Qed.

(** Whatever the loop returns is the selection of a state that satisfies the
    invariant, and holds at most [max_recommendations] tracks. *)
Lemma allocate_loop_inv (groups : Groups) (M cap : Z) (fuel : nat)
  (s : AllocState) (out : Exc (list Track)) :
  sorted_groups groups →
  alloc_inv groups cap s →
  (Z.of_nat (length (selected_tracks s)) <= Z.max 0 M)%Z →
  allocate_loop fuel M cap s = Some out →
  ∃ s', out = Ret (selected_tracks s')
        ∧ alloc_inv groups cap s'
        ∧ (Z.of_nat (length (selected_tracks s')) <= Z.max 0 M)%Z.
Proof.
  intros Hsorted. revert s.
  induction fuel as [|fuel IH]; intros s Hinv Hlen; simpl;
    destruct (_ <? _)%Z eqn:Hguard; try (intros [= <-]; by eauto).
  destruct (allocate_step_inv groups cap s Hsorted Hinv)
    as [->|(s' & -> & Hinv' & Hsel)].
  - intros [= <-]. eauto.
  - apply IH; [done|].
    destruct Hsel as [->|[t ->]]; [done|]. rewrite length_app; simpl. lia.
Qed.

Lemma sort_groups_sorted (groups : Groups) :
  (∀ a g, lookup_group a groups = Ret g →
          g ≠ [] ∧ Forall (λ t, by_artist a t = true) g) →
  sorted_groups (sort_groups groups).
Proof.
  intros Hg a g. rewrite lookup_group_sort.
  destruct (lookup_group a groups) as [g0|] eqn:Hl; [|done].
  intros [= <-]. destruct (Hg _ _ Hl) as [_ Hall]. split.
  - by rewrite sort_desc_perm.
  - apply sort_desc_sorted.
Qed.

Lemma alloc_inv_init (groups : Groups) (cap : Z) :
  (1 <= cap)%Z →
  alloc_inv (sort_groups groups) cap
    {| artist_tracks := sort_groups groups; selected_tracks := [];
       artist_counts := ∅ |}.
Proof.
  intros Hcap. unfold alloc_inv; simpl. split_and!; try done.
  - intros a g Hg. eauto.
  - intros a. rewrite lookup_empty. simpl. lia.
Qed.

Lemma num_distinct_0 (ids : list string) : num_distinct ids = 0%nat → ids = [].
Proof.
  unfold num_distinct. intros Hsize%size_empty_inv.
  destruct ids as [|a ids]; [done|]. exfalso.
  apply (not_elem_of_empty (C := gset string) a). rewrite <- Hsize.
  apply elem_of_list_to_set, list_elem_of_here.
Qed.

Lemma primary_artists_nil (tracks : list Track) :
  primary_artists tracks = Ret [] → tracks = [].
Proof.
  unfold primary_artists. destruct tracks as [|t tracks]; [done|]. simpl.
  destruct (primary_artist "unknown" t); simpl; [|done].
  by destruct (mapE _ tracks).
Qed.

(** What a call returns when every track has a primary artist: the selection
    of a state of the loop that satisfies the invariant. *)
Lemma apply_fairness_constraints_inv (fuel : nat) (tracks : list Track) (M : Z)
  (ids : list string) (result : list Track) :
  primary_artists tracks = Ret ids →
  apply_fairness_constraints fuel tracks M = Some result →
  result = []
  ∨ ∃ groups s,
      sorted_groups groups
      ∧ alloc_inv groups (Z.max 1 (M / Z.of_nat (num_distinct ids))) s
      ∧ result = selected_tracks s
      ∧ (Z.of_nat (length result) <= Z.max 0 M)%Z.
Proof.
  intros Hids. unfold apply_fairness_constraints, fairness_body.
  destruct (primary_artists_group _ _ Hids) as [groups Hgroups].
  rewrite Hgroups.
  destruct (group_by_artist_spec _ _ Hgroups) as (ids' & Hids' & Hlen & Hgs).
  rewrite Hids in Hids'. injection Hids' as <-.
  destruct (_ =? _)%Z eqn:Hzero.
  { intros [= <-]. left.
    assert (Hnil : ids = []) by (apply num_distinct_0; lia).
    subst ids. apply primary_artists_nil in Hids as ->.
    apply py_slice_to_nil. }
  rewrite Hlen.
  destruct (allocate_loop _ _ _ _) as [out|] eqn:Hloop; [|done].
  apply (allocate_loop_inv (sort_groups groups)) in Hloop
    as (s' & -> & Hinv & Hle).
  - intros [= <-]. right. exists (sort_groups groups), s'.
    split_and!; [by apply sort_groups_sorted|done..].
  - by apply sort_groups_sorted.
  - apply alloc_inv_init. lia.
  - simpl. lia.
Qed.

(** ** The fairness allocator *)

(** A state whose iteration changes nothing, below the target size, is never
    left: the loop is still running whatever the fuel. *)
Lemma allocate_loop_stuck (M cap : Z) (s : AllocState) (fuel : nat) :
  (Z.of_nat (length (selected_tracks s)) < M)%Z →
  allocate_step cap s = Ret (Next s) →
  allocate_loop fuel M cap s = None.
Proof.
  intros Hlen Hstep. induction fuel as [|fuel IH]; simpl.
  - by rewrite (proj2 (Z.ltb_lt _ _) Hlen).
  - by rewrite (proj2 (Z.ltb_lt _ _) Hlen), Hstep.
Qed.

(** C1.  The allocator does not terminate on every input.  For the single
    candidate [solo] and [max_recommendations = 2] the cap is 2; the first
    iteration selects the track, and from then on the artist is still under
    its cap but has no track left, so each iteration leaves the state as it
    is: the call never returns. *)
Theorem fairness_allocator_spins_on_exhausted_artist (fuel : nat) :
  apply_fairness_constraints fuel [solo] 2 = None.
Proof.
  unfold apply_fairness_constraints.
  set (s1 := {| artist_tracks := [("X"%string, [])];
                selected_tracks := [solo];
                artist_counts := <["X"%string := 1%Z]> ∅ |}).
  assert (Hs1 : ∀ n, allocate_loop n 2 2 s1 = None).
  { intros n. apply allocate_loop_stuck; [simpl; lia|]. by vm_compute. }
  destruct fuel as [|fuel]; [by vm_compute|].
  assert (Hbody : fairness_body (S fuel) [solo] 2 = allocate_loop fuel 2 2 s1)
    by reflexivity.
  by rewrite Hbody, Hs1.
Qed.




(** C3, as the code has it.  The groups are sorted by the base score
    ([recommendation_score], 0 when missing), not by [debiased_score]: when
    every track has a primary artist, the tracks of any one artist appear in
    the returned list in non-increasing order of their base score. *)
Theorem fairness_keeps_base_score_order (fuel : nat) (tracks : list Track)
  (M : Z) (ids : list string) (result : list Track) :
  primary_artists tracks = Ret ids →
  apply_fairness_constraints fuel tracks M = Some result →
  ∀ a, StronglySorted (desc base_score) (List.filter (by_artist a) result).
Proof.
  intros Hids Hrun a.
  destruct (apply_fairness_constraints_inv _ _ _ _ _ Hids Hrun)
    as [->|(groups & s & Hsorted & Hinv & -> & _)]; [constructor|].
  destruct Hinv as (_ & Hrem & _ & _ & Hout).
  destruct (decide (a ∈ map fst groups)) as [Hin|Hnin].
  - apply lookup_group_Some in Hin as [g Hg].
    destruct (Hrem _ _ Hg) as (remaining & _ & Hsplit).
    destruct (Hsorted _ _ Hg) as [_ Hs]. rewrite <- Hsplit in Hs.
    by apply StronglySorted_app_1_l in Hs.
  - rewrite (Hout _ Hnin). constructor.
Qed.

Lemma fairness_keeps_base_score_order_witness :
  StronglySorted (desc base_score)
    (List.filter (by_artist "X") [high_base; low_base]).
Proof.
  apply (fairness_keeps_base_score_order 5 [low_base; high_base] 2
           ["X"; "X"]%string [high_base; low_base]).
  - reflexivity.
  - by vm_compute.
Defined.

(** C3 as stated fails: of two tracks of one artist, the one with the higher
    base score is returned first although its [debiased_score] is the
    lower. *)
Lemma fairness_not_ordered_by_debiased_score :
  apply_fairness_constraints 5 [low_base; high_base] 2 = Some [high_base; low_base]
  ∧ ¬ StronglySorted (desc debiased_score)
        (List.filter (by_artist "X") [high_base; low_base]).
Proof.
  split; [by vm_compute|].
  intros Hs. change (List.filter _ _) with [high_base; low_base] in Hs.
  apply StronglySorted_cons in Hs as [Hall _].
  apply Forall_cons in Hall as [Hle _]. unfold desc in Hle.
  by vm_compute in Hle.
Qed.

(** ** Where the allocator does return

    The loop makes progress as long as the artist it picks has a track left.
    That is guaranteed when every artist has at least as many tracks as the
    cap, in particular when the cap is 1. *)

Lemma allocate_step_progress (groups : Groups) (cap : Z) (s s' : AllocState) :
  alloc_inv groups cap s →
  (∀ a g, lookup_group a groups = Ret g → (cap <= Z.of_nat (length g))%Z) →
  allocate_step cap s = Ret (Next s') →
  ∃ t, selected_tracks s' = selected_tracks s ++ [t].
Proof.
  intros (Hkeys & Hrem & Hcount & _ & _) Hfill. unfold allocate_step.
  destruct (find_lowest _ _ _ _ _) as [a|] eqn:Hfind; [|done].
  apply find_lowest_Some in Hfind as [?|[Hin Hlt]]; [done|].
  rewrite Hkeys in Hin. apply lookup_group_Some in Hin as [g Hg].
  destruct (Hrem _ _ Hg) as (remaining & -> & Hsplit); simpl.
  destruct remaining as [|t rest].
  - exfalso. specialize (Hfill _ _ Hg). rewrite <- Hsplit, app_nil_r in Hfill.
    rewrite Hcount in Hlt. unfold count_artist in Hlt. lia.
  - intros [= <-]. simpl. eauto.
Qed.

Lemma allocate_loop_returns (groups : Groups) (M cap : Z) (fuel : nat)
  (s : AllocState) :
  sorted_groups groups →
  alloc_inv groups cap s →
  (∀ a g, lookup_group a groups = Ret g → (cap <= Z.of_nat (length g))%Z) →
  (M - Z.of_nat (length (selected_tracks s)) <= Z.of_nat fuel)%Z →
  ∃ result, allocate_loop fuel M cap s = Some (Ret result).
Proof.
  intros Hsorted Hinv Hfill. revert s Hinv.
  induction fuel as [|fuel IH]; intros s Hinv Hfuel; simpl;
    destruct (_ <? _)%Z eqn:Hguard; eauto; [lia|].
  destruct (allocate_step_inv groups cap s Hsorted Hinv)
    as [->|(s' & Hstep & Hinv' & _)]; [eauto|].
  rewrite Hstep. apply IH; [done|].
  destruct (allocate_step_progress _ _ _ _ Hinv Hfill Hstep) as [t ->].
  rewrite length_app; simpl. lia.
Qed.

(** The call returns, within [max_recommendations] iterations, when every
    artist of a non-empty candidate list has at least as many tracks as the
    cap. *)
Lemma fairness_returns_when_groups_fill_cap (tracks : list Track) (M : Z)
  (groups : Groups) :
  group_by_artist tracks = Ret groups →
  (∀ a g, lookup_group a groups = Ret g →
          (Z.max 1 (M / Z.of_nat (length groups)) <= Z.of_nat (length g))%Z) →
  ∃ result, apply_fairness_constraints (Z.to_nat M) tracks M = Some result.
Proof.
  intros Hgroups Hfill. unfold apply_fairness_constraints, fairness_body.
  rewrite Hgroups. destruct (_ =? _)%Z; [eauto|].
  destruct (group_by_artist_spec _ _ Hgroups) as (ids & _ & _ & Hgs).
  destruct (allocate_loop_returns (sort_groups groups) M
              (Z.max 1 (M / Z.of_nat (length groups))) (Z.to_nat M)
              {| artist_tracks := sort_groups groups; selected_tracks := [];
                 artist_counts := ∅ |}) as [result ->]; eauto.
  - by apply sort_groups_sorted.
  - apply alloc_inv_init. lia.
  - intros a g. rewrite lookup_group_sort.
    destruct (lookup_group a groups) as [g0|] eqn:Hl; [|done].
    intros [= <-]. rewrite sort_desc_length. by eapply Hfill.
  - simpl. lia.
Qed.

(** In particular the call returns whenever the target size is below twice
    the number of artists, the cap being 1 then. *)
Lemma fairness_returns_when_cap_is_1 (tracks : list Track) (M : Z)
  (groups : Groups) :
  group_by_artist tracks = Ret groups →
  (M < 2 * Z.of_nat (length groups))%Z →
  ∃ result, apply_fairness_constraints (Z.to_nat M) tracks M = Some result.
Proof.
  intros Hgroups HM. apply (fairness_returns_when_groups_fill_cap _ _ groups);
    [done|].
  destruct (group_by_artist_spec _ _ Hgroups) as (ids & _ & _ & Hgs).
  intros a g Hg. destruct (Hgs _ _ Hg) as [Hne _].
  assert (0 < length g)%nat by (destruct g; [done|simpl; lia]).
  assert (M / Z.of_nat (length groups) <= 1)%Z; [|lia].
  destruct groups as [|p groups]; [done|]. cbn [length] in *.
  apply Z.lt_succ_r. apply Z.div_lt_upper_bound; lia.
Qed.

(** ** Rounding in binary64

    What the properties below need of the arithmetic of the floats: a
    rounded sum, difference or product stays on the side of a float that
    bounds the exact result.  The lemmas are about the specification of the
    primitive floats in the Standard Library. *)

Section Binary64_rounding.
Local Open Scope Z_scope.

Lemma digits2_pos_size (p : positive) : digits2_pos p = Pos.size p.
Proof. induction p as [p IH|p IH|]; simpl; by rewrite ?IH. Qed.

Lemma Zdigits2_bounds (m : positive) :
  2 ^ (Zdigits2 (Zpos m) - 1) <= Zpos m < 2 ^ Zdigits2 (Zpos m).
Proof.
  cbn [Zdigits2]. rewrite digits2_pos_size.
  pose proof (Pos.size_gt m) as Hgt. pose proof (Pos.size_le m) as Hle.
  assert (Hpow : Zpos (2 ^ Pos.size m) = 2 ^ Zpos (Pos.size m))
    by (by rewrite Pos2Z.inj_pow).
  split; [|lia].
  assert (H2 : 2 ^ Zpos (Pos.size m) = 2 * 2 ^ (Zpos (Pos.size m) - 1)).
  { rewrite <- Z.pow_succ_r by lia. f_equal. lia. }
  lia.
Qed.

Lemma Zdigits2_pos (m : positive) : 1 <= Zdigits2 (Zpos m).
Proof. cbn [Zdigits2]. lia. Qed.

Lemma Zdigits2_unique (m d : Z) :
  2 ^ (d - 1) <= m < 2 ^ d → 1 <= d → Zdigits2 m = d.
Proof.
  intros [Hlo Hhi] Hd.
  assert (0 < m) by (pose proof (Z.pow_pos_nonneg 2 (d - 1)); lia).
  destruct m as [|m|m]; [lia| |lia].
  pose proof (Zdigits2_bounds m) as [Hlo' Hhi'].
  pose proof (Zdigits2_pos m) as Hd'.
  set (d' := Zdigits2 (Zpos m)) in *.
  destruct (Z.lt_trichotomy d d') as [Hlt|[Heq|Hgt]]; [|done|].
  - assert (2 ^ d <= 2 ^ (d' - 1)) by (apply Z.pow_le_mono_r; lia). lia.
  - assert (2 ^ d' <= 2 ^ (d - 1)) by (apply Z.pow_le_mono_r; lia). lia.
Qed.

(** ** Shifting the mantissa *)

Lemma iter_pos_nat {A : Type} (f : A → A) (n : positive) (x : A) :
  iter_pos f n x = Nat.iter (Pos.to_nat n) f x.
Proof.
  revert x. induction n as [n IH|n IH|]; intros x; cbn [iter_pos].
  - rewrite !IH, Pos2Nat.inj_xI.
    replace (S (2 * Pos.to_nat n))%nat
      with (Pos.to_nat n + (Pos.to_nat n + 1))%nat by lia.
    rewrite !Nat.iter_add. by simpl.
  - rewrite !IH, Pos2Nat.inj_xO.
    replace (2 * Pos.to_nat n)%nat with (Pos.to_nat n + Pos.to_nat n)%nat by lia.
    by rewrite Nat.iter_add.
  - done.
Qed.

Lemma shr_1_spec (mrs : shr_record) :
  0 <= shr_m mrs →
  shr_1 mrs = {| shr_m := shr_m mrs / 2;
                 shr_r := Z.odd (shr_m mrs);
                 shr_s := shr_r mrs || shr_s mrs |}.
Proof.
  destruct mrs as [m r s]. simpl. intros Hm.
  destruct m as [|[p|p|]|p]; try lia; simpl; f_equal.
  - rewrite Pos2Z.inj_xI. apply (Z.div_unique _ _ _ 1); lia.
  - rewrite Pos2Z.inj_xO. apply (Z.div_unique _ _ _ 0); lia.
Qed.

Lemma shr_iter_spec (k : nat) (m : Z) :
  0 <= m →
  shr_m (Nat.iter k shr_1 {| shr_m := m; shr_r := false; shr_s := false |})
  = m / 2 ^ Z.of_nat k
  ∧ (m mod 2 ^ Z.of_nat k = 0 →
     shr_r (Nat.iter k shr_1 {| shr_m := m; shr_r := false; shr_s := false |})
     = false
     ∧ shr_s (Nat.iter k shr_1 {| shr_m := m; shr_r := false; shr_s := false |})
       = false).
Proof.
  intros Hm. induction k as [|k [IHm IHrs]].
  - simpl. rewrite Z.div_1_r. done.
  - rewrite Nat.iter_succ.
    set (mrs := Nat.iter k shr_1 _) in *.
    assert (Hpow : 2 ^ Z.of_nat (S k) = 2 ^ Z.of_nat k * 2).
    { rewrite Nat2Z.inj_succ, Z.pow_succ_r by lia. lia. }
    assert (Hpos : 0 < 2 ^ Z.of_nat k) by (apply Z.pow_pos_nonneg; lia).
    assert (Hnn : 0 <= shr_m mrs).
    { rewrite IHm. apply Z.div_pos; lia. }
    rewrite (shr_1_spec mrs Hnn). cbn [shr_m shr_r shr_s]. split.
    + rewrite IHm, Hpow, Z.div_div by lia. done.
    + intros Hmod. rewrite Hpow in Hmod.
      rewrite Z.rem_mul_r in Hmod by lia.
      pose proof (Z.mod_pos_bound m (2 ^ Z.of_nat k) Hpos) as Hb1.
      pose proof (Z.mod_pos_bound (m / 2 ^ Z.of_nat k) 2) as Hb2.
      assert (Hmod' : m mod 2 ^ Z.of_nat k = 0) by nia.
      assert (Hev : (m / 2 ^ Z.of_nat k) mod 2 = 0) by nia.
      destruct (IHrs Hmod') as [-> ->]. split; [|done].
      rewrite IHm, <- Z.negb_even. apply negb_false_iff.
      apply Z.even_spec. exists (m / 2 ^ Z.of_nat k / 2).
      pose proof (Z.div_mod (m / 2 ^ Z.of_nat k) 2). lia.
Qed.

(** The first shift of [binary_round_aux]: by [n >= 0] places. *)
Lemma shr_spec (m e n : Z) :
  0 <= m → 0 <= n →
  let '(mrs, e') := shr {| shr_m := m; shr_r := false; shr_s := false |} e n in
  e' = e + n
  ∧ shr_m mrs = m / 2 ^ n
  ∧ (m mod 2 ^ n = 0 → shr_r mrs = false ∧ shr_s mrs = false).
Proof.
  intros Hm Hn. unfold shr. destruct n as [|p|p]; [| |lia].
  - rewrite Z.add_0_r, Z.pow_0_r, Z.div_1_r. done.
  - rewrite iter_pos_nat.
    pose proof (shr_iter_spec (Pos.to_nat p) m Hm) as Hs.
    rewrite positive_nat_Z in Hs. done.
Qed.


(** ** The shape of a rounded result *)

Lemma fexp_spec (x : Z) : fexp prec emax x = Z.max (x - 53) (-1074).
Proof. reflexivity. Qed.

Lemma canonical_spec (m : positive) (e : Z) :
  canonical_mantissa prec emax m e = true
  ↔ e = Z.max (Zdigits2 (Zpos m) + e - 53) (-1074).
Proof.
  unfold canonical_mantissa. rewrite Z.eqb_eq, fexp_spec. cbn [Zdigits2]. lia.
Qed.

Lemma round_nearest_even_cases (m : Z) (l : location) :
  round_nearest_even m l = m
  ∨ (round_nearest_even m l = m + 1 ∧ l ≠ loc_Exact).
Proof.
  destruct l as [|[]]; simpl; try (by left); [|by right].
  destruct (Z.even m); [by left|by right].
Qed.

Lemma shr_nonpos (mrs : shr_record) (e n : Z) : n <= 0 → shr mrs e n = (mrs, e).
Proof. intros Hn. unfold shr. destruct n; [done|lia|done]. Qed.

Lemma binary_round_aux_spec (sx : bool) (m : positive) (e : Z) :
  e <= fexp prec emax (Zdigits2 (Zpos m) + e) →
  ∃ mr : Z,
    (mr = Zpos m / 2 ^ (fexp prec emax (Zdigits2 (Zpos m) + e) - e)
     ∨ (mr = Zpos m / 2 ^ (fexp prec emax (Zdigits2 (Zpos m) + e) - e) + 1
        ∧ Zpos m mod 2 ^ (fexp prec emax (Zdigits2 (Zpos m) + e) - e) ≠ 0))
    ∧ ((mr = 0
        ∧ binary_round_aux prec emax sx (Zpos m) e loc_Exact = S754_zero sx)
       ∨ ∃ (m2 : positive) (e2 : Z),
           fexp prec emax (Zdigits2 (Zpos m) + e) <= e2
           ∧ Zpos m2 * 2 ^ (e2 - fexp prec emax (Zdigits2 (Zpos m) + e)) = mr
           ∧ canonical_mantissa prec emax m2 e2 = true
           ∧ binary_round_aux prec emax sx (Zpos m) e loc_Exact
             = if e2 <=? emax - prec then S754_finite sx m2 e2
               else S754_infinity sx).
Proof.
  set (d := Zdigits2 (Zpos m)). set (e1 := fexp prec emax (d + e)).
  intros He.
  pose proof (Zdigits2_bounds m) as [Hdlo Hdhi]. fold d in Hdlo, Hdhi.
  pose proof (Zdigits2_pos m) as Hd. fold d in Hd.
  assert (He1 : e1 = Z.max (d + e - 53) (-1074)) by apply fexp_spec.
  set (n := e1 - e). assert (Hn : 0 <= n) by lia.
  assert (Hpn : 0 < 2 ^ n) by (apply Z.pow_pos_nonneg; lia).
  set (m1 := Zpos m / 2 ^ n).
  assert (Hm1 : 0 <= m1) by (apply Z.div_pos; lia).
  (* the first shift *)
  unfold binary_round_aux, shr_fexp. fold d. fold e1. fold n.
  cbn [shr_record_of_loc].
  pose proof (shr_spec (Zpos m) e n ltac:(lia) Hn) as Hshr.
  destruct (shr _ e n) as [mrs e'].
  destruct Hshr as (-> & Hmrs & Hexact). fold m1 in Hmrs.
  replace (e + n) with e1 by lia.
  set (mr := round_nearest_even (shr_m mrs) (loc_of_shr_record mrs)).
  assert (Hmr : mr = m1 ∨ (mr = m1 + 1 ∧ Zpos m mod 2 ^ n ≠ 0)).
  { unfold mr. rewrite Hmrs.
    destruct (round_nearest_even_cases m1 (loc_of_shr_record mrs))
      as [->|[-> Hl]]; [by left|right]. split; [done|].
    intros Hmod. destruct (Hexact Hmod) as [Hr Hs]. apply Hl.
    destruct mrs as [? r s]. simpl in Hr, Hs. by subst. }
  exists mr. split; [exact Hmr|].
  assert (Hm1hi : m1 < 2 ^ 53).
  { apply Z.div_lt_upper_bound; [done|].
    assert (2 ^ d <= 2 ^ (n + 53)) by (apply Z.pow_le_mono_r; lia).
    rewrite Z.pow_add_r in * by lia. lia. }
  assert (Hm1lo : -1074 < e1 → 2 ^ 52 <= m1).
  { intros Hnorm. apply Z.div_le_lower_bound; [done|].
    replace (d - 1) with (n + 52) in Hdlo by lia.
    rewrite Z.pow_add_r in Hdlo by lia. lia. }
  assert (Hmrhi : mr <= 2 ^ 53) by lia.
  assert (Hmrlo : 0 <= mr) by lia.
  destruct (decide (mr = 0)) as [Hz|Hnz].
  { left. split; [done|]. rewrite Hz.
    rewrite shr_nonpos by (rewrite fexp_spec; simpl; lia). by simpl. }
  right.
  destruct (decide (mr = 2 ^ 53)) as [Hcarry|Hnocarry].
  - exists (2 ^ 52)%positive, (e1 + 1). rewrite Hcarry.
    split; [lia|]. split.
    { replace (e1 + 1 - e1) with 1 by lia. reflexivity. }
    assert (Hd52 : Zdigits2 (Z.pos (2 ^ 52)) = 53) by (by vm_compute).
    assert (Hd53 : Zdigits2 (2 ^ 53) = 54) by (by vm_compute).
    split; [apply canonical_spec; rewrite Hd52; lia|].
    replace (fexp prec emax (Zdigits2 (2 ^ 53) + e1) - e1) with 1
      by (rewrite fexp_spec, Hd53; lia).
    reflexivity.
  - assert (Hlt : mr < 2 ^ 53) by lia.
    destruct mr as [|p|p] eqn:Hp; [done| |lia].
    pose proof (Zdigits2_bounds p) as [Hplo Hphi].
    pose proof (Zdigits2_pos p) as Hpd.
    set (dr := Zdigits2 (Zpos p)) in *.
    assert (Hdr : dr <= 53).
    { destruct (Z.le_gt_cases dr 53) as [|Hgt]; [done|].
      assert (2 ^ 53 <= 2 ^ (dr - 1)) by (apply Z.pow_le_mono_r; lia). lia. }
    exists p, e1. split; [lia|]. split.
    { rewrite Z.sub_diag, Z.pow_0_r. lia. }
    split.
    { apply canonical_spec. fold dr.
      destruct (Z.le_gt_cases e1 (-1074)) as [|Hnorm]; [lia|].
      assert (Hdr' : dr = 53); [|lia].
      apply Zdigits2_unique; [|lia]. split; [|lia].
      specialize (Hm1lo Hnorm). lia. }
    rewrite shr_nonpos by (rewrite fexp_spec; fold dr; lia). done.
Qed.

(** ** Rounding against a representable bound *)

Lemma SFleb_finite_pos (m1 : positive) (e1 : Z) (m2 : positive) (e2 : Z) :
  SFleb (S754_finite false m1 e1) (S754_finite false m2 e2) = true
  ↔ e1 < e2 ∨ (e1 = e2 ∧ (m1 <= m2)%positive).
Proof.
  unfold SFleb, SFcompare. rewrite Pos.compare_cont_spec. cbn [Pos.switch_Eq].
  destruct (Z.compare_spec e1 e2) as [->|Hlt|Hgt].
  - destruct (Pos.compare_spec m1 m2) as [->|Hlt|Hgt]; split; try done; lia.
  - split; [by left|done].
  - split; [done|lia].
Qed.

(** Canonical mantissas have at most 53 digits, and exactly 53 above the
    smallest exponent. *)
Lemma canonical_digits (m : positive) (e : Z) :
  canonical_mantissa prec emax m e = true →
  -1074 <= e ∧ Zpos m < 2 ^ 53 ∧ (-1074 < e → 2 ^ 52 <= Zpos m).
Proof.
  intros Hc%canonical_spec.
  pose proof (Zdigits2_bounds m) as [Hlo Hhi].
  pose proof (Zdigits2_pos m) as Hd.
  set (d := Zdigits2 (Zpos m)) in *.
  split; [lia|]. split.
  - assert (2 ^ d <= 2 ^ 53) by (apply Z.pow_le_mono_r; lia). lia.
  - intros Hnorm. replace (d - 1) with 52 in Hlo by lia. done.
Qed.

Lemma canonical_order (m2 : positive) (e2 : Z) (mx : positive) (ex b : Z) :
  canonical_mantissa prec emax m2 e2 = true →
  canonical_mantissa prec emax mx ex = true →
  b <= e2 → b <= ex →
  Zpos m2 * 2 ^ (e2 - b) <= Zpos mx * 2 ^ (ex - b) →
  e2 < ex ∨ (e2 = ex ∧ (m2 <= mx)%positive).
Proof.
  intros H2 Hx Hb2 Hbx Hle.
  destruct (canonical_digits _ _ H2) as (He2 & Hm2hi & Hm2lo).
  destruct (canonical_digits _ _ Hx) as (Hex & Hmxhi & Hmxlo).
  destruct (Z.lt_trichotomy e2 ex) as [Hlt|[Heq|Hgt]]; [by left| |exfalso].
  - right. split; [done|]. subst e2.
    assert (0 < 2 ^ (ex - b)) by (apply Z.pow_pos_nonneg; lia).
    assert (Zpos m2 <= Zpos mx) by nia. lia.
  - specialize (Hm2lo ltac:(lia)).
    assert (Hp : 2 ^ (e2 - b) = 2 ^ (e2 - ex) * 2 ^ (ex - b)).
    { rewrite <- Z.pow_add_r by lia. f_equal. lia. }
    assert (0 < 2 ^ (ex - b)) by (apply Z.pow_pos_nonneg; lia).
    assert (2 ^ 1 <= 2 ^ (e2 - ex)) by (apply Z.pow_le_mono_r; lia).
    rewrite Hp in Hle. change (2 ^ 1) with 2 in *.
    change (2 ^ 52) with 4503599627370496 in *.
    change (2 ^ 53) with 9007199254740992 in *. nia.
Qed.

(** The exponent that rounding chooses grows with the number. *)
Lemma fexp_le_canonical (m : positive) (e : Z) (mx : positive) (ex : Z) :
  canonical_mantissa prec emax mx ex = true →
  e <= ex →
  Zpos m <= Zpos mx * 2 ^ (ex - e) →
  fexp prec emax (Zdigits2 (Zpos m) + e) <= ex.
Proof.
  intros Hx%canonical_spec He Hle. rewrite fexp_spec.
  pose proof (Zdigits2_bounds m) as [Hlo _].
  pose proof (Zdigits2_bounds mx) as [_ Hhi].
  pose proof (Zdigits2_pos m). pose proof (Zdigits2_pos mx).
  set (d := Zdigits2 (Zpos m)) in *. set (dx := Zdigits2 (Zpos mx)) in *.
  assert (Hlt : 2 ^ (d - 1) < 2 ^ (dx + (ex - e))).
  { rewrite Z.pow_add_r by lia.
    assert (0 < 2 ^ (ex - e)) by (apply Z.pow_pos_nonneg; lia). nia. }
  apply Z.pow_lt_mono_r_iff in Hlt; lia.
Qed.

Lemma fexp_ge_canonical (m : positive) (e : Z) (mx : positive) (ex : Z) :
  canonical_mantissa prec emax mx ex = true →
  e <= ex →
  Zpos mx * 2 ^ (ex - e) <= Zpos m →
  ex <= fexp prec emax (Zdigits2 (Zpos m) + e).
Proof.
  intros Hx%canonical_spec He Hle. rewrite fexp_spec.
  pose proof (Zdigits2_bounds m) as [_ Hhi].
  pose proof (Zdigits2_bounds mx) as [Hlo _].
  pose proof (Zdigits2_pos m). pose proof (Zdigits2_pos mx).
  set (d := Zdigits2 (Zpos m)) in *. set (dx := Zdigits2 (Zpos mx)) in *.
  assert (Hlt : 2 ^ (dx - 1 + (ex - e)) < 2 ^ d).
  { rewrite Z.pow_add_r by lia.
    assert (0 < 2 ^ (ex - e)) by (apply Z.pow_pos_nonneg; lia). nia. }
  apply Z.pow_lt_mono_r_iff in Hlt; lia.
Qed.

(** Rounding a number that is at most a float gives at most that float. *)
Lemma round_le_float (m : positive) (e : Z) (mx : positive) (ex : Z) :
  canonical_mantissa prec emax mx ex = true →
  ex <= emax - prec →
  e <= ex →
  e <= fexp prec emax (Zdigits2 (Zpos m) + e) →
  Zpos m <= Zpos mx * 2 ^ (ex - e) →
  SFleb (binary_round_aux prec emax false (Zpos m) e loc_Exact)
    (S754_finite false mx ex) = true.
Proof.
  intros Hx Hbound He Hshift Hle.
  pose proof (fexp_le_canonical m e mx ex Hx He Hle) as He1.
  destruct (binary_round_aux_spec false m e Hshift)
    as (mr & Hmr & [[Hz ->]|(m2 & e2 & He2 & Hval & Hc2 & ->)]); [done|].
  set (e1 := fexp prec emax (Zdigits2 (Zpos m) + e)) in *.
  set (n := e1 - e) in *.
  assert (Hpn : 0 < 2 ^ n) by (apply Z.pow_pos_nonneg; lia).
  set (K := Zpos mx * 2 ^ (ex - e1)).
  assert (HK : Zpos mx * 2 ^ (ex - e) = 2 ^ n * K).
  { unfold K, n. replace (ex - e) with (e1 - e + (ex - e1)) by lia.
    rewrite Z.pow_add_r by lia. lia. }
  rewrite HK in Hle.
  assert (HmrK : mr <= K).
  { destruct Hmr as [->|[-> Hinexact]].
    - by apply Z.div_le_upper_bound.
    - assert (Zpos m ≠ 2 ^ n * K).
      { intros Heq. apply Hinexact. rewrite Heq, Z.mul_comm.
        by apply Z.mod_mul, Z.neq_sym, Z.lt_neq. }
      assert (Zpos m / 2 ^ n < K) by (apply Z.div_lt_upper_bound; lia).
      lia. }
  rewrite <- Hval in HmrK.
  destruct (canonical_order m2 e2 mx ex e1 Hc2 Hx He2 He1 HmrK) as [Hlt|[-> Hm]].
  - rewrite (proj2 (Z.leb_le _ _)) by lia. apply SFleb_finite_pos. by left.
  - rewrite (proj2 (Z.leb_le _ _)) by lia. apply SFleb_finite_pos. by right.
Qed.

(** Rounding a number that is at least a float gives at least that float. *)
Lemma round_ge_float (m : positive) (e : Z) (mx : positive) (ex : Z) :
  canonical_mantissa prec emax mx ex = true →
  e <= ex →
  e <= fexp prec emax (Zdigits2 (Zpos m) + e) →
  Zpos mx * 2 ^ (ex - e) <= Zpos m →
  SFleb (S754_finite false mx ex)
    (binary_round_aux prec emax false (Zpos m) e loc_Exact) = true.
Proof.
  intros Hx He Hshift Hle.
  pose proof (fexp_ge_canonical m e mx ex Hx He Hle) as He1.
  destruct (canonical_digits _ _ Hx) as (Hex & Hmxhi & Hmxlo).
  destruct (binary_round_aux_spec false m e Hshift) as (mr & Hmr & Hres).
  set (e1 := fexp prec emax (Zdigits2 (Zpos m) + e)) in *.
  set (n := e1 - e) in *.
  assert (Hpn : 0 < 2 ^ n) by (apply Z.pow_pos_nonneg; lia).
  assert (Hmpos : 2 ^ n <= Zpos m).
  { pose proof (Zdigits2_bounds m) as [Hlo _].
    pose proof (Zdigits2_pos m) as Hd.
    assert (He1' : e1 = Z.max (Zdigits2 (Zpos m) + e - 53) (-1074))
      by apply fexp_spec.
    destruct (Z.eq_dec e1 (-1074)) as [Hmin|Hnorm].
    - assert (e1 = ex) as Heq by lia. unfold n. rewrite Heq.
      assert (0 < 2 ^ (ex - e)) by (apply Z.pow_pos_nonneg; lia). nia.
    - assert (2 ^ n <= 2 ^ (Zdigits2 (Zpos m) - 1))
        by (apply Z.pow_le_mono_r; lia).
      lia. }
  assert (Hm1 : 1 <= Zpos m / 2 ^ n).
  { apply Z.div_le_lower_bound; lia. }
  destruct Hres as [[Hz _]|(m2 & e2 & He2 & Hval & Hc2 & ->)]; [lia|].
  destruct (e2 <=? emax - prec); [|done].
  apply SFleb_finite_pos.
  destruct (Z.eq_dec e2 ex) as [Heq|Hne]; [right|left; lia].
  split; [done|].
  assert (e1 = ex) as He1x by lia.
  rewrite Heq, He1x, Z.sub_diag, Z.pow_0_r, Z.mul_1_r in Hval.
  assert (Zpos mx <= Zpos m / 2 ^ n).
  { apply Z.div_le_lower_bound; [done|]. unfold n. rewrite He1x. lia. }
  lia.
Qed.


(** ** Aligning mantissas *)

Lemma Pos_iter_xO (m d : positive) :
  Zpos (Pos.iter xO m d) = Zpos m * 2 ^ Zpos d.
Proof.
  induction d as [|d IH] using Pos.peano_ind.
  - simpl. lia.
  - rewrite Pos.iter_succ, Pos2Z.inj_xO, IH, Pos2Z.inj_succ.
    rewrite Z.pow_succ_r by lia. lia.
Qed.

Lemma shl_align_spec (m : positive) (e e' : Z) :
  e' <= e →
  ∃ m', shl_align m e e' = (m', e') ∧ Zpos m' = Zpos m * 2 ^ (e - e').
Proof.
  intros He. unfold shl_align. destruct (e' - e) as [|d|d] eqn:Hd; [|lia|].
  - exists m. assert (e' = e) as -> by lia.
    by rewrite Z.sub_diag, Z.pow_0_r, Z.mul_1_r.
  - exists (Pos.iter xO m d). split; [done|].
    rewrite Pos_iter_xO. f_equal. f_equal. lia.
Qed.

Lemma shl_align_id (m : positive) (e e' : Z) : e <= e' → shl_align m e e' = (m, e).
Proof. intros He. unfold shl_align. destruct (e' - e) eqn:Hd; [done|done|lia]. Qed.

Lemma Zdigits2_shift (m : positive) (k : Z) :
  0 <= k → Zdigits2 (Zpos m * 2 ^ k) = Zdigits2 (Zpos m) + k.
Proof.
  intros Hk. pose proof (Zdigits2_bounds m) as [Hlo Hhi].
  pose proof (Zdigits2_pos m).
  assert (0 < 2 ^ k) by (apply Z.pow_pos_nonneg; lia).
  apply Zdigits2_unique; [|lia]. split.
  - replace (Zdigits2 (Zpos m) + k - 1) with (Zdigits2 (Zpos m) - 1 + k) by lia.
    rewrite Z.pow_add_r by lia. nia.
  - rewrite Z.pow_add_r by lia. nia.
Qed.

(** [binary_round] is [binary_round_aux] on an aligned mantissa. *)
Lemma binary_round_spec (sx : bool) (m : positive) (e : Z) :
  ∃ (m' : positive) (e' : Z),
    binary_round prec emax sx m e
    = binary_round_aux prec emax sx (Zpos m') e' loc_Exact
    ∧ e' <= e ∧ Zpos m' = Zpos m * 2 ^ (e - e')
    ∧ e' <= fexp prec emax (Zdigits2 (Zpos m') + e').
Proof.
  unfold binary_round.
  change (Zpos (digits2_pos m)) with (Zdigits2 (Zpos m)).
  set (f := fexp prec emax (Zdigits2 (Zpos m) + e)).
  destruct (Z.le_gt_cases e f) as [Hle|Hgt].
  - rewrite shl_align_id by done. exists m, e. split; [done|].
    split; [lia|]. split; [|done].
    by rewrite Z.sub_diag, Z.pow_0_r, Z.mul_1_r.
  - destruct (shl_align_spec m e f ltac:(lia)) as (m' & -> & Hm').
    exists m', f. split; [done|]. split; [lia|]. split; [done|].
    rewrite Hm', Zdigits2_shift by lia.
    replace (Zdigits2 (Zpos m) + (e - f) + f) with (Zdigits2 (Zpos m) + e) by lia.
    fold f. lia.
Qed.

(** A rounded number keeps its sign and is never [nan]. *)
Lemma binary_round_aux_sign (sx : bool) (m : positive) (e : Z) :
  e <= fexp prec emax (Zdigits2 (Zpos m) + e) →
  binary_round_aux prec emax sx (Zpos m) e loc_Exact = S754_zero sx
  ∨ binary_round_aux prec emax sx (Zpos m) e loc_Exact = S754_infinity sx
  ∨ ∃ m2 e2, binary_round_aux prec emax sx (Zpos m) e loc_Exact
             = S754_finite sx m2 e2.
Proof.
  intros Hshift.
  destruct (binary_round_aux_spec sx m e Hshift)
    as (mr & _ & [[_ ->]|(m2 & e2 & _ & _ & _ & ->)]); [by left|right].
  destruct (e2 <=? emax - prec); [right; by eexists _, _|by left].
Qed.

Lemma binary_round_le_float (m : positive) (e : Z) (mx : positive) (ex : Z) :
  canonical_mantissa prec emax mx ex = true →
  ex <= emax - prec →
  e <= ex →
  Zpos m <= Zpos mx * 2 ^ (ex - e) →
  SFleb (binary_round prec emax false m e) (S754_finite false mx ex) = true.
Proof.
  intros Hx Hbound He Hle.
  destruct (binary_round_spec false m e) as (m' & e' & -> & He' & Hm' & Hshift).
  apply round_le_float; [done|done|lia|done|].
  rewrite Hm'. replace (ex - e') with (ex - e + (e - e')) by lia.
  rewrite Z.pow_add_r by lia.
  assert (0 < 2 ^ (e - e')) by (apply Z.pow_pos_nonneg; lia). nia.
Qed.


(** A negative rounded number is below every float that is not negative. *)
Lemma binary_round_neg_le (m : positive) (e : Z) (y : spec_float) :
  match y with
  | S754_zero _ | S754_finite false _ _ | S754_infinity false => True
  | _ => False
  end →
  SFleb (binary_round prec emax true m e) y = true.
Proof.
  intros Hy.
  destruct (binary_round_spec true m e) as (m' & e' & -> & _ & _ & Hshift).
  destruct (binary_round_aux_sign true m' e' Hshift)
    as [->|[->|(m2 & e2 & ->)]]; by destruct y as [[]|[]| |[] ? ?].
Qed.


(** ** The operations against their operands *)


(** Subtracting a positive float never gives more. *)
Lemma SFsub_le (mx : positive) (ex : Z) (mc : positive) (ec : Z) :
  canonical_mantissa prec emax mx ex = true →
  ex <= emax - prec →
  SFleb (SFsub prec emax (S754_finite false mx ex) (S754_finite false mc ec))
    (S754_finite false mx ex) = true.
Proof.
  intros Hx Hbound. cbn [SFsub cond_Zopp].
  destruct (shl_align_spec mx ex (Z.min ex ec) ltac:(lia)) as (mx' & -> & Hmx').
  destruct (shl_align_spec mc ec (Z.min ex ec) ltac:(lia)) as (mc' & -> & Hmc').
  cbn [fst].
  destruct (Zpos mx' - Zpos mc') as [|s|s] eqn:Hs; cbn [binary_normalize].
  - done.
  - apply binary_round_le_float; [done|done|lia|]. lia.
  - by apply binary_round_neg_le.
Qed.

Lemma SFmul_shift (mx : positive) (ex : Z) (mk : positive) (ek : Z) :
  canonical_mantissa prec emax mx ex = true →
  canonical_mantissa prec emax mk ek = true →
  ex + ek <= fexp prec emax (Zdigits2 (Zpos (mx * mk)) + (ex + ek)).
Proof.
  intros Hx Hk. rewrite fexp_spec.
  destruct (canonical_digits _ _ Hx) as (Hex & _ & Hmxlo).
  destruct (canonical_digits _ _ Hk) as (Hek & _ & Hmklo).
  pose proof (Zdigits2_bounds (mx * mk)) as [_ Hhi].
  pose proof (Zdigits2_pos (mx * mk)) as Hd.
  set (d := Zdigits2 (Zpos (mx * mk))) in *.
  destruct (Z.eq_dec ex (-1074)) as [Hx0|Hxn];
    [destruct (Z.eq_dec ek (-1074)) as [Hk0|Hkn]; [lia|]|].
  - specialize (Hmklo ltac:(lia)).
    assert (Hlt : 2 ^ 52 < 2 ^ d) by (rewrite Pos2Z.inj_mul in Hhi; nia).
    apply Z.pow_lt_mono_r_iff in Hlt; lia.
  - specialize (Hmxlo ltac:(lia)).
    assert (Hlt : 2 ^ 52 < 2 ^ d) by (rewrite Pos2Z.inj_mul in Hhi; nia).
    apply Z.pow_lt_mono_r_iff in Hlt; lia.
Qed.

(** Multiplying a positive float by a float that is at most 1 never gives
    more. *)
Lemma SFmul_le (mx : positive) (ex : Z) (k : spec_float) :
  valid_binary (S754_finite false mx ex) = true →
  valid_binary k = true →
  SFleb k (S754_finite false (2 ^ 52) (-52)) = true →
  SFleb (SFmul prec emax (S754_finite false mx ex) k) (S754_finite false mx ex)
  = true.
Proof.
  intros Hx Hk Hle. cbn [valid_binary SpecFloat.valid_binary bounded] in Hx.
  apply andb_true_iff in Hx as [Hx Hbound]. apply Z.leb_le in Hbound.
  destruct k as [s|s| |s mk ek].
  - by destruct s.
  - by destruct s.
  - done.
  - cbn [valid_binary SpecFloat.valid_binary bounded] in Hk.
    apply andb_true_iff in Hk as [Hk _].
    pose proof (SFmul_shift mx ex mk ek Hx Hk) as Hshift.
    cbn [SFmul]. destruct s; cbn [xorb].
    + destruct (binary_round_aux_sign true (mx * mk) (ex + ek) Hshift)
        as [->|[->|(m2 & e2 & ->)]]; done.
    + apply SFleb_finite_pos in Hle.
      destruct (canonical_digits _ _ Hk) as (Hek & Hmkhi & _).
      assert (Hek' : ek <= -52) by lia.
      apply round_le_float; [done|done|lia|done|].
      rewrite Pos2Z.inj_mul.
      replace (ex - (ex + ek)) with (- ek) by lia.
      assert (Zpos mk <= 2 ^ (- ek)); [|nia].
      destruct Hle as [Hlt|[-> Hm]].
      * assert (2 ^ 53 <= 2 ^ (- ek)) by (apply Z.pow_le_mono_r; lia). lia.
      * change (2 ^ (- -52)) with (Zpos (2 ^ 52)). lia.
Qed.


(** ** The order of the floats *)





Lemma valid_finite (s : bool) (m : positive) (e : Z) :
  valid_binary (S754_finite s m e) = true
  ↔ canonical_mantissa prec emax m e = true ∧ e <= emax - prec.
Proof.
  cbn [SpecFloat.valid_binary]. unfold bounded.
  by rewrite andb_true_iff, Z.leb_le.
Qed.

(** ** The same on primitive floats *)




(** The product of a positive finite float and a float that is at most 1 is
    at most the former. *)
Lemma f64_mul_below (x k : float) (m : positive) (e : Z) :
  Prim2SF x = S754_finite false m e →
  PrimFloat.leb k 1 = true →
  PrimFloat.leb (x * k) x = true.
Proof.
  rewrite !leb_spec, mul_spec. intros Hx Hk.
  pose proof (Prim2SF_valid x) as Hvx. pose proof (Prim2SF_valid k) as Hvk.
  rewrite Hx in *. by apply SFmul_le.
Qed.


(** ** Rounding a float gives that float *)




(** ** Strict bounds *)

(** Rounding against a float below, whatever the exponents. *)
Lemma round_ge_float_any (m : positive) (e : Z) (mx : positive) (ex : Z) :
  canonical_mantissa prec emax mx ex = true →
  e <= fexp prec emax (Zdigits2 (Zpos m) + e) →
  (e <= ex → Zpos mx * 2 ^ (ex - e) <= Zpos m) →
  SFleb (S754_finite false mx ex)
    (binary_round_aux prec emax false (Zpos m) e loc_Exact) = true.
Proof.
  intros Hx Hshift Hle.
  destruct (Z.le_gt_cases e ex) as [He|He]; [by apply round_ge_float; auto|].
  destruct (canonical_digits _ _ Hx) as (Hex & _ & _).
  pose proof (Zdigits2_bounds m) as [Hlo Hhi].
  pose proof (Zdigits2_pos m) as Hd.
  rewrite fexp_spec in Hshift.
  destruct (binary_round_aux_spec false m e) as (mr & Hmr & Hres);
    [by rewrite fexp_spec|].
  rewrite fexp_spec in Hmr, Hres.
  set (d := Zdigits2 (Zpos m)) in *.
  set (f := Z.max (d + e - 53) (-1074)) in *.
  destruct Hres as [[Hz _]|(m2 & e2 & He2 & _ & _ & ->)].
  - exfalso.
    assert (Hq : Zpos m / 2 ^ (f - e) = 0).
    { pose proof (Z.div_pos (Zpos m) (2 ^ (f - e)) ltac:(lia)
                    ltac:(apply Z.pow_pos_nonneg; lia)).
      lia. }
    assert (Hpow : 0 < 2 ^ (f - e)) by (apply Z.pow_pos_nonneg; lia).
    apply Z.div_small_iff in Hq; [|lia].
    destruct Hq as [[_ Hq]|Hq]; [|lia].
    assert (Hlt : 2 ^ (d - 1) < 2 ^ (f - e)) by lia.
    apply Z.pow_lt_mono_r_iff in Hlt; lia.
  - destruct (e2 <=? emax - prec); [|done].
    apply SFleb_finite_pos. lia.
Qed.

Lemma SFltb_finite_pos (m1 : positive) (e1 : Z) (m2 : positive) (e2 : Z) :
  SFltb (S754_finite false m1 e1) (S754_finite false m2 e2) = true
  ↔ e1 < e2 ∨ (e1 = e2 ∧ (m1 < m2)%positive).
Proof.
  unfold SFltb, SFcompare. rewrite Pos.compare_cont_spec. cbn [Pos.switch_Eq].
  destruct (Z.compare_spec e1 e2) as [->|Hlt|Hgt].
  - destruct (Pos.compare_spec m1 m2) as [->|Hlt|Hgt]; split; try done; lia.
  - split; [by left|done].
  - split; [done|lia].
Qed.


(** The product of two positive floats against a float below. *)
Lemma SFmul_ge (mx : positive) (ex : Z) (mk : positive) (ek : Z)
  (mb : positive) (eb : Z) :
  canonical_mantissa prec emax mx ex = true →
  canonical_mantissa prec emax mk ek = true →
  canonical_mantissa prec emax mb eb = true →
  (ex + ek <= eb → Zpos mb * 2 ^ (eb - (ex + ek)) <= Zpos mx * Zpos mk) →
  SFleb (S754_finite false mb eb)
    (SFmul prec emax (S754_finite false mx ex) (S754_finite false mk ek)) = true.
Proof.
  intros Hx Hk Hb Hle. cbn [SFmul xorb].
  apply round_ge_float_any; [done|by apply SFmul_shift|].
  by rewrite Pos2Z.inj_mul.
Qed.

(** A float that is at least a positive finite one is positive, and finite
    or infinite. *)
Lemma SF_above (m1 : positive) (e1 : Z) (x : spec_float) :
  SFleb (S754_finite false m1 e1) x = true →
  x = S754_infinity false ∨ ∃ m e, x = S754_finite false m e.
Proof.
  destruct x as [[]|[]| |[] m e]; try done; [by left|right; by exists m, e].
Qed.

(** One minus a float that is at least [2^-52] is at most [1 - 2^-52]. *)
Lemma SFsub_one_below (mp : positive) (ep : Z) :
  canonical_mantissa prec emax mp ep = true →
  SFleb (S754_finite false (2 ^ 52) (-104)) (S754_finite false mp ep) = true →
  SFleb (SFsub prec emax (S754_finite false (2 ^ 52) (-52))
           (S754_finite false mp ep))
    (S754_finite false 9007199254740990 (-53)) = true.
Proof.
  intros Hp Hle. apply SFleb_finite_pos in Hle.
  destruct (canonical_digits _ _ Hp) as (Hep & Hmphi & Hmplo).
  cbn [SFsub cond_Zopp].
  destruct (shl_align_spec (2 ^ 52) (-52) (Z.min (-52) ep) ltac:(lia))
    as (m1' & -> & Hm1').
  destruct (shl_align_spec mp ep (Z.min (-52) ep) ltac:(lia)) as (mp' & -> & Hmp').
  cbn [fst].
  destruct (Zpos m1' - Zpos mp') as [|s|s] eqn:Hs; cbn [binary_normalize].
  - done.
  - assert (Hmp52 : 2 ^ 52 <= Zpos mp).
    { destruct Hle as [Hlt|[<- Hm]]; [apply Hmplo; lia|].
      change (2 ^ 52) with (Zpos (2 ^ 52)). lia. }
    assert (Hep' : ep <= -53).
    { destruct (Z.le_gt_cases ep (-53)) as [|Hgt]; [done|exfalso].
      rewrite Z.min_l in Hm1', Hmp' by lia.
      change (-52 - -52) with 0 in Hm1'. rewrite Z.mul_1_r in Hm1'.
      assert (1 <= 2 ^ (ep - -52)) by (apply (Z.pow_le_mono_r 2 0); lia).
      change (Zpos (2 ^ 52)) with (2 ^ 52) in Hm1'. nia. }
    rewrite Z.min_r in * by lia.
    apply binary_round_le_float; [done|done|done|].
    replace (ep - ep) with 0 in Hmp' by lia. rewrite Z.mul_1_r in Hmp'.
    replace (-52 - ep) with (1 + (-53 - ep)) in Hm1' by lia.
    rewrite Z.pow_add_r in Hm1' by lia.
    set (t := 2 ^ (-53 - ep)) in *.
    assert (Ht : 1 <= t) by (apply (Z.pow_le_mono_r 2 0); lia).
    assert (Hmpt : 2 * t <= Zpos mp).
    { destruct Hle as [Hlt|[<- Hm]].
      - assert (t <= 2 ^ 51) by (apply Z.pow_le_mono_r; lia). lia.
      - subst t. change (2 * 2 ^ (-53 - -104)) with (2 ^ 52). lia. }
    change (Zpos (2 ^ 52)) with (2 ^ 52) in Hm1'.
    change (2 ^ 1) with 2 in Hm1'. lia.
  - by apply binary_round_neg_le.
Qed.


(** Below a normal float [mx * 2^ex] lies the float [(mx - 1) * 2^ex], or
    [(2^53 - 1) * 2^(ex - 1)] when [mx] is the least mantissa; it is at
    least [1 - 2^-52] times the float. *)
Lemma float_below (mx : positive) (ex : Z) :
  canonical_mantissa prec emax mx ex = true →
  2 ^ 52 <= Zpos mx →
  ∃ (mp : positive) (ep : Z),
    canonical_mantissa prec emax mp ep = true
    ∧ SFltb (S754_finite false mp ep) (S754_finite false mx ex) = true
    ∧ ex - 1 <= ep <= ex
    ∧ Zpos mx * 9007199254740990 <= Zpos mp * 2 ^ (53 + (ep - ex)).
Proof.
  intros Hx Hnorm. destruct (canonical_digits _ _ Hx) as (Hex & Hhi & _).
  apply canonical_spec in Hx.
  assert (Hd : Zdigits2 (Zpos mx) = 53) by (apply Zdigits2_unique; lia).
  destruct (decide (Zpos mx = 2 ^ 52 ∧ -1074 < ex)) as [[Hm He]|Hcase].
  - exists 9007199254740991%positive, (ex - 1). split; [|split; [|split]].
    + apply canonical_spec.
      rewrite (Zdigits2_unique 9007199254740991 53) by lia. lia.
    + apply SFltb_finite_pos. lia.
    + lia.
    + replace (53 + (ex - 1 - ex)) with 52 by lia. rewrite Hm. lia.
  - assert (Hpred : Zpos (Pos.pred mx) = Zpos mx - 1)
      by (rewrite Pos2Z.inj_pred; lia).
    exists (Pos.pred mx), ex. split; [|split; [|split]].
    + apply canonical_spec. rewrite Hpred.
      destruct (Z.eq_dec (Zpos mx) (2 ^ 52)) as [Hm|Hm].
      * rewrite (Zdigits2_unique (Zpos mx - 1) 52) by lia. lia.
      * rewrite (Zdigits2_unique (Zpos mx - 1) 53) by lia. lia.
    + apply SFltb_finite_pos. lia.
    + lia.
    + replace (53 + (ex - ex)) with 53 by lia. rewrite Hpred. lia.
Qed.

(** Multiplying a normal float by a float that is at most [1 - 2^-52] gives
    less. *)
Lemma SFmul_lt (mx : positive) (ex : Z) (k : spec_float) :
  valid_binary (S754_finite false mx ex) = true →
  2 ^ 52 <= Zpos mx →
  valid_binary k = true →
  SFleb k (S754_finite false 9007199254740990 (-53)) = true →
  SFltb (SFmul prec emax (S754_finite false mx ex) k) (S754_finite false mx ex)
  = true.
Proof.
  intros Hx Hnorm Hk Hle. apply valid_finite in Hx as [Hx Hbound].
  destruct k as [s|s| |s mk ek].
  - by destruct s.
  - by destruct s.
  - done.
  - apply valid_finite in Hk as [Hk _].
    pose proof (SFmul_shift mx ex mk ek Hx Hk) as Hshift.
    cbn [SFmul]. destruct s; cbn [xorb].
    + destruct (binary_round_aux_sign true (mx * mk) (ex + ek) Hshift)
        as [->|[->|(m2 & e2 & ->)]]; done.
    + apply SFleb_finite_pos in Hle.
      assert (Hle' : ek < -53 ∨ ek = -53 ∧ Zpos mk <= 9007199254740990).
      { destruct Hle as [?|[? Hm]]; [by left|right].
        split; [done|]. exact Hm. }
      clear Hle.
      destruct (canonical_digits _ _ Hk) as (Hek & Hmkhi & _).
      destruct (float_below mx ex Hx Hnorm) as (mp & ep & Hpc & Hplt & Hpe & Hpm).
      assert (Hr : SFleb (binary_round_aux prec emax false
                            (Zpos (mx * mk)) (ex + ek) loc_Exact)
                     (S754_finite false mp ep) = true).
      { apply round_le_float; [done|by apply Z.le_trans with ex; [apply Hpe|]|lia|done|].
        rewrite Pos2Z.inj_mul.
        set (d := -53 - ek).
        assert (Hd : 0 <= d) by lia.
        replace (ep - (ex + ek)) with (53 + (ep - ex) + d) by lia.
        rewrite Z.pow_add_r by lia.
        assert (Hmk : Zpos mk <= 9007199254740990 * 2 ^ d).
        { destruct Hle' as [Hlt|[-> Hm]].
          - assert (2 ^ 1 <= 2 ^ d) by (apply Z.pow_le_mono_r; lia). lia.
          - subst d. change (2 ^ (-53 - -53)) with 1. lia. }
        assert (0 < 2 ^ d) by (apply Z.pow_pos_nonneg; lia).
        transitivity (Zpos mx * (9007199254740990 * 2 ^ d)).
        - apply Z.mul_le_mono_nonneg_l; lia.
        - rewrite !Z.mul_assoc. apply Z.mul_le_mono_nonneg_r; lia. }
      destruct (binary_round_aux prec emax false (Zpos (mx * mk)) (ex + ek)
                  loc_Exact) as [[]|[]| |[] m2 e2]; try done.
      apply SFleb_finite_pos in Hr. apply SFltb_finite_pos in Hplt.
      apply SFltb_finite_pos. lia.
Qed.

End Binary64_rounding.

(** ** The popularity penalty at popularity 100 *)

Section Binary64_penalty.
Local Open Scope float_scope.
#[local] Set Warnings "-inexact-float".

(** The product of a float that is not negative by a positive finite float
    is not negative. *)
Lemma SFmul_nonneg (x : spec_float) (my : positive) (ey : Z) :
  valid_binary x = true →
  canonical_mantissa prec emax my ey = true →
  match x with
  | S754_zero false | S754_infinity false | S754_finite false _ _ => True
  | _ => False
  end →
  match SFmul prec emax x (S754_finite false my ey) with
  | S754_zero false | S754_infinity false | S754_finite false _ _ => True
  | _ => False
  end.
Proof.
  intros Hv Hy Hx. destruct x as [[]|[]| |[] mx ex]; try done.
  apply valid_finite in Hv as [Hcx _].
  pose proof (SFmul_shift mx ex my ey Hcx Hy) as Hshift. cbn [SFmul xorb].
  by destruct (binary_round_aux_sign false (mx * my) (ex + ey) Hshift)
    as [->|[->|(m2 & e2 & ->)]].
Qed.

(** One minus a float that is not negative is at most one. *)
Lemma SFsub_one_le (p : spec_float) :
  match p with
  | S754_zero false | S754_infinity false | S754_finite false _ _ => True
  | _ => False
  end →
  SFleb (SFsub prec emax (Prim2SF 1) p) (Prim2SF 1) = true.
Proof.
  change (Prim2SF 1) with (S754_finite false (2 ^ 52) (-52)).
  intros Hp. destruct p as [[]|[]| |[] mp ep]; try done.
  by apply SFsub_le.
Qed.

Lemma f64_positive (x : float) :
  (0 <? x) = true →
  match Prim2SF x with
  | S754_infinity false | S754_finite false _ _ => True
  | _ => False
  end.
Proof.
  rewrite ltb_spec. change (Prim2SF 0) with (S754_zero false).
  by destruct (Prim2SF x) as [[]|[]| |[] m e].
Qed.

Lemma f64_positive_finite (x : float) :
  (0 <? x) = true → (x <? infinity) = true →
  ∃ m e, Prim2SF x = S754_finite false m e.
Proof.
  rewrite !ltb_spec. change (Prim2SF 0) with (S754_zero false).
  change (Prim2SF infinity) with (S754_infinity false).
  destruct (Prim2SF x) as [[]|[]| |[] m e]; try done. intros _ _. by exists m, e.
Qed.

(** A positive finite score times one minus a penalty [strength * c * d],
    for a positive strength and positive finite [c] and [d], is at most the
    score. *)
Lemma f64_penalised_below (strength c d base : float) (mc : positive) (ec : Z)
  (md : positive) (ed : Z) :
  Prim2SF c = S754_finite false mc ec →
  Prim2SF d = S754_finite false md ed →
  (0 <? strength) = true →
  (0 <? base) = true → (base <? infinity) = true →
  (base * (1 - strength * c * d) <=? base) = true.
Proof.
  intros Hc Hd Hs Hb Hfin.
  destruct (f64_positive_finite base Hb Hfin) as (m & e & Hbase).
  apply (f64_mul_below base _ m e Hbase).
  rewrite leb_spec, sub_spec. apply SFsub_one_le.
  pose proof (Prim2SF_valid c) as Hvc. pose proof (Prim2SF_valid d) as Hvd.
  rewrite Hc in Hvc. rewrite Hd in Hvd.
  apply valid_finite in Hvc as [Hcc _]. apply valid_finite in Hvd as [Hcd _].
  rewrite mul_spec, Hd. apply SFmul_nonneg; [apply Prim2SF_valid|done|].
  rewrite mul_spec, Hc. apply SFmul_nonneg; [apply Prim2SF_valid|done|].
  pose proof (f64_positive strength Hs) as Hstrength.
  by destruct (Prim2SF strength) as [[]|[]| |[] ? ?].
Qed.

(** The penalty of a strength of at least [2^-50] is at least [2^-52]. *)
Lemma f64_penalty_ge (strength : float) :
  (0x1p-50 <=? strength) = true →
  (0x1p-52 <=? strength * (1 - 0.8) * 5) = true.
Proof.
  rewrite !leb_spec, !mul_spec. intros Hs.
  pose proof (Prim2SF_valid strength) as Hvs.
  pose proof (Prim2SF_valid (strength * (1 - 0.8))) as Hv1.
  rewrite mul_spec in Hv1. unfold SF64mul in *.
  change (Prim2SF 0x1p-50) with (S754_finite false (2 ^ 52) (-102)) in *.
  change (Prim2SF 0x1p-52) with (S754_finite false (2 ^ 52) (-104)).
  change (Prim2SF (1 - 0.8)) with (S754_finite false 7205759403792792 (-55)) in *.
  change (Prim2SF 5) with (S754_finite false 5629499534213120 (-50)).
  destruct (SF_above _ _ _ Hs) as [Hinf|(ms & es & Hfin)].
  { by rewrite Hinf. }
  rewrite Hfin in *. apply valid_finite in Hvs as [Hcs _].
  apply SFleb_finite_pos in Hs.
  destruct (canonical_digits _ _ Hcs) as (_ & _ & Hnorm).
  assert (Hms : (2 ^ 52 <= Zpos ms)%Z).
  { destruct Hs as [Hlt|[_ Hm]]; [apply Hnorm; lia|exact Hm]. }
  assert (Hes : (-102 <= es)%Z) by lia.
  clear Hs Hnorm.
  assert (H1 : SFleb (S754_finite false 7205759403792792 (-105))
                 (SFmul prec emax (S754_finite false ms es)
                    (S754_finite false 7205759403792792 (-55))) = true).
  { apply SFmul_ge; [done|by vm_compute|by vm_compute|]. intros He.
    rewrite (Z.mul_comm (Zpos ms)). apply Z.mul_le_mono_nonneg_l; [done|].
    apply Z.le_trans with (2 ^ 52)%Z; [|done].
    apply Z.pow_le_mono_r; lia. }
  destruct (SF_above _ _ _ H1) as [Hinf|(m1 & e1 & Hfin1)].
  { by rewrite Hinf. }
  rewrite Hfin1 in *. apply valid_finite in Hv1 as [Hc1 _].
  apply SFleb_finite_pos in H1.
  destruct (canonical_digits _ _ Hc1) as (_ & _ & Hnorm).
  assert (Hm1 : (2 ^ 52 <= Zpos m1)%Z) by (apply Hnorm; lia).
  assert (He1 : (-105 <= e1)%Z) by lia.
  clear H1 Hnorm.
  apply SFmul_ge; [done|by vm_compute|by vm_compute|]. intros He.
  apply Z.le_trans with (2 ^ 52 * 2 ^ 51)%Z.
  - apply Z.mul_le_mono_nonneg_l; [done|]. apply Z.pow_le_mono_r; lia.
  - apply Z.le_trans with (2 ^ 52 * 5629499534213120)%Z; [done|].
    apply Z.mul_le_mono_nonneg_r; [done|]. exact Hm1.
Qed.

(** One minus a float that is at least [2^-52] is at most [1 - 2^-52]. *)
Lemma f64_one_minus_below (p : float) :
  (0x1p-52 <=? p) = true → (1 - p <=? 0x1.ffffffffffffep-1) = true.
Proof.
  rewrite !leb_spec, sub_spec. unfold SF64sub. intros Hp.
  pose proof (Prim2SF_valid p) as Hvp.
  change (Prim2SF 0x1p-52) with (S754_finite false (2 ^ 52) (-104)) in *.
  change (Prim2SF 1) with (S754_finite false (2 ^ 52) (-52)).
  change (Prim2SF 0x1.ffffffffffffep-1)
    with (S754_finite false 9007199254740990 (-53)).
  destruct (SF_above _ _ _ Hp) as [Hinf|(mp & ep & Hfin)].
  { by rewrite Hinf. }
  rewrite Hfin in *. apply valid_finite in Hvp as [Hcp _].
  by apply SFsub_one_below.
Qed.

(** A normal float times a float that is at most [1 - 2^-52] is less. *)
Lemma f64_mul_strictly_below (x k : float) :
  (0x1p-1022 <=? x) = true → (x <? infinity) = true →
  (k <=? 0x1.ffffffffffffep-1) = true →
  (x * k <? x) = true.
Proof.
  rewrite !leb_spec, !ltb_spec, mul_spec. unfold SF64mul. intros Hx Hfin Hk.
  pose proof (Prim2SF_valid x) as Hvx. pose proof (Prim2SF_valid k) as Hvk.
  change (Prim2SF 0x1p-1022) with (S754_finite false (2 ^ 52) (-1074)) in *.
  change (Prim2SF infinity) with (S754_infinity false) in *.
  change (Prim2SF 0x1.ffffffffffffep-1)
    with (S754_finite false 9007199254740990 (-53)) in *.
  destruct (SF_above _ _ _ Hx) as [Hinf|(mx & ex & Hx')].
  { by rewrite Hinf in Hfin. }
  rewrite Hx' in *. apply SFleb_finite_pos in Hx.
  pose proof Hvx as Hvx'. apply valid_finite in Hvx' as [Hcx _].
  destruct (canonical_digits _ _ Hcx) as (_ & _ & Hnorm).
  apply SFmul_lt; [done| |done|done].
  destruct Hx as [Hlt|[_ Hm]]; [apply Hnorm; lia|exact Hm].
Qed.

(** A normal score times one minus the penalty of a strength of at least
    [2^-50] is less than the score. *)
Lemma f64_penalised_strictly (strength base : float) :
  (0x1p-50 <=? strength) = true →
  (0x1p-1022 <=? base) = true → (base <? infinity) = true →
  (base * (1 - strength * (1 - 0.8) * 5) <? base) = true.
Proof.
  intros Hs Hb Hfin. apply f64_mul_strictly_below; [done|done|].
  by apply f64_one_minus_below, f64_penalty_ge.
Qed.

Lemma f64_get_set_eq (t : Binary64.Track) (k : string) (v : float) :
  Binary64.f_num (Binary64.set t k v) !! k = Some v.
Proof. apply lookup_insert_eq. Qed.

Lemma f64_get_set_ne (t : Binary64.Track) (k k' : string) (v : float) :
  k ≠ k' →
  Binary64.f_num (Binary64.set t k v) !! k' = Binary64.f_num t !! k'.
Proof. intros Hne. by apply lookup_insert_ne. Qed.

(** C9, as the code has it.  For a track of popularity 100,
    [apply_popularity_penalty] takes the third tier: the penalty is
    [strength * (p - 0.8) * 5] with [p = 1], computed in binary64, and the
    adjusted score is [base_score * (1 - penalty)].  For a strength [> 0]
    and a positive finite base score the adjusted score is at most the base
    score; it is less than the base score when the strength is at least
    [2^-50] and the base score is a normal float, at least [2^-1022]. *)
Theorem popularity_100_is_penalised (strength : float)
  (tracks : list Binary64.Track) :
  Forall2 (λ t t',
             Binary64.f_num t !! "popularity" = Some 100 →
             let base := default 0 (Binary64.f_num t !! "recommendation_score") in
             let penalty := strength * (1 - 0.8) * 5 in
             100 / 100 = 1
             ∧ (0.8 <? 1) = true
             ∧ Binary64.f_num t' !! "popularity_penalty" = Some penalty
             ∧ Binary64.f_num t' !! "popularity_adjusted_score"
               = Some (base * (1 - penalty))
             ∧ ((0 <? strength) = true →
                (0 <? base) = true → (base <? infinity) = true →
                (base * (1 - penalty) <=? base) = true)
             ∧ ((0x1p-50 <=? strength) = true →
                (0x1p-1022 <=? base) = true → (base <? infinity) = true →
                (base * (1 - penalty) <? base) = true))
    tracks (Binary64.apply_popularity_penalty strength tracks).
Proof.
  unfold Binary64.apply_popularity_penalty.
  induction tracks as [|t tracks IH]; simpl; constructor; [|done].
  intros Hp. cbn zeta. split; [reflexivity|]. split; [reflexivity|].
  assert (Hpen : Binary64.popularity_penalty strength t
                 = strength * (1 - 0.8) * 5).
  { unfold Binary64.popularity_penalty, Binary64.get. rewrite Hp. reflexivity. }
  unfold Binary64.penalise. rewrite Hpen. split; [|split; [|split]].
  - rewrite f64_get_set_ne by done. apply f64_get_set_eq.
  - apply f64_get_set_eq.
  - apply (f64_penalised_below strength (1 - 0.8) 5 _ _ _ _ _ eq_refl eq_refl).
  - apply f64_penalised_strictly.
Qed.

Lemma popularity_100_is_penalised_witness :
  Forall2 (λ t t',
             Binary64.f_num t !! "popularity" = Some 100 →
             let base := default 0 (Binary64.f_num t !! "recommendation_score") in
             let penalty := 0.3 * (1 - 0.8) * 5 in
             100 / 100 = 1
             ∧ (0.8 <? 1) = true
             ∧ Binary64.f_num t' !! "popularity_penalty" = Some penalty
             ∧ Binary64.f_num t' !! "popularity_adjusted_score"
               = Some (base * (1 - penalty))
             ∧ ((0 <? 0.3) = true →
                (0 <? base) = true → (base <? infinity) = true →
                (base * (1 - penalty) <=? base) = true)
             ∧ ((0x1p-50 <=? 0.3) = true →
                (0x1p-1022 <=? base) = true → (base <? infinity) = true →
                (base * (1 - penalty) <? base) = true))
    [Binary64.track "h" 100 0.9]
    (Binary64.apply_popularity_penalty 0.3 [Binary64.track "h" 100 0.9]).
Proof. apply (popularity_100_is_penalised 0.3 [Binary64.track "h" 100 0.9]). Defined.

(** C9 as stated fails in two ways.  The penalty of the strength 0.3 is
    0.29999999999999993, not 0.3.  And the adjusted score is not always less
    than the base score: a base score of 0, which is also what a track
    without [recommendation_score] gets, stays 0; the strength 1e-17 leaves
    a base score of 1 at 1, as [1 - penalty] rounds to 1; and the strength
    0.3 leaves the least positive float, [2^-1074], where it is. *)
Lemma popularity_penalty_is_not_strict :
  Binary64.f_num (Binary64.penalise 0.3 (Binary64.track "h" 100 0.9))
    !! "popularity_penalty" = Some 0.29999999999999993
  ∧ (0.29999999999999993 =? 0.3) = false
  ∧ Binary64.f_num (Binary64.penalise 0.3 (Binary64.track "u" 100 0))
      !! "popularity_adjusted_score" = Some 0
  ∧ (0 <? 0) = false
  ∧ (0 <? 1e-17) = true
  ∧ Binary64.f_num (Binary64.penalise 1e-17 (Binary64.track "v" 100 1))
      !! "popularity_adjusted_score" = Some 1
  ∧ (1 <? 1) = false
  ∧ (0 <? 0x1p-1074) = true
  ∧ Binary64.f_num (Binary64.penalise 0.3 (Binary64.track "w" 100 0x1p-1074))
      !! "popularity_adjusted_score" = Some 0x1p-1074
  ∧ (0x1p-1074 <? 0x1p-1074) = false.
Proof. repeat split; by vm_compute. Qed.

End Binary64_penalty.

(** ** The popularity penalty over the rationals *)


(** ** The adaptive exploration rate *)



(** The ratings the update averages are those of the flagged events. *)
Lemma exploration_satisfaction_flagged (user_feedback : list Feedback) :
  exploration_satisfaction user_feedback
  = map (λ f, default 0.5 (fb_rating f)) (flagged user_feedback).
Proof.
  unfold exploration_satisfaction, flagged.
  induction user_feedback as [|f l IH]; simpl; [done|].
  destruct (fb_is_exploration f) as [[]|]; simpl; [f_equal|..]; exact IH.
Qed.

Lemma exploration_satisfaction_nil (user_feedback : list Feedback) :
  exploration_satisfaction user_feedback = [] ↔ flagged user_feedback = [].
Proof.
  rewrite exploration_satisfaction_flagged.
  by destruct (flagged user_feedback).
Qed.

(** The update as one case analysis on the mean of the flagged ratings. *)
Lemma update_exploration_rate_cases (self : ExplorationExploitationModel)
  (user_feedback : list Feedback) :
  update_exploration_rate self user_feedback
  = if decide (flagged user_feedback = []) then self
    else if Qltb 0.7 (exploration_mean user_feedback) then
      with_rate self (py_min 0.5 (exploration_rate self + 0.05))
    else if Qltb (exploration_mean user_feedback) 0.3 then
      with_rate self (py_max 0.1 (exploration_rate self - 0.05))
    else self.
Proof.
  unfold update_exploration_rate, exploration_mean.
  rewrite <- exploration_satisfaction_flagged.
  destruct user_feedback as [|f l]; [done|].
  destruct (decide _) as [Hnil|Hne].
  - apply exploration_satisfaction_nil in Hnil. by rewrite Hnil.
  - rewrite <- exploration_satisfaction_nil in Hne.
    by destruct (exploration_satisfaction (f :: l)).
Qed.


Lemma flagged_idemp (user_feedback : list Feedback) :
  flagged (flagged user_feedback) = flagged user_feedback.
Proof.
  unfold flagged. induction user_feedback as [|f l IH]; simpl; [done|].
  destruct (bool_decide _) eqn:Hf; simpl; [|done]. by rewrite Hf, IH.
Qed.

Lemma flagged_none (user_feedback : list Feedback) :
  Forall (λ f, fb_is_exploration f ≠ Some true) user_feedback →
  flagged user_feedback = [].
Proof.
  unfold flagged. induction 1 as [|f l Hf _ IH]; simpl; [done|].
  by rewrite bool_decide_eq_false_2.
Qed.

(** ** The adaptive exploration rate in binary64 *)

Section Binary64_rate.
Local Open Scope float_scope.
#[local] Set Warnings "-inexact-float".







(** The mean of the ratings 0.3, 0.9 and 0.9 is 0.7000000000000001 in
    binary64, above the threshold: such a batch raises the rate. *)
Lemma exploration_mean_above_threshold :
  Binary64.sequential_mean [0.3; 0.9; 0.9] = 0.70000000000000007
  ∧ Binary64.exploration_rate
      (Binary64.update_exploration_rate Binary64.sequential_mean
         Binary64.fresh_selector
         [Binary64.exploration_event 0.3; Binary64.exploration_event 0.9;
          Binary64.exploration_event 0.9]) = 0.35.
Proof. split; by vm_compute. Qed.

End Binary64_rate.

(** C10.  Only the events flagged [is_exploration = true] count: a call
    gives what it gives on the flagged events alone, and a non-empty batch
    without any flagged event leaves the selector, its rate and its history,
    as it was, like an empty batch. *)
Theorem unflagged_feedback_is_ignored (self : ExplorationExploitationModel)
  (user_feedback : list Feedback) :
  user_feedback ≠ [] →
  Forall (λ f, fb_is_exploration f ≠ Some true) user_feedback →
  update_exploration_rate self user_feedback = self
  ∧ update_exploration_rate self user_feedback = update_exploration_rate self []
  ∧ ∀ batch, update_exploration_rate self batch
             = update_exploration_rate self (flagged batch).
Proof.
  intros _ Hnone. split_and!.
  - rewrite update_exploration_rate_cases, flagged_none by done. done.
  - rewrite update_exploration_rate_cases, flagged_none by done. done.
  - intros batch. rewrite !update_exploration_rate_cases.
    unfold exploration_mean. by rewrite flagged_idemp.
Qed.

Lemma unflagged_feedback_is_ignored_witness :
  update_exploration_rate fresh_selector [plain_feedback; plain_feedback]
  = fresh_selector.
Proof.
  apply (unflagged_feedback_is_ignored fresh_selector [plain_feedback; plain_feedback]).
  - discriminate.
  - repeat constructor; discriminate.
Defined.

(** ** The satisfaction summary *)

(** The mean of a list of ones is 1, whatever its length. *)
Lemma mean_ones {A : Type} (l : list A) :
  l ≠ [] → mean (map (λ _, 1) l) == 1.
Proof.
  intros Hne. unfold mean. rewrite length_map.
  assert (Hsum : Qsum (map (λ _, 1) l) == inject_Z (Z.of_nat (length l))).
  { clear Hne. induction l as [|x l IH]; [reflexivity|].
    cbn [map Qsum foldr length]. fold (Qsum (map (λ _ : A, 1) l)).
    rewrite IH, Nat2Z.inj_succ, <- Z.add_1_l, inject_Z_plus. reflexivity. }
  rewrite Hsum. field.
  destruct l as [|x l]; [done|]. intros Hz.
  assert (Hpos : 0 < inject_Z (Z.of_nat (length (x :: l)))).
  { unfold Qlt; simpl. lia. }
  rewrite Hz in Hpos. by apply Qlt_irrefl in Hpos.
Qed.

(** The rates of the summary take two values only: [nan] when no rating
    passes the threshold, 1 otherwise. *)
Lemma feedback_rate_nan_or_1 (p : Q → bool) (ratings : list Q) :
  let rate := np_mean (map (λ _, 1) (List.filter p ratings)) in
  (List.filter p ratings = [] ∧ rate = NaN)
  ∨ (List.filter p ratings ≠ [] ∧ ∃ q, rate = Fin q ∧ q == 1).
Proof.
  cbn zeta. destruct (List.filter p ratings) as [|r l] eqn:Hf; [by left|].
  right. split; [done|]. eexists. split; [done|].
  by apply (mean_ones (r :: l)).
Qed.

(** C7.  The summary does not report fractions.  On a window of two ratings,
    0.9 and 0.5, half of the ratings exceed 0.7 and none is below 0.3, but
    [positive_feedback_rate] is 1 and [negative_feedback_rate] is [nan]: the
    source averages a list that holds a 1 for each rating past the threshold
    and nothing for the others. *)
Theorem feedback_rates_are_not_fractions :
  ∃ summary,
    get_satisfaction_summary 0 two_ratings "all" = Some summary
    ∧ (∃ q, positive_feedback_rate summary = Fin q ∧ q == 1)
    ∧ fraction (Qltb 0.7) (map rating two_ratings) == 0.5
    ∧ negative_feedback_rate summary = NaN
    ∧ fraction (λ r, Qltb r 0.3) (map rating two_ratings) == 0.
Proof.
  eexists. split; [reflexivity|]. split_and!.
  - eexists. split; [reflexivity|]. reflexivity.
  - reflexivity.
  - reflexivity.
  - reflexivity.
Qed.

(** ** Empty candidate lists *)

Lemma apply_representation_quota_nil (quota_percentages : list (string * Q)) :
  apply_representation_quota [] quota_percentages = [].
Proof.
  unfold apply_representation_quota.
  induction quota_percentages as [|[category percentage] quota IH] using rev_ind;
    [done|].
  rewrite foldl_app. cbn [foldl]. rewrite IH.
  destruct (categorize [] !! category) as [l|] eqn:Hc; simpl.
  - assert (l = []) as ->.
    { unfold categorize in Hc. simpl in Hc.
      repeat (apply lookup_insert_Some in Hc as [[_ <-]|[_ Hc]]; [done|]).
      by rewrite lookup_empty in Hc. }
    apply py_slice_to_nil.
  - apply py_slice_to_nil.
Qed.

(** C8.  On an empty candidate list every stage returns the empty list: the
    three popularity stages, the three diversity stages, the two novelty
    stages, the fairness allocator for every target size, the quota variant
    and the full pipeline.  None raises to its caller; the allocator's body
    does raise, on the division by the number of artists, and its handler
    returns the empty prefix of the input. *)
Theorem empty_input_gives_empty_output
  (float_pow : Q → Q → option Q) (parse_int : string → option Z)
  (self : DebiasingPipeline) (alpha_ strength weight : Q)
  (history : list string) (history' : option (list string))
  (quota_percentages : list (string * Q)) (fuel : nat) (M : Z) :
  apply_popularity_normalization float_pow alpha_ [] = []
  ∧ apply_popularity_penalty strength [] = []
  ∧ apply_popularity_aware_ranking [] = []
  ∧ apply_diversity_boost weight [] = []
  ∧ apply_genre_diversity [] = []
  ∧ apply_temporal_diversity parse_int [] = []
  ∧ apply_novelty_boost weight history [] = []
  ∧ apply_artist_novelty [] = []
  ∧ fairness_body fuel [] M = Some (Raise ZeroDivisionError)
  ∧ apply_fairness_constraints fuel [] M = Some []
  ∧ apply_representation_quota [] quota_percentages = []
  ∧ (apply_full_debiasing float_pow parse_int self [] history').2 = [].
Proof.
  split_and!; try reflexivity.
  - unfold apply_fairness_constraints. simpl. f_equal. apply py_slice_to_nil.
  - apply apply_representation_quota_nil.
Qed.

(** ** Selecting recommendations *)

Lemma py_slice_to_take {A : Type} (l : list A) (k : Z) :
  (0 <= k)%Z → py_slice_to l k = take (Z.to_nat k) l.
Proof.
  intros Hk. unfold py_slice_to.
  by rewrite (proj2 (Z.ltb_ge _ _) Hk).
Qed.

(** [int] is the floor on a float that is not negative. *)
Lemma py_int_floor (x : Q) : 0 <= x → py_int x = Qfloor x.
Proof. intros Hx. unfold py_int. apply Qltb_ge in Hx. by rewrite Hx. Qed.

(** ** Selecting recommendations in binary64 *)

Section Binary64_selection.
#[local] Set Warnings "-inexact-float".











(** For [N = 100] and the rate 0.29 the binary64 product is below 29, and 28
    slots go to exploration. *)
Lemma exploration_slots_follow_binary64 :
  (n ← Binary64.of_int 100; Binary64.py_int (n * 0.29)%float) = Some 28%Z.
Proof. by vm_compute. Qed.

End Binary64_selection.

(** * Further properties of the code *)

(** ** Groups and the tracks they hold *)

Lemma concat_group_insert (a : string) (t : Track) (groups : Groups) :
  concat (map snd (group_insert a t groups)) ≡ₚ t :: concat (map snd groups).
Proof.
  induction groups as [|[b g] groups IH]; simpl; [done|].
  destruct (decide (a = b)) as [->|Hne]; simpl.
  - rewrite <- app_assoc. simpl. by rewrite <- Permutation_middle.
  - rewrite IH. by rewrite <- Permutation_middle.
Qed.

Lemma concat_group_tracks (tracks : list Track) (acc groups : Groups) :
  group_tracks "unknown" tracks acc = Ret groups →
  concat (map snd groups) ≡ₚ concat (map snd acc) ++ tracks.
Proof.
  revert acc. induction tracks as [|t tracks IH]; simpl; intros acc Hg.
  - injection Hg as <-. by rewrite app_nil_r.
  - destruct (primary_artist "unknown" t) as [a|e]; simpl in Hg; [|done].
    rewrite (IH _ Hg), concat_group_insert. by rewrite <- Permutation_middle.
Qed.

Lemma concat_sort_groups (groups : Groups) :
  concat (map snd (sort_groups groups)) ≡ₚ concat (map snd groups).
Proof.
  unfold sort_groups. induction groups as [|[a g] groups IH]; simpl; [done|].
  by rewrite IH, sort_desc_perm.
Qed.

(** The tracks of [a] in insertion order, or nothing for an unknown key. *)
Lemma lookup_group_tracks (a : string) (tracks : list Track) (acc groups : Groups) :
  group_tracks "unknown" tracks acc = Ret groups →
  match lookup_group a groups with Ret g => g | Raise _ => [] end
  = match lookup_group a acc with Ret g => g | Raise _ => [] end
    ++ List.filter (by_artist a) tracks.
Proof.
  revert acc. induction tracks as [|t tracks IH]; simpl; intros acc Hg.
  - injection Hg as <-. by rewrite app_nil_r.
  - destruct (primary_artist "unknown" t) as [b|e] eqn:Hb; simpl in Hg; [|done].
    rewrite (IH _ Hg), lookup_group_insert. unfold by_artist. rewrite Hb.
    destruct (decide (b = a)) as [->|Hne].
    + rewrite bool_decide_eq_true_2 by done.
      destruct (lookup_group a acc); simpl; by rewrite <- ?app_assoc.
    + by rewrite bool_decide_eq_false_2 by congruence.
Qed.

(** X1.  Grouping by primary artist loses nothing and keeps the order: the
    group of an artist is the list of the candidates of that artist, in the
    order of the input; the keys are distinct; and an artist without
    candidate has no group. *)
Theorem group_by_artist_partitions (tracks : list Track) (groups : Groups) :
  group_by_artist tracks = Ret groups →
  NoDup (map fst groups)
  ∧ (∀ a g, lookup_group a groups = Ret g →
            g ≠ [] ∧ g = List.filter (by_artist a) tracks)
  ∧ (∀ a, List.filter (by_artist a) tracks = [] →
          lookup_group a groups = Raise KeyError)
  ∧ concat (map snd groups) ≡ₚ tracks.
Proof.
  intros Hg. split_and!.
  - apply group_tracks_spec in Hg as (ids & _ & Hnd & _); [done|constructor|].
    by intros a g [=].
  - intros a g Hl. destruct (group_by_artist_spec _ _ Hg) as (ids & _ & _ & Hgs).
    split; [by apply (Hgs a)|].
    pose proof (lookup_group_tracks a _ _ _ Hg) as Hlk. by rewrite Hl in Hlk.
  - intros a Hnone. destruct (group_by_artist_spec _ _ Hg) as (ids & _ & _ & Hgs).
    pose proof (lookup_group_tracks a _ _ _ Hg) as Hlk. simpl in Hlk.
    destruct (lookup_group a groups) as [g|e] eqn:Hl.
    + destruct (Hgs _ _ Hl) as [Hne _]. congruence.
    + clear Hlk. destruct e; try done; exfalso.
      all: assert (Hk : ∀ gs, lookup_group a gs ≠ Raise IndexError
                              ∧ lookup_group a gs ≠ Raise ZeroDivisionError)
        by (induction gs as [|[b g] gs IHgs]; simpl; [done|];
            destruct (decide (a = b)); done).
      all: by destruct (Hk groups).
  - by rewrite (concat_group_tracks _ _ _ Hg).
Qed.

Lemma group_by_artist_partitions_witness :
  lookup_group "Y" [("X", [track_a]); ("Y", [track_b; track_c])]%string
  = Ret [track_b; track_c]
  ∧ concat (map snd [("X", [track_a]); ("Y", [track_b; track_c])]%string)
    ≡ₚ [track_a; track_b; track_c].
Proof.
  split; [reflexivity|].
  refine (proj2 (proj2 (proj2
    (group_by_artist_partitions [track_a; track_b; track_c]
       [("X", [track_a]); ("Y", [track_b; track_c])]%string _)))).
  reflexivity.
Defined.

(** ** What the fairness allocator selects *)

Lemma concat_update_group (a : string) (t : Track) (rest : list Track)
  (groups : Groups) :
  lookup_group a groups = Ret (t :: rest) →
  concat (map snd groups) ≡ₚ t :: concat (map snd (update_group a rest groups)).
Proof.
  induction groups as [|[b g] groups IH]; simpl; [done|].
  destruct (decide (a = b)) as [->|Hne]; simpl.
  - by intros [= ->].
  - intros Hl. rewrite (IH Hl). by rewrite <- Permutation_middle.
Qed.

(** No iteration creates or loses a track: the selection and the tracks left
    in the groups make up the same collection before and after. *)
Lemma allocate_step_conserves (cap : Z) (s s' : AllocState) :
  allocate_step cap s = Ret (Next s') →
  selected_tracks s' ++ concat (map snd (artist_tracks s'))
  ≡ₚ selected_tracks s ++ concat (map snd (artist_tracks s)).
Proof.
  unfold allocate_step. destruct (find_lowest _ _ _ _ _) as [a|]; [|done].
  destruct (lookup_group a (artist_tracks s)) as [[|t rest]|e] eqn:Hl; simpl;
    try done.
  - by intros [= <-].
  - intros [= <-]. simpl. rewrite (concat_update_group _ _ _ _ Hl).
    rewrite <- app_assoc. simpl. done.
Qed.

Lemma allocate_loop_conserves (M cap : Z) (fuel : nat) (s : AllocState)
  (result : list Track) :
  allocate_loop fuel M cap s = Some (Ret result) →
  ∃ s', result = selected_tracks s'
        ∧ selected_tracks s' ++ concat (map snd (artist_tracks s'))
          ≡ₚ selected_tracks s ++ concat (map snd (artist_tracks s)).
Proof.
  revert s. induction fuel as [|fuel IH]; intros s; simpl;
    destruct (_ <? _)%Z; try (intros [= <-]; by eauto).
  destruct (allocate_step cap s) as [[|s1]|e] eqn:Hstep; try done.
  - intros [= <-]. eauto.
  - intros Hloop. apply IH in Hloop as (s' & -> & Hperm).
    exists s'. split; [done|]. by rewrite Hperm, (allocate_step_conserves _ _ _ Hstep).
Qed.

(** X2.  Whatever [apply_fairness_constraints] returns, through its loop or
    through its handler, is made of candidates: the result is a
    sub-multiset of the input, so it holds no track that was not given, no
    track more often than the input does, and never more tracks than the
    input. *)
Theorem fairness_selects_among_candidates (fuel : nat) (tracks : list Track)
  (M : Z) (result : list Track) :
  apply_fairness_constraints fuel tracks M = Some result →
  result ⊆+ tracks.
Proof.
  unfold apply_fairness_constraints, fairness_body.
  assert (Hslice : py_slice_to tracks M ⊆+ tracks).
  { unfold py_slice_to. destruct (M <? 0)%Z; apply sublist_submseteq, sublist_take. }
  destruct (group_by_artist tracks) as [groups|e] eqn:Hg; [|by intros [= <-]].
  destruct (_ =? _)%Z; [by intros [= <-]|].
  destruct (allocate_loop _ _ _ _) as [[selected|e]|] eqn:Hloop;
    [|by intros [= <-]|done].
  intros [= <-]. apply allocate_loop_conserves in Hloop as (s' & -> & Hperm).
  simpl in Hperm. rewrite concat_sort_groups in Hperm.
  rewrite (concat_group_tracks _ _ _ Hg) in Hperm. simpl in Hperm.
  rewrite <- Hperm. apply submseteq_inserts_r. done.
Qed.

Lemma fairness_selects_among_candidates_witness :
  [track_a; track_b] ⊆+ [track_a; track_b; track_c].
Proof.
  apply (fairness_selects_among_candidates 5 [track_a; track_b; track_c] 2).
  by vm_compute.
Defined.

(** The state in which the loop stops: the target size is reached, or the
    scan finds no artist under the cap. *)
Lemma allocate_loop_exit (groups : Groups) (M cap : Z) (fuel : nat)
  (s : AllocState) (out : Exc (list Track)) :
  sorted_groups groups →
  alloc_inv groups cap s →
  allocate_loop fuel M cap s = Some out →
  ∃ s', out = Ret (selected_tracks s')
        ∧ alloc_inv groups cap s'
        ∧ ((M <= Z.of_nat (length (selected_tracks s')))%Z
           ∨ find_lowest (map fst (artist_tracks s')) (artist_counts s')
               cap None None = None).
Proof.
  intros Hsorted. revert s.
  induction fuel as [|fuel IH]; intros s Hinv; simpl;
    destruct (_ <? _)%Z eqn:Hguard;
    try (intros [= <-]; exists s; split_and!; [done..|left; lia]); [done|].
  destruct (allocate_step_inv groups cap s Hsorted Hinv)
    as [Hbreak|(s' & -> & Hinv' & _)].
  - rewrite Hbreak. intros [= <-]. exists s. split_and!; [done..|right].
    unfold allocate_step in Hbreak.
    destruct (find_lowest _ _ _ _ _) as [a|]; [|done].
    by destruct (lookup_group a (artist_tracks s)) as [[|t rest]|e].
  - by apply IH.
Qed.

Lemma fairness_result_state (fuel : nat) (tracks : list Track) (M : Z)
  (groups : Groups) (result : list Track) :
  group_by_artist tracks = Ret groups → groups ≠ [] →
  apply_fairness_constraints fuel tracks M = Some result →
  let cap := Z.max 1 (M / Z.of_nat (length groups)) in
  ∃ s, alloc_inv (sort_groups groups) cap s
       ∧ result = selected_tracks s
       ∧ ((M <= Z.of_nat (length result))%Z
          ∨ find_lowest (map fst groups) (artist_counts s) cap None None = None).
Proof.
  intros Hg Hne. unfold apply_fairness_constraints, fairness_body. rewrite Hg.
  destruct (_ =? _)%Z eqn:Hzero; [by destruct groups|].
  destruct (group_by_artist_spec _ _ Hg) as (ids & _ & _ & Hgs).
  destruct (allocate_loop _ _ _ _) as [out|] eqn:Hloop; [|done].
  apply (allocate_loop_exit (sort_groups groups)) in Hloop
    as (s' & -> & Hinv & Hexit).
  - intros [= <-]. exists s'. split_and!; [done..|].
    destruct Hinv as (Hkeys & _). by rewrite Hkeys, sort_groups_keys in Hexit.
  - by apply sort_groups_sorted.
  - apply alloc_inv_init. lia.
Qed.

Lemma group_by_artist_nil (tracks : list Track) :
  group_by_artist tracks = Ret [] → tracks = [].
Proof.
  intros Hg. pose proof (concat_group_tracks _ _ _ Hg) as Hperm. simpl in Hperm.
  by apply Permutation_nil_l in Hperm.
Qed.

(** X3.  What the allocator returns for an artist is the best of that
    artist: when every track has a primary artist, the returned tracks of an
    artist are, in order, the first ones of that artist's candidates sorted
    by descending base score (ties in input order). *)
Theorem fairness_returns_best_of_each_artist (fuel : nat) (tracks : list Track)
  (M : Z) (ids : list string) (result : list Track) :
  primary_artists tracks = Ret ids →
  apply_fairness_constraints fuel tracks M = Some result →
  ∀ a, List.filter (by_artist a) result
       = take (count_artist a result)
           (sort_desc base_score (List.filter (by_artist a) tracks)).
Proof.
  intros Hids Hrun a.
  destruct (primary_artists_group _ _ Hids) as [groups Hg].
  destruct groups as [|p groups].
  { apply group_by_artist_nil in Hg as ->.
    assert (result = []) as ->; [|done].
    revert Hrun. unfold apply_fairness_constraints; simpl.
    rewrite py_slice_to_nil. by intros [= <-]. }
  destruct (fairness_result_state _ _ _ _ _ Hg ltac:(done) Hrun)
    as (s & Hinv & -> & _).
  destruct Hinv as (_ & Hrem & _ & _ & Hout). unfold count_artist.
  destruct (lookup_group a (p :: groups)) as [g|e] eqn:Hl.
  - pose proof (lookup_group_tracks a _ _ _ Hg) as Hlk. rewrite Hl in Hlk.
    simpl in Hlk. subst g.
    destruct (Hrem a (sort_desc base_score (List.filter (by_artist a) tracks)))
      as (remaining & _ & <-).
    { by rewrite lookup_group_sort, Hl. }
    by rewrite take_app_length.
  - rewrite Hout; [done|]. rewrite sort_groups_keys.
    intros [g Hg']%lookup_group_Some. congruence.
Qed.

Lemma fairness_returns_best_of_each_artist_witness :
  List.filter (by_artist "X") [high_base; low_base]
  = take (count_artist "X" [high_base; low_base])
      (sort_desc base_score (List.filter (by_artist "X") [low_base; high_base])).
Proof.
  apply (fairness_returns_best_of_each_artist 5 [low_base; high_base] 2
           ["X"; "X"]%string [high_base; low_base]).
  - reflexivity.
  - by vm_compute.
Defined.

(** X4.  A returned list is short only when every artist is at the cap:
    when every track has a primary artist, either the result has the target
    size (0 for a negative target), or it holds exactly
    [max(1, M // A)] tracks of every artist of the input. *)
Theorem fairness_stops_full_or_capped (fuel : nat) (tracks : list Track)
  (M : Z) (ids : list string) (result : list Track) :
  primary_artists tracks = Ret ids →
  tracks ≠ [] →
  apply_fairness_constraints fuel tracks M = Some result →
  Z.of_nat (length result) = Z.max 0 M
  ∨ ∀ a, a ∈ ids →
         Z.of_nat (count_artist a result)
         = Z.max 1 (M / Z.of_nat (num_distinct ids)).
Proof.
  intros Hids Hne Hrun.
  assert (Hlen : (Z.of_nat (length result) <= Z.max 0 M)%Z).
  { destruct (apply_fairness_constraints_inv _ _ _ _ _ Hids Hrun)
      as [->|(groups0 & s0 & _ & _ & _ & Hlen)]; [simpl; lia|done]. }
  destruct (primary_artists_group _ _ Hids) as [groups Hg].
  destruct groups as [|p groups]; [by apply group_by_artist_nil in Hg|].
  destruct (fairness_result_state _ _ _ _ _ Hg ltac:(done) Hrun)
    as (s & Hinv & Hsel & Hexit).
  destruct (group_by_artist_spec _ _ Hg) as (ids' & Hids' & Hlen' & _).
  rewrite Hids in Hids'. injection Hids' as <-.
  destruct Hexit as [HM|Hnone]; [left; lia|]. right.
  intros a Ha. destruct Hinv as (_ & _ & Hcount & Hcap & _).
  rewrite Hsel, <- Hcount, <- Hlen'.
  apply find_lowest_None in Hnone. rewrite Forall_forall in Hnone.
  apply Z.le_antisymm; [apply Hcap|]. apply Hnone.
  apply group_tracks_spec in Hg as (ids' & Hids' & _ & Hkeys & _);
    [|constructor|by intros ? ? [=]].
  rewrite Hids in Hids'. injection Hids' as <-. apply Hkeys. by right.
Qed.

Lemma fairness_stops_full_or_capped_witness :
  Z.of_nat (length [track_a; track_b]) = Z.max 0 3
  ∨ ∀ a, a ∈ ["X"; "Y"; "Y"]%string →
         Z.of_nat (count_artist a [track_a; track_b])
         = Z.max 1 (3 / Z.of_nat (num_distinct ["X"; "Y"; "Y"]%string)).
Proof.
  apply (fairness_stops_full_or_capped 5 [track_a; track_b; track_c] 3).
  - reflexivity.
  - discriminate.
  - by vm_compute.
Defined.

(** A track whose ['artists'] entry is an empty list makes the grouping
    raise. *)
Lemma group_tracks_raises (tracks : list Track) (acc : Groups) :
  Exists (λ t, f_artists t = Some []) tracks →
  ∃ e, group_tracks "unknown" tracks acc = Raise e.
Proof.
  intros Hex. revert acc. induction Hex as [t tracks Ht|t tracks _ IH];
    intros acc; simpl.
  - unfold primary_artist. rewrite Ht. simpl. eauto.
  - destruct (primary_artist "unknown" t); simpl; eauto.
Qed.

(** X5.  A candidate whose ['artists'] list is empty disables the fairness
    allocation: the grouping raises, the handler takes over, and the call
    returns the first [max_recommendations] candidates as they come,
    whatever their artists. *)
Theorem fairness_falls_back_to_prefix (fuel : nat) (tracks : list Track) (M : Z) :
  Exists (λ t, f_artists t = Some []) tracks →
  apply_fairness_constraints fuel tracks M = Some (py_slice_to tracks M).
Proof.
  intros Hex. unfold apply_fairness_constraints, fairness_body, group_by_artist.
  by destruct (group_tracks_raises tracks [] Hex) as [e ->].
Qed.

Lemma fairness_falls_back_to_prefix_witness :
  apply_fairness_constraints 0 [track_a; track_a; anonymous] 2
  = Some [track_a; track_a].
Proof.
  apply (fairness_falls_back_to_prefix 0 [track_a; track_a; anonymous] 2).
  right. right. left. reflexivity.
Defined.

(** X6.  The allocator returns, after at most [max_recommendations]
    iterations, when every track has a primary artist and every artist has
    at least [max(1, M // A)] candidates; an artist with fewer candidates
    than the cap is what keeps the loop of C1 running. *)
Theorem fairness_returns_given_enough_tracks (tracks : list Track) (M : Z)
  (ids : list string) :
  primary_artists tracks = Ret ids →
  (∀ a, a ∈ ids →
        (Z.max 1 (M / Z.of_nat (num_distinct ids))
         <= Z.of_nat (count_artist a tracks))%Z) →
  ∃ result, apply_fairness_constraints (Z.to_nat M) tracks M = Some result.
Proof.
  intros Hids Hfill. destruct (primary_artists_group _ _ Hids) as [groups Hg].
  apply (fairness_returns_when_groups_fill_cap _ _ groups); [done|].
  intros a g Hl.
  destruct (group_by_artist_spec _ _ Hg) as (ids' & Hids' & Hlen & _).
  rewrite Hids in Hids'. injection Hids' as <-. rewrite Hlen.
  pose proof (lookup_group_tracks a _ _ _ Hg) as Hlk. rewrite Hl in Hlk.
  simpl in Hlk. subst g. apply Hfill.
  apply group_tracks_spec in Hg as (ids' & Hids' & _ & Hkeys & _);
    [|constructor|by intros ? ? [=]].
  rewrite Hids in Hids'. injection Hids' as <-.
  destruct (proj1 (Hkeys a)) as [Hin|Hin]; [|by apply elem_of_nil in Hin|done].
  apply lookup_group_Some. eauto.
Qed.

Lemma fairness_returns_given_enough_tracks_witness :
  ∃ result,
    apply_fairness_constraints (Z.to_nat 3) [track_a; track_b; track_c] 3
    = Some result.
Proof.
  apply (fairness_returns_given_enough_tracks [track_a; track_b; track_c] 3
           ["X"; "Y"; "Y"]%string).
  - reflexivity.
  - intros a Ha. vm_compute in Ha.
    repeat (apply elem_of_cons in Ha as [->|Ha]); try by vm_compute.
    by apply elem_of_nil in Ha.
Defined.

(** ** The enrichment stages *)

(** A loop whose body succeeds on every track is a map. *)
Lemma for_each_Ret (body : Track → Exc Track) (f : Track → Track)
  (tracks : list Track) :
  Forall (λ t, body t = Ret (f t)) tracks →
  for_each body tracks = map f tracks.
Proof.
  induction 1 as [|t tracks Ht _ IH]; simpl; [done|]. by rewrite Ht, IH.
Qed.

(** A loop whose body raises at a track keeps the tracks before it enriched
    and returns the others untouched. *)
Lemma for_each_Raise (body : Track → Exc Track) (f : Track → Track)
  (before after : list Track) (t : Track) (e : exn) :
  Forall (λ t, body t = Ret (f t)) before →
  body t = Raise e →
  for_each body (before ++ t :: after) = map f before ++ t :: after.
Proof.
  intros Hb Ht. induction Hb as [|t0 before Ht0 _ IH]; simpl.
  - by rewrite Ht.
  - by rewrite Ht0, IH.
Qed.

Lemma primary_artists_Forall (tracks : list Track) (ids : list string) :
  primary_artists tracks = Ret ids →
  Forall (λ t, ∃ a, primary_artist "unknown" t = Ret a ∧ a ∈ ids) tracks.
Proof.
  unfold primary_artists. revert ids.
  induction tracks as [|t tracks IH]; simpl; intros ids Hids; [constructor|].
  destruct (primary_artist "unknown" t) as [a|e] eqn:Ha; simpl in Hids; [|done].
  destruct (mapE _ tracks) as [ids'|e] eqn:Hm; simpl in Hids; [|done].
  injection Hids as <-. constructor.
  - exists a. split; [done|]. apply list_elem_of_here.
  - eapply Forall_impl; [by apply IH|]. intros t' (b & Hb & Hin).
    exists b. split; [done|]. by apply list_elem_of_further.
Qed.


Lemma Qsum_app (l k : list Q) : Qsum (l ++ k) == Qsum l + Qsum k.
Proof.
  unfold Qsum. induction l as [|x l IH]; simpl; [ring|]. rewrite IH. ring.
Qed.


(** The group found for the artist of a candidate is the list of that
    artist's candidates. *)
Lemma lookup_group_of_candidate (tracks : list Track) (groups : Groups)
  (t : Track) (a : string) :
  group_by_artist tracks = Ret groups →
  t ∈ tracks → primary_artist "unknown" t = Ret a →
  lookup_group a groups = Ret (List.filter (by_artist a) tracks)
  ∧ (1 <= artist_count tracks t)%Z
  ∧ artist_count tracks t = Z.of_nat (length (List.filter (by_artist a) tracks)).
Proof.
  intros Hg Hin Ha.
  assert (Hf : t ∈ List.filter (by_artist a) tracks).
  { apply list_elem_of_In, filter_In. split; [by apply list_elem_of_In|].
    by apply by_artist_true. }
  pose proof (lookup_group_tracks a _ _ _ Hg) as Hlk. simpl in Hlk.
  unfold artist_count, count_artist. rewrite Ha. split_and!; [|..|done].
  - destruct (lookup_group a groups) as [g|e]; [by rewrite Hlk|].
    rewrite <- Hlk in Hf. by apply elem_of_nil in Hf.
  - destruct (List.filter (by_artist a) tracks); [by apply elem_of_nil in Hf|].
    simpl. lia.
Qed.

Lemma diversity_boosted_candidate (w : Q) (tracks : list Track)
  (groups : Groups) (t : Track) (a : string) :
  group_by_artist tracks = Ret groups →
  t ∈ tracks → primary_artist "unknown" t = Ret a →
  diversity_boosted w groups t
  = Ret (let b := 1 / inject_Z (artist_count tracks t) in
         set (set t "diversity_boost" b) "diversity_adjusted_score"
           (base_score t * (1 + b * w))).
Proof.
  intros Hg Hin Ha.
  destruct (lookup_group_of_candidate _ _ _ _ Hg Hin Ha) as (Hl & Hge & Hcount).
  unfold diversity_boosted. rewrite Ha; simpl. rewrite Hl; simpl.
  rewrite <- Hcount, Z.max_l by lia.
  unfold base_score. by rewrite get_set_ne by discriminate.
Qed.

(** X7.  When every track has a primary artist, [apply_diversity_boost] gives
    each candidate the boost [1/c], [c >= 1] being the number of candidates
    of its primary artist, and the adjusted score
    [base_score·(1 + diversity_weight/c)]; the other entries of the track
    stay as they are. *)
Theorem diversity_boost_is_inverse_artist_count (diversity_weight : Q)
  (tracks : list Track) (ids : list string) :
  primary_artists tracks = Ret ids →
  Forall2 (λ t t',
             (1 <= artist_count tracks t)%Z
             ∧ get t' "diversity_boost" 0 == 1 / inject_Z (artist_count tracks t)
             ∧ get t' "diversity_adjusted_score" 0
               == base_score t
                  * (1 + diversity_weight / inject_Z (artist_count tracks t))
             ∧ same_item t t')
    tracks (apply_diversity_boost diversity_weight tracks).
Proof.
  intros Hids. destruct (primary_artists_group _ _ Hids) as [groups Hg].
  unfold apply_diversity_boost. rewrite Hg.
  apply primary_artists_Forall in Hids.
  rewrite (for_each_Ret _
    (λ t, let b := 1 / inject_Z (artist_count tracks t) in
          set (set t "diversity_boost" b) "diversity_adjusted_score"
            (base_score t * (1 + b * diversity_weight)))).
  - apply Forall2_fmap_r, Forall_Forall2_diag.
    rewrite Forall_forall in Hids |- *. intros t Ht.
    destruct (Hids t Ht) as (a & Ha & _).
    destruct (lookup_group_of_candidate _ _ _ _ Hg Ht Ha) as (_ & Hge & _).
    cbn zeta. split_and!; [done| | |same_item_sets].
    + rewrite get_set_ne by discriminate. by rewrite get_set_eq.
    + rewrite get_set_eq. field.
      intros Hz. assert (Hpos : 0 < inject_Z (artist_count tracks t)).
      { unfold Qlt; simpl. lia. }
      rewrite Hz in Hpos. by apply Qlt_irrefl in Hpos.
  - rewrite Forall_forall in Hids |- *. intros t Ht.
    destruct (Hids t Ht) as (a & Ha & _).
    by apply (diversity_boosted_candidate _ _ _ _ a).
Qed.

Lemma diversity_boost_is_inverse_artist_count_witness :
  Forall2 (λ t t',
             (1 <= artist_count [track_a; track_b; track_c] t)%Z
             ∧ get t' "diversity_boost" 0
               == 1 / inject_Z (artist_count [track_a; track_b; track_c] t)
             ∧ get t' "diversity_adjusted_score" 0
               == base_score t
                  * (1 + 0.4 / inject_Z (artist_count [track_a; track_b; track_c] t))
             ∧ same_item t t')
    [track_a; track_b; track_c]
    (apply_diversity_boost 0.4 [track_a; track_b; track_c]).
Proof.
  apply (diversity_boost_is_inverse_artist_count 0.4 [track_a; track_b; track_c]
           ["X"; "Y"; "Y"]%string).
  reflexivity.
Defined.

Lemma count_artists_spec (tracks : list Track) (acc counts : gmap string Z) :
  count_artists tracks acc = Ret counts →
  ∀ a, counts !! a
       = if decide (count_artist a tracks = 0%nat) then acc !! a
         else Some (default 0 (acc !! a) + Z.of_nat (count_artist a tracks))%Z.
Proof.
  revert acc. induction tracks as [|t tracks IH]; simpl; intros acc Hc a.
  - by injection Hc as <-.
  - destruct (primary_artist "unknown" t) as [b|e] eqn:Hb; simpl in Hc; [|done].
    rewrite (IH _ Hc a). unfold count_artist, by_artist. simpl. rewrite Hb.
    destruct (decide (a = b)) as [->|Hne].
    + rewrite bool_decide_eq_true_2 by done. simpl.
      rewrite lookup_insert_eq. simpl.
      repeat case_decide; try lia; f_equal; lia.
    + rewrite bool_decide_eq_false_2 by done. simpl.
      by rewrite lookup_insert_ne by done.
Qed.

Lemma count_artists_Ret (tracks : list Track) (ids : list string)
  (acc : gmap string Z) :
  primary_artists tracks = Ret ids → ∃ counts, count_artists tracks acc = Ret counts.
Proof.
  unfold primary_artists. revert ids acc.
  induction tracks as [|t tracks IH]; simpl; intros ids acc Hids; [eauto|].
  destruct (primary_artist "unknown" t) as [a|e]; simpl in *; [|done].
  destruct (mapE _ tracks) as [ids'|e] eqn:Hm; simpl in Hids; [|done].
  by eapply IH.
Qed.

Lemma count_artists_raises (tracks : list Track) (acc : gmap string Z) :
  Exists (λ t, f_artists t = Some []) tracks →
  ∃ e, count_artists tracks acc = Raise e.
Proof.
  intros Hex. revert acc. induction Hex as [t tracks Ht|t tracks _ IH];
    intros acc; simpl.
  - unfold primary_artist. rewrite Ht. simpl. eauto.
  - destruct (primary_artist "unknown" t); simpl; eauto.
Qed.

(** On candidates that all have a primary artist the two set-scoped stages
    are maps. *)
Lemma apply_diversity_boost_map (w : Q) (tracks : list Track) (ids : list string) :
  primary_artists tracks = Ret ids →
  apply_diversity_boost w tracks
  = map (λ t, let b := 1 / inject_Z (artist_count tracks t) in
              set (set t "diversity_boost" b) "diversity_adjusted_score"
                (base_score t * (1 + b * w))) tracks.
Proof.
  intros Hids. destruct (primary_artists_group _ _ Hids) as [groups Hg].
  pose proof (primary_artists_Forall _ _ Hids) as Hall.
  unfold apply_diversity_boost. rewrite Hg. apply for_each_Ret.
  rewrite Forall_forall in Hall |- *. intros t Ht.
  destruct (Hall t Ht) as (a & Ha & _).
  by apply (diversity_boosted_candidate _ _ _ _ a).
Qed.

Lemma apply_artist_novelty_map (tracks : list Track) (ids : list string) :
  primary_artists tracks = Ret ids →
  apply_artist_novelty tracks
  = map (λ t, set t "artist_novelty_boost"
                (1 / inject_Z (artist_count tracks t))) tracks.
Proof.
  intros Hids. destruct (count_artists_Ret _ _ ∅ Hids) as [counts Hc].
  pose proof (primary_artists_Forall _ _ Hids) as Hall.
  unfold apply_artist_novelty. rewrite Hc. apply for_each_Ret.
  rewrite Forall_forall in Hall |- *. intros t Ht.
  destruct (Hall t Ht) as (a & Ha & _).
  unfold artist_novelty_boosted, artist_count. rewrite Ha; simpl.
  rewrite (count_artists_spec _ _ _ Hc a).
  assert (Hpos : (0 < count_artist a tracks)%nat).
  { unfold count_artist.
    assert (Hf : t ∈ List.filter (by_artist a) tracks).
    { apply list_elem_of_In, filter_In. split; [by apply list_elem_of_In|].
      by apply by_artist_true. }
    destruct (List.filter (by_artist a) tracks); [by apply elem_of_nil in Hf|].
    simpl. lia. }
  rewrite decide_False by lia. rewrite lookup_empty. simpl.
  by rewrite Z.max_l by lia.
Qed.

(** X9.  The two set-scoped boosts are the same number: for candidates that
    all have a primary artist, the [artist_novelty_boost] written by
    [apply_artist_novelty] equals the [diversity_boost] written by
    [apply_diversity_boost], track by track, whatever the diversity weight. *)
Theorem artist_novelty_boost_is_diversity_boost (diversity_weight : Q)
  (tracks : list Track) (ids : list string) :
  primary_artists tracks = Ret ids →
  Forall2 (λ d n, get n "artist_novelty_boost" 0 == get d "diversity_boost" 0
                  ∧ f_id n = f_id d)
    (apply_diversity_boost diversity_weight tracks)
    (apply_artist_novelty tracks).
Proof.
  intros Hids.
  rewrite (apply_diversity_boost_map _ _ _ Hids),
    (apply_artist_novelty_map _ _ Hids).
  apply Forall2_fmap, Forall_Forall2_diag, Forall_forall. intros t _.
  cbn zeta. rewrite get_set_eq, get_set_ne by discriminate.
  by rewrite get_set_eq.
Qed.

Lemma artist_novelty_boost_is_diversity_boost_witness :
  Forall2 (λ d n, get n "artist_novelty_boost" 0 == get d "diversity_boost" 0
                  ∧ f_id n = f_id d)
    (apply_diversity_boost 0.4 [track_a; track_b; track_c])
    (apply_artist_novelty [track_a; track_b; track_c]).
Proof.
  apply (artist_novelty_boost_is_diversity_boost 0.4 [track_a; track_b; track_c]
           ["X"; "Y"; "Y"]%string).
  reflexivity.
Defined.

(** X10.  The two set-scoped stages are all or nothing: when some candidate
    has an empty ['artists'] list, [apply_diversity_boost] and
    [apply_artist_novelty] return the list they were given, with no track
    enriched. *)
Theorem set_scoped_stages_fail_whole (diversity_weight : Q) (tracks : list Track) :
  Exists (λ t, f_artists t = Some []) tracks →
  apply_diversity_boost diversity_weight tracks = tracks
  ∧ apply_artist_novelty tracks = tracks.
Proof.
  intros Hex. split.
  - unfold apply_diversity_boost, group_by_artist.
    by destruct (group_tracks_raises tracks [] Hex) as [e ->].
  - unfold apply_artist_novelty.
    by destruct (count_artists_raises tracks ∅ Hex) as [e ->].
Qed.

Lemma set_scoped_stages_fail_whole_witness :
  apply_diversity_boost 0.4 [track_a; anonymous] = [track_a; anonymous]
  ∧ apply_artist_novelty [track_a; anonymous] = [track_a; anonymous].
Proof.
  apply (set_scoped_stages_fail_whole 0.4 [track_a; anonymous]).
  right. left. reflexivity.
Defined.

(** ** Novelty *)

Lemma novelty_boosted_Ret (w : Q) (h : list string) (t : Track) (a : string) :
  primary_artist "" t = Ret a →
  ∃ n, calculate_novelty_score t h = Ret n
       ∧ novelty_boosted w h t
         = Ret (set (set t "novelty_score" n) "novelty_adjusted_score"
                  (base_score t * (1 + n * w)))
       ∧ (((a ∉ h) ∧ (default "" (f_id t) ∉ h) ∧ n == 1.5)
          ∨ ((a ∉ h) ∧ (default "" (f_id t) ∈ h) ∧ n == 1.095)
          ∨ ((a ∈ h) ∧ (default "" (f_id t) ∉ h) ∧ n == 0.765)
          ∨ ((a ∈ h) ∧ (default "" (f_id t) ∈ h) ∧ n == 0.36)).
Proof.
  intros Ha. unfold novelty_boosted, calculate_novelty_score. rewrite Ha; simpl.
  eexists. split; [done|]. split; [done|].
  destruct (decide (a ∈ h)), (decide (default "" (f_id t) ∈ h)).
  - do 3 right. split_and!; [done..|reflexivity].
  - do 2 right. left. split_and!; [done..|reflexivity].
  - right. left. split_and!; [done..|reflexivity].
  - left. split_and!; [done..|reflexivity].
Qed.

Lemma primary_artist_default (d d' : string) (t : Track) :
  f_artists t ≠ Some [] → ∃ a, primary_artist d t = Ret a.
Proof.
  unfold primary_artist. destruct (f_artists t) as [[|a l]|]; [done|eauto..].
Qed.

(** X11.  [apply_novelty_boost] knows four novelty scores.  For candidates
    none of which has an empty ['artists'] list, a track gets 1.5 when
    neither its primary artist nor its id is in the history, 1.095 when only
    its id is, 0.765 when only its artist is and 0.36 when both are; so the
    score lies in [0.36, 1.5], and the adjusted score is
    [base_score·(1 + novelty·novelty_weight)]. *)
Theorem novelty_scores_are_four (novelty_weight : Q) (history : list string)
  (tracks : list Track) :
  Forall (λ t, f_artists t ≠ Some []) tracks →
  Forall2 (λ t t',
             ∃ a, primary_artist "" t = Ret a
                  ∧ let n := get t' "novelty_score" 0 in
                    (((a ∉ history) ∧ (default "" (f_id t) ∉ history) ∧ n == 1.5)
                     ∨ ((a ∉ history) ∧ (default "" (f_id t) ∈ history) ∧ n == 1.095)
                     ∨ ((a ∈ history) ∧ (default "" (f_id t) ∉ history) ∧ n == 0.765)
                     ∨ ((a ∈ history) ∧ (default "" (f_id t) ∈ history) ∧ n == 0.36))
                    ∧ 0.36 <= n <= 1.5
                    ∧ get t' "novelty_adjusted_score" 0
                      == base_score t * (1 + n * novelty_weight))
    tracks (apply_novelty_boost novelty_weight history tracks).
Proof.
  unfold apply_novelty_boost. induction 1 as [|t tracks Ht _ IH]; simpl;
    [constructor|].
  destruct (primary_artist_default "" "" t Ht) as [a Ha].
  destruct (novelty_boosted_Ret novelty_weight history t a Ha)
    as (n & _ & -> & Hcases).
  constructor; [|done]. exists a. split; [done|]. cbn zeta.
  rewrite get_set_eq, get_set_ne, get_set_eq by discriminate.
  split_and!; [done| | |reflexivity].
  - destruct Hcases as [(_&_&->)|[(_&_&->)|[(_&_&->)|(_&_&->)]]]; discriminate.
  - destruct Hcases as [(_&_&->)|[(_&_&->)|[(_&_&->)|(_&_&->)]]]; discriminate.
Qed.

Lemma novelty_scores_are_four_witness :
  Forall2 (λ t t',
             ∃ a, primary_artist "" t = Ret a
                  ∧ let n := get t' "novelty_score" 0 in
                    (((a ∉ ["Y"]%string) ∧ (default "" (f_id t) ∉ ["Y"]%string) ∧ n == 1.5)
                     ∨ ((a ∉ ["Y"]%string) ∧ (default "" (f_id t) ∈ ["Y"]%string) ∧ n == 1.095)
                     ∨ ((a ∈ ["Y"]%string) ∧ (default "" (f_id t) ∉ ["Y"]%string) ∧ n == 0.765)
                     ∨ ((a ∈ ["Y"]%string) ∧ (default "" (f_id t) ∈ ["Y"]%string) ∧ n == 0.36))
                    ∧ 0.36 <= n <= 1.5
                    ∧ get t' "novelty_adjusted_score" 0
                      == base_score t * (1 + n * 0.3))
    [track_a; track_b] (apply_novelty_boost 0.3 ["Y"]%string [track_a; track_b]).
Proof.
  apply (novelty_scores_are_four 0.3 ["Y"]%string [track_a; track_b]).
  repeat (apply Forall_cons_2; [discriminate|]). apply Forall_nil_2.
Defined.

(** X12.  [apply_novelty_boost] fails half way: at the first candidate with
    an empty ['artists'] list the loop stops, the candidates before it keep
    their novelty entries, and that candidate and all the following ones are
    returned as they were given. *)
Theorem novelty_boost_stops_at_first_failure (novelty_weight : Q)
  (history : list string) (before after : list Track) (bad : Track) :
  Forall (λ t, f_artists t ≠ Some []) before →
  f_artists bad = Some [] →
  apply_novelty_boost novelty_weight history (before ++ bad :: after)
  = apply_novelty_boost novelty_weight history before ++ bad :: after
  ∧ Forall (λ t', is_Some (f_num t' !! "novelty_score")
                  ∧ is_Some (f_num t' !! "novelty_adjusted_score"))
      (apply_novelty_boost novelty_weight history before)
  ∧ length (apply_novelty_boost novelty_weight history before) = length before.
Proof.
  intros Hb Hbad. unfold apply_novelty_boost.
  assert (Hraise : novelty_boosted novelty_weight history bad = Raise IndexError).
  { unfold novelty_boosted, calculate_novelty_score, primary_artist.
    by rewrite Hbad. }
  induction Hb as [|t before Ht _ IH]; simpl.
  - rewrite Hraise. split_and!; [done|constructor|done].
  - destruct (primary_artist_default "" "" t Ht) as [a Ha].
    destruct (novelty_boosted_Ret novelty_weight history t a Ha)
      as (n & _ & -> & _).
    destruct IH as (-> & Hall & Hlen). split_and!; [done| |simpl; by rewrite Hlen].
    constructor; [|done]. unfold set; simpl. split.
    + rewrite lookup_insert_ne by discriminate. rewrite lookup_insert_eq. eauto.
    + rewrite lookup_insert_eq. eauto.
Qed.

Lemma novelty_boost_stops_at_first_failure_witness :
  apply_novelty_boost 0.3 [] ([track_a] ++ anonymous :: [track_b])
  = apply_novelty_boost 0.3 [] [track_a] ++ anonymous :: [track_b].
Proof.
  refine (proj1 (novelty_boost_stops_at_first_failure 0.3 [] [track_a] [track_b]
                   anonymous _ _)).
  - apply Forall_cons_2; [discriminate|apply Forall_nil_2].
  - reflexivity.
Defined.

(** ** Popularity *)






(** X15.  The popularity-aware score favours the less popular track: it is
    [base_score·(1.3 − 0.15·popularity/100)], so for a base score [>= 0] and
    a popularity within [0, 100] it lies within
    [1.15·base_score, 1.3·base_score], and of two tracks with the same base
    score [>= 0] the less popular has the higher or equal score. *)
Theorem popularity_aware_score_favours_unpopular (t u : Track) :
  let aware := λ x, get (popularity_aware x) "popularity_aware_score" 0 in
  aware t == base_score t * (1.3 - 0.15 * (get t "popularity" 50 / 100))
  ∧ (0 <= base_score t → 0 <= get t "popularity" 50 <= 100 →
     1.15 * base_score t <= aware t <= 1.3 * base_score t)
  ∧ (0 <= base_score t → base_score u == base_score t →
     get t "popularity" 50 <= get u "popularity" 50 →
     aware u <= aware t).
Proof.
  cbn zeta. unfold popularity_aware. rewrite !get_set_eq. fold (base_score t).
  fold (base_score u). split_and!.
  - field.
  - intros Hb [H0 H1].
    assert (0 <= get t "popularity" 50 / 100) by (apply Qle_shift_div_l; lra).
    assert (get t "popularity" 50 / 100 <= 1) by (apply Qle_shift_div_r; lra).
    split; nra.
  - intros Hb Heq Hle. rewrite Heq.
    assert (get t "popularity" 50 / 100 <= get u "popularity" 50 / 100).
    { apply Qle_shift_div_l; [reflexivity|]. field_simplify. lra. }
    nra.
Qed.

Lemma popularity_aware_score_favours_unpopular_witness :
  get (popularity_aware track_a) "popularity_aware_score" 0
  <= get (popularity_aware (track "w" "Z" 20 0.9)) "popularity_aware_score" 0.
Proof.
  refine (proj2 (proj2 (popularity_aware_score_favours_unpopular
                          (track "w" "Z" 20 0.9) track_a)) _ _ _);
    [discriminate|reflexivity|discriminate].
Defined.

(** ** Release years and genres *)

Lemma temporal_boost_cases (year : Z) :
  ((20 < 2024 - year)%Z ∧ temporal_boost year = 1.3)
  ∨ ((10 < 2024 - year <= 20)%Z ∧ temporal_boost year = 1.2)
  ∨ ((5 < 2024 - year <= 10)%Z ∧ temporal_boost year = 1.1)
  ∨ ((2024 - year <= 5)%Z ∧ temporal_boost year = 1.0).
Proof.
  unfold temporal_boost.
  destruct (Z.ltb_spec 20 (2024 - year)); [by left|].
  destruct (Z.ltb_spec 10 (2024 - year)); [right; by left|].
  destruct (Z.ltb_spec 5 (2024 - year)); [right; right; by left|].
  by do 3 right.
Qed.

Lemma temporal_boost_range (year : Z) : 1 <= temporal_boost year <= 1.3.
Proof.
  destruct (temporal_boost_cases year)
    as [[_ ->]|[[_ ->]|[[_ ->]|[_ ->]]]]; split; discriminate.
Qed.

Lemma temporal_boost_antitone (y1 y2 : Z) :
  (y1 <= y2)%Z → temporal_boost y2 <= temporal_boost y1.
Proof.
  intros Hy.
  destruct (temporal_boost_cases y1) as [[H1 ->]|[[H1 ->]|[[H1 ->]|[H1 ->]]]],
    (temporal_boost_cases y2) as [[H2 ->]|[[H2 ->]|[[H2 ->]|[H2 ->]]]];
    first [discriminate | exfalso; lia].
Qed.

(** X16.  The temporal boost depends on the age alone and grows with it: it
    lies within [1, 1.3], an earlier release year never gets a smaller boost,
    a year from 2019 on gets 1, and a candidate without release date, or
    whose date does not start with a number, is taken as released in 2020 and
    gets 1. *)
Theorem temporal_boost_grows_with_age (parse_int : string → option Z)
  (tracks : list Track) :
  Forall2 (λ t t',
             let boost := get t' "temporal_diversity_boost" 0 in
             1 <= boost <= 1.3
             ∧ (default "" (f_release_date t) = "" → boost == 1)
             ∧ (parse_int (String.substring 0 4 (default "" (f_release_date t)))
                = None → boost == 1)
             ∧ (∀ y, default "" (f_release_date t) ≠ "" →
                     parse_int (String.substring 0 4
                                  (default "" (f_release_date t))) = Some y →
                     boost == temporal_boost y))
    tracks (apply_temporal_diversity parse_int tracks)
  ∧ (∀ y1 y2, (y1 <= y2)%Z → temporal_boost y2 <= temporal_boost y1)
  ∧ (∀ y, (2019 <= y)%Z → temporal_boost y == 1)
  ∧ (∀ y, (y < 2004)%Z → temporal_boost y == 1.3).
Proof.
  split_and!.
  - unfold apply_temporal_diversity.
    induction tracks as [|t tracks IH]; simpl; constructor; [|done].
    cbn zeta. rewrite get_set_eq. unfold release_year.
    split; [|split; [|split]].
    + apply temporal_boost_range.
    + intros ->. by rewrite decide_True.
    + intros ->. by destruct (decide _).
    + intros y Hne ->. by rewrite decide_False.
  - apply temporal_boost_antitone.
  - intros y Hy.
    destruct (temporal_boost_cases y) as [[H ->]|[[H ->]|[[H ->]|[H ->]]]];
      first [reflexivity | exfalso; lia].
  - intros y Hy.
    destruct (temporal_boost_cases y) as [[H ->]|[[H ->]|[[H ->]|[H ->]]]];
      first [reflexivity | exfalso; lia].
Qed.







(** ** The quota variant *)

Lemma categorize_lookup (tracks : list Track) (c : string) :
  default [] (categorize tracks !! c)
  = List.filter (λ t, bool_decide (category_of t = c)) tracks.
Proof.
  unfold categorize.
  set (step := λ (m : gmap string (list Track)) t,
         <[category_of t := default [] (m !! category_of t) ++ [t]]> m).
  assert (Hfold : ∀ l acc,
    default [] (foldl step acc l !! c)
    = default [] (acc !! c) ++ List.filter (λ t, bool_decide (category_of t = c)) l).
  { induction l as [|t l IH]; intros acc; simpl; [by rewrite app_nil_r|].
    rewrite IH. unfold step at 1.
    destruct (decide (category_of t = c)) as [Hc|Hc].
    - rewrite Hc, lookup_insert_eq, bool_decide_eq_true_2 by done. simpl.
      by rewrite <- app_assoc.
    - rewrite lookup_insert_ne, bool_decide_eq_false_2 by done. done. }
  rewrite Hfold.
  destruct (decide (c = "mainstream")) as [->|H1]; [done|].
  destruct (decide (c = "indie")) as [->|H2]; [done|].
  destruct (decide (c = "vintage")) as [->|H3]; [done|].
  by rewrite !lookup_insert_ne, lookup_empty by done.
Qed.

(** The tracks taken for one entry of the quota map. *)
Lemma apply_representation_quota_chunks (tracks : list Track)
  (quota_percentages : list (string * Q)) :
  apply_representation_quota tracks quota_percentages
  = concat (map (λ p,
                   py_slice_to
                     (sort_desc base_score
                        (List.filter (λ t, bool_decide (category_of t = fst p))
                           tracks))
                     (py_int (inject_Z (Z.of_nat (length tracks)) * snd p)))
              quota_percentages).
Proof.
  unfold apply_representation_quota. cbn zeta.
  rewrite <- (app_nil_l (concat _)). generalize (@nil Track) at 2 3.
  induction quota_percentages as [|[c p] quota IH]; intros init; simpl.
  - by rewrite app_nil_r.
  - rewrite IH, categorize_lookup. by rewrite <- app_assoc.
Qed.

Lemma py_slice_to_sublist {A : Type} (l : list A) (k : Z) :
  sublist (py_slice_to l k) l.
Proof. unfold py_slice_to. destruct (k <? 0)%Z; apply sublist_take. Qed.

Lemma py_slice_to_length {A : Type} (l : list A) (k : Z) :
  (0 <= k)%Z → (Z.of_nat (length (py_slice_to l k)) <= k)%Z.
Proof.
  intros Hk. rewrite py_slice_to_take by done. rewrite length_take. lia.
Qed.

Lemma py_int_le (x : Q) : 0 <= x → (0 <= py_int x)%Z ∧ inject_Z (py_int x) <= x.
Proof.
  intros Hx. rewrite py_int_floor by done. split.
  - change 0%Z with (Qfloor 0). by apply Qfloor_resp_le.
  - apply Qfloor_le.
Qed.

(** X18.  [apply_representation_quota] returns candidates only, and only of
    the categories listed in the quota map (a category other than
    mainstream, indie and vintage yields nothing); each entry contributes at
    most [int(n·share)] tracks when its share is not negative; so with
    non-negative shares that add up to at most 1 the result is never longer
    than the input. *)
Theorem quota_selects_listed_categories (tracks : list Track)
  (quota_percentages : list (string * Q)) :
  let result := apply_representation_quota tracks quota_percentages in
  Forall (λ t, t ∈ tracks ∧ category_of t ∈ map fst quota_percentages) result
  ∧ (Forall (λ p, 0 <= snd p) quota_percentages →
     Qsum (map snd quota_percentages) <= 1 →
     (length result <= length tracks)%nat).
Proof.
  cbn zeta. rewrite apply_representation_quota_chunks. split.
  - induction quota_percentages as [|[c p] quota IH]; simpl; [constructor|].
    apply Forall_app. split.
    + apply Forall_forall. intros t Ht.
      apply (λ H, elem_of_sublist _ _ _ H (py_slice_to_sublist _ _)) in Ht.
      rewrite sort_desc_perm in Ht.
      apply list_elem_of_In, filter_In in Ht as [Ht Hc].
      apply bool_decide_eq_true in Hc. split; [by apply list_elem_of_In|].
      rewrite Hc. apply list_elem_of_here.
    + eapply Forall_impl; [exact IH|]. intros t [Ht Hc]. split; [done|].
      by apply list_elem_of_further.
  - intros Hpos Hsum.
    set (n := inject_Z (Z.of_nat (length tracks))).
    assert (Hn : 0 <= n) by (unfold n, Qle; simpl; lia).
    assert (Hlen : inject_Z (Z.of_nat (length (concat (map (λ p,
                     py_slice_to
                       (sort_desc base_score
                          (List.filter (λ t, bool_decide (category_of t = fst p))
                             tracks))
                       (py_int (n * snd p))) quota_percentages))))
                   <= n * Qsum (map snd quota_percentages)).
    { clear Hsum. induction Hpos as [|[c p] quota Hp _ IH]; simpl.
      - change (inject_Z (Z.of_nat 0)) with 0. lra.
      - rewrite length_app, Nat2Z.inj_add, inject_Z_plus. simpl in Hp.
        destruct (py_int_le (n * p)) as [H0 Hle]; [nra|].
        pose proof (py_slice_to_length
          (sort_desc base_score
             (List.filter (λ t, bool_decide (category_of t = c)) tracks))
          (py_int (n * p)) H0) as Hchunk.
        rewrite Zle_Qle in Hchunk. nra. }
    assert (Hfinal : inject_Z (Z.of_nat (length (concat (map (λ p,
                     py_slice_to
                       (sort_desc base_score
                          (List.filter (λ t, bool_decide (category_of t = fst p))
                             tracks))
                       (py_int (n * snd p))) quota_percentages)))) <= n).
    { eapply Qle_trans; [exact Hlen|].
      set (S := Qsum (map snd quota_percentages)) in *. clearbody S n. nra. }
    unfold n in *. rewrite <- Zle_Qle in Hfinal. lia.
Qed.

Lemma quota_selects_listed_categories_witness :
  Nat.le (length (apply_representation_quota [track_a; track_b; track_c]
                    [("mainstream", 0.5); ("indie", 0.5)]%string))
    (length [track_a; track_b; track_c]).
Proof.
  refine (proj2 (quota_selects_listed_categories [track_a; track_b; track_c]
                   [("mainstream", 0.5); ("indie", 0.5)]%string) _ _).
  - repeat (apply Forall_cons_2; [discriminate|]). apply Forall_nil_2.
  - discriminate.
Defined.

(** ** The history kept by the pipeline *)

(** X19.  The pipeline keeps the last non-empty history it was given.  A
    call without history, or with an empty one, does not clear the stored
    history: after a call with the history [h], a later call with an empty
    history scores novelty against [h], exactly as a call that passes [h]
    again. *)
Theorem empty_history_reuses_stored_one
  (float_pow : Q → Q → option Q) (parse_int : string → option Z)
  (self : DebiasingPipeline) (first second : list Track) (h : list string) :
  h ≠ [] →
  let self1 := (apply_full_debiasing float_pow parse_int self first (Some h)).1 in
  user_history self1 = h
  ∧ apply_full_debiasing float_pow parse_int self1 second (Some [])
    = apply_full_debiasing float_pow parse_int self1 second None
  ∧ apply_full_debiasing float_pow parse_int self1 second (Some [])
    = apply_full_debiasing float_pow parse_int self1 second (Some h)
  ∧ user_history
      (apply_full_debiasing float_pow parse_int self1 second (Some [])).1 = h.
Proof.
  intros Hh. cbn zeta. unfold apply_full_debiasing; simpl.
  destruct h as [|x h]; [done|]. simpl. split_and!; done.
Qed.

Lemma empty_history_reuses_stored_one_witness :
  user_history
    (apply_full_debiasing (λ x _, Some x) (λ _, None) new_pipeline
       [track_a] (Some ["Y"]%string)).1 = ["Y"]%string.
Proof.
  refine (proj1 (empty_history_reuses_stored_one (λ x _, Some x) (λ _, None)
                   new_pipeline [track_a] [track_b] ["Y"]%string _)).
  discriminate.
Defined.

(** ** The steps of the exploration rate *)



(** ** Windows and means of the satisfaction summary *)

Lemma filter_sublist_impl {A : Type} (p q : A → bool) (l : list A) :
  (∀ x, p x = true → q x = true) →
  sublist (List.filter p l) (List.filter q l).
Proof.
  intros Hpq. induction l as [|x l IH]; simpl; [constructor|].
  destruct (p x) eqn:Hp.
  - rewrite (Hpq x Hp). by constructor.
  - destruct (q x); [by constructor|done].
Qed.

Lemma filter_sublist {A : Type} (p : A → bool) (l : list A) :
  sublist (List.filter p l) l.
Proof.
  induction l as [|x l IH]; simpl; [constructor|].
  destruct (p x); by constructor.
Qed.

(** X21.  The windows of the satisfaction summary are nested: the entries of
    the last week are among those of the last month, which are among all
    entries, each in the order of the history; any period other than
    ['week'] and ['month'] means the whole history; the summary is the empty
    dict exactly when the window is empty, and otherwise [total_feedback]
    counts the entries of the window. *)
Theorem satisfaction_windows_are_nested (now : Z)
  (satisfaction_history : list Satisfaction) (time_period : string) :
  sublist (recent now "week" satisfaction_history)
    (recent now "month" satisfaction_history)
  ∧ sublist (recent now "month" satisfaction_history) satisfaction_history
  ∧ (time_period ≠ "week" → time_period ≠ "month" →
     recent now time_period satisfaction_history = satisfaction_history)
  ∧ (get_satisfaction_summary now satisfaction_history time_period = None
     ↔ recent now time_period satisfaction_history = [])
  ∧ (∀ summary,
       get_satisfaction_summary now satisfaction_history time_period
       = Some summary →
       total_feedback summary
       = length (recent now time_period satisfaction_history)
       ∧ (1 <= total_feedback summary)%nat).
Proof.
  split; [|split; [|split; [|split]]].
  - unfold recent; simpl. apply filter_sublist_impl. intros s Hs.
    unfold microseconds_per_day in *. lia.
  - unfold recent; simpl. apply filter_sublist.
  - intros H1 H2. unfold recent. by rewrite !decide_False.
  - unfold get_satisfaction_summary.
    destruct satisfaction_history as [|e h].
    + split; [intros _|done]. unfold recent. by repeat case_decide.
    + by destruct (recent now time_period (e :: h)).
  - intros summary. unfold get_satisfaction_summary.
    destruct satisfaction_history as [|e h]; [done|].
    destruct (recent now time_period (e :: h)) as [|e' r]; [done|].
    intros [= <-]. simpl. rewrite length_map. split; [done|lia].
Qed.

Lemma mean_bounds (lo hi : Q) (l : list Q) :
  l ≠ [] → Forall (λ x, lo <= x <= hi) l → lo <= mean l <= hi.
Proof.
  intros Hne Hall. unfold mean.
  assert (Hsum : inject_Z (Z.of_nat (length l)) * lo <= Qsum l
                 ∧ Qsum l <= inject_Z (Z.of_nat (length l)) * hi).
  { clear Hne. induction Hall as [|x l [Hlo Hhi] _ [IH1 IH2]].
    - change (inject_Z (Z.of_nat (length (@nil Q)))) with 0.
      unfold Qsum; simpl. split; lra.
    - cbn [length]. rewrite Nat2Z.inj_succ, <- Z.add_1_l, inject_Z_plus.
      unfold Qsum in *. cbn [foldr].
      change (inject_Z 1) with 1. split; lra. }
  assert (Hn : 0 < inject_Z (Z.of_nat (length l))).
  { destruct l; [done|]. unfold Qlt; simpl. lia. }
  destruct Hsum as [H1 H2]. split.
  - apply Qle_shift_div_l; [done|]. lra.
  - apply Qle_shift_div_r; [done|]. lra.
Qed.

Lemma Qsquare_nonneg (y : Q) : 0 <= y * y.
Proof. nra. Qed.

Lemma mean_nonneg (l : list Q) : Forall (λ x, 0 <= x) l → 0 <= mean l.
Proof.
  intros Hall. unfold mean.
  assert (Hsum : 0 <= Qsum l).
  { induction Hall as [|x l Hx _ IH]; unfold Qsum in *; simpl; lra. }
  destruct l as [|x l]; [discriminate|].
  apply Qle_shift_div_l; [unfold Qlt; simpl; lia|]. lra.
Qed.

(** X22.  On a window that is not empty the mean and the variance of the
    summary are numbers, never [nan]: when every rating of the history lies
    within [0, 1], so does [avg_satisfaction], and [satisfaction_variance]
    is [>= 0]. *)
Theorem satisfaction_mean_is_within_ratings (now : Z)
  (satisfaction_history : list Satisfaction) (time_period : string)
  (summary : SatisfactionSummary) :
  Forall (λ s, 0 <= rating s <= 1) satisfaction_history →
  get_satisfaction_summary now satisfaction_history time_period = Some summary →
  ∃ m v, avg_satisfaction summary = Fin m ∧ 0 <= m <= 1
         ∧ satisfaction_variance summary = Fin v ∧ 0 <= v.
Proof.
  intros Hall. unfold get_satisfaction_summary.
  destruct satisfaction_history as [|e h]; [done|].
  destruct (recent now time_period (e :: h)) as [|e' r] eqn:Hr; [done|].
  intros [= <-].
  assert (Hsub : sublist (e' :: r) (e :: h)).
  { rewrite <- Hr. unfold recent. repeat case_decide; try apply filter_sublist.
    done. }
  assert (Hall' : Forall (λ x, 0 <= x <= 1) (map rating (e' :: r))).
  { apply Forall_fmap, Forall_forall. intros x Hx.
    rewrite Forall_forall in Hall. apply Hall.
    by apply (elem_of_sublist _ _ _ Hx). }
  unfold summarize, np_mean, np_var.
  cbn [avg_satisfaction satisfaction_variance map] in *.
  eexists _, _. split; [reflexivity|]. split; [|split; [reflexivity|]].
  - by apply (mean_bounds 0 1 (rating e' :: map rating r)).
  - apply mean_nonneg. apply Forall_cons_2; [apply Qsquare_nonneg|].
    apply Forall_forall. intros x Hx.
    apply list_elem_of_fmap in Hx as (y & -> & _). apply Qsquare_nonneg.
Qed.

Lemma satisfaction_mean_is_within_ratings_witness :
  ∃ m v, avg_satisfaction (summarize two_ratings) = Fin m ∧ 0 <= m <= 1
         ∧ satisfaction_variance (summarize two_ratings) = Fin v ∧ 0 <= v.
Proof.
  apply (satisfaction_mean_is_within_ratings 0 two_ratings "all").
  - repeat (apply Forall_cons_2; [split; discriminate|]). apply Forall_nil_2.
  - reflexivity.
Defined.

(** ** Means per feedback type *)

Lemma assoc_get_type_insert (ty ty' : string) (r : Q)
  (types : list (string * list Q)) :
  assoc_get ty' (type_insert ty r types)
  = if decide (ty' = ty) then Some (default [] (assoc_get ty types) ++ [r])
    else assoc_get ty' types.
Proof.
  induction types as [|[k rs] types IH]; simpl.
  - repeat case_decide; simplify_eq; done.
  - destruct (decide (ty = k)) as [->|Hne]; simpl.
    + repeat case_decide; simplify_eq; done.
    + rewrite IH. repeat case_decide; simplify_eq; done.
Qed.

Lemma assoc_get_feedback_types (ty : string) (data : list Satisfaction) :
  assoc_get ty (feedback_types data)
  = match ratings_of_type ty data with
    | [] => None
    | rs => Some rs
    end.
Proof.
  unfold feedback_types, ratings_of_type.
  induction data as [|e data IH] using rev_ind; [done|].
  rewrite foldl_app. cbn [foldl]. rewrite assoc_get_type_insert.
  rewrite List.filter_app, map_app. cbn [List.filter].
  destruct (decide (ty = feedback_type e)) as [Heq|Hne].
  - rewrite <- Heq, IH, bool_decide_eq_true_2 by done. cbn [map].
    by destruct (map rating _) as [|x l].
  - rewrite IH, bool_decide_eq_false_2 by done. cbn [map]. by rewrite app_nil_r.
Qed.

Lemma assoc_get_map {A B : Type} (f : A → B) (k : string) (d : list (string * A)) :
  assoc_get k (map (λ '(k', v), (k', f v)) d) = f <$> assoc_get k d.
Proof.
  induction d as [|[k' v] d IH]; simpl; [done|]. by destruct (decide (k = k')).
Qed.

(** X23.  The summary holds one mean per feedback type that occurs in the
    window and none for the others: the entry of a type is the mean of the
    ratings of the entries of that type, and it is never [nan]. *)
Theorem satisfaction_by_type_is_type_mean (recent_data : list Satisfaction)
  (ty : string) :
  assoc_get ty (avg_satisfaction_by_type (summarize recent_data))
  = match ratings_of_type ty recent_data with
    | [] => None
    | rs => Some (Fin (mean rs))
    end.
Proof.
  unfold summarize; cbn [avg_satisfaction_by_type].
  rewrite (assoc_get_map np_mean), assoc_get_feedback_types.
  by destruct (ratings_of_type ty recent_data).
Qed.

(** ** The overall quality score *)

Lemma weigh_bounds (metrics : Floats) (lo hi : Q)
  (weights : list (string * Q)) (q w : Q) :
  Forall (λ entry, 0 < snd entry
                   ∧ ∀ v, metrics !! fst entry = Some v → lo <= v <= hi) weights →
  0 <= w → lo * w <= q ∧ q <= hi * w →
  let acc := foldl (λ acc entry,
                      match metrics !! fst entry with
                      | Some value =>
                          (fst acc + value * snd entry, snd acc + snd entry)
                      | None => acc
                      end) (q, w) weights in
  w <= snd acc ∧ lo * snd acc <= fst acc ∧ fst acc <= hi * snd acc
  ∧ (Exists (λ entry, is_Some (metrics !! fst entry)) weights → 0 < snd acc)
  ∧ (Forall (λ entry, metrics !! fst entry = None) weights → acc = (q, w)).
Proof.
  intros Hall. revert q w.
  induction Hall as [|[k x] weights [Hx Hk] _ IH]; intros q w Hw [Hq1 Hq2];
    cbn zeta; cbn [foldl fst snd] in *.
  - split; [lra|]. split; [done|]. split; [done|]. split; [|done].
    intros Hex. by apply Exists_nil in Hex.
  - destruct (metrics !! k) as [v|] eqn:Hv.
    + destruct (Hk v eq_refl) as [Hlo Hhi].
      destruct (IH (q + v * x) (w + x)) as (H1 & H2 & H3 & H4 & H5);
        [lra|split; nra|].
      split; [lra|]. split; [done|]. split; [done|]. split; [intros _; lra|].
      intros Hnone. apply Forall_cons_1 in Hnone as [Hk' _]. simpl in Hk'.
      congruence.
    + destruct (IH q w Hw (conj Hq1 Hq2)) as (H1 & H2 & H3 & H4 & H5).
      split; [done|]. split; [done|]. split; [done|]. split.
      * intros Hex. apply Exists_cons in Hex as [Hex|Hex]; [|by apply H4].
        simpl in Hex. rewrite Hv in Hex. by destruct Hex.
      * intros Hnone. apply Forall_cons_1 in Hnone as [_ Hnone]. by apply H5.
Qed.

Lemma quality_weights_positive (metrics : Floats) (lo hi : Q) :
  (∀ k v, k ∈ map fst quality_weights → metrics !! k = Some v → lo <= v <= hi) →
  Forall (λ entry, 0 < snd entry
                   ∧ ∀ v, metrics !! fst entry = Some v → lo <= v <= hi)
    quality_weights.
Proof.
  intros Hrange. apply Forall_forall. intros [k w] Hin. split.
  - revert Hin. unfold quality_weights.
    rewrite !elem_of_cons, elem_of_nil.
    intros [?|[?|[?|[?|[?|[?|[]]]]]]]; simplify_eq; reflexivity.
  - intros v Hv. apply (Hrange k v); [|done].
    apply list_elem_of_fmap. by exists (k, w).
Qed.

(** X24.  The overall quality is a weighted mean of the weighted metrics
    that are present: when each of them lies within [0, 1], so does the
    overall quality, and when none of them is present the result is 0, with
    no division by the zero total weight. *)
Theorem overall_quality_stays_in_unit_range (metrics : Floats) :
  (∀ k v, k ∈ map fst quality_weights → metrics !! k = Some v → 0 <= v <= 1) →
  0 <= _calculate_overall_quality metrics
  ∧ _calculate_overall_quality metrics <= 1
  ∧ ((∀ k, k ∈ map fst quality_weights → metrics !! k = None) →
     _calculate_overall_quality metrics = 0).
Proof.
  intros Hrange.
  destruct (weigh_bounds metrics 0 1 quality_weights 0 0)
    as (Hweight & Hlo & Hhi & _ & Hnone);
    [by apply quality_weights_positive|lra|split; lra|].
  unfold _calculate_overall_quality, weigh.
  destruct (foldl _ (0, 0) quality_weights) as [quality_score total_weight].
  cbn [fst snd] in *.
  destruct (Qltb 0 total_weight) eqn:Hpos.
  - apply Qltb_lt in Hpos. split; [|split].
    + apply Qle_shift_div_l; [done|]. lra.
    + apply Qle_shift_div_r; [done|]. lra.
    + intros Habsent.
      assert (Hzero : (quality_score, total_weight) = (0, 0)).
      { apply Hnone, Forall_forall. intros [k w] Hin. apply Habsent.
        apply list_elem_of_fmap. by exists (k, w). }
      injection Hzero as -> ->. by apply Qlt_irrefl in Hpos.
  - split; [discriminate|]. split; [discriminate|done].
Qed.

Lemma overall_quality_stays_in_unit_range_witness :
  0 <= _calculate_overall_quality
         (<["artist_diversity" := 0.5]> (<["accuracy" := 7]> ∅))
  ∧ _calculate_overall_quality
      (<["artist_diversity" := 0.5]> (<["accuracy" := 7]> ∅)) <= 1.
Proof.
  destruct (overall_quality_stays_in_unit_range
              (<["artist_diversity" := 0.5]> (<["accuracy" := 7]> ∅)))
    as (Hlo & Hhi & _); [|by split].
  intros k v Hk. revert Hk. unfold quality_weights. cbn [map fst].
  rewrite !elem_of_cons, elem_of_nil.
  intros [->|[->|[->|[->|[->|[->|[]]]]]]]; vm_compute; intros Hv; try discriminate;
    injection Hv as <-; split; discriminate.
Defined.

(** X25.  The six weights sum to 1: for a metrics dict that holds all six
    weighted metrics, the overall quality is the plain weighted sum. *)
Theorem overall_quality_of_all_metrics (metrics : Floats) (a g n t m p : Q) :
  metrics !! "artist_diversity" = Some a →
  metrics !! "genre_diversity" = Some g →
  metrics !! "avg_novelty" = Some n →
  metrics !! "time_relevance" = Some t →
  metrics !! "mood_relevance" = Some m →
  metrics !! "popularity_variance" = Some p →
  _calculate_overall_quality metrics
  == 0.25 * a + 0.20 * g + 0.20 * n + 0.15 * t + 0.10 * m + 0.10 * p.
Proof.
  intros Ha Hg Hn Ht Hm Hp.
  unfold _calculate_overall_quality, weigh, quality_weights.
  cbn [foldl fst snd]. rewrite Ha, Hg, Hn, Ht, Hm, Hp. cbn [fst snd].
  set (total_weight := 0 + 0.25 + 0.20 + 0.20 + 0.15 + 0.10 + 0.10).
  assert (Htotal : total_weight == 1) by (unfold total_weight; ring).
  destruct (Qltb 0 total_weight) eqn:Hpos.
  - rewrite Htotal. field.
  - apply Qltb_ge in Hpos. lra.
Qed.

Lemma overall_quality_of_all_metrics_witness :
  _calculate_overall_quality
    (<["artist_diversity" := 1]> (<["genre_diversity" := 0.5]>
     (<["avg_novelty" := 1]> (<["time_relevance" := 0.5]>
     (<["mood_relevance" := 0.5]> (<["popularity_variance" := 0]> ∅))))))
  == 0.25 * 1 + 0.20 * 0.5 + 0.20 * 1 + 0.15 * 0.5 + 0.10 * 0.5 + 0.10 * 0.
Proof. by apply overall_quality_of_all_metrics. Defined.

(** ** Diversity ratio *)

Lemma size_list_to_set_le (l : list string) :
  (size (list_to_set l : gset string) <= length l)%nat.
Proof.
  induction l as [|x l IH].
  - done.
  - rewrite list_to_set_cons. cbn [length].
    destruct (decide (x ∈ (list_to_set l : gset string))) as [Hin|Hout].
    + rewrite (subseteq_union_1_L {[x]} (list_to_set l))
        by (by apply singleton_subseteq_l).
      lia.
    + rewrite size_union by (by apply disjoint_singleton_l).
      rewrite size_singleton. lia.
Qed.

Lemma all_artist_ids_length (recommendations : list Track) :
  Forall (λ t, (length (default [] (f_artists t)) <= 1)%nat) recommendations →
  (length (all_artist_ids recommendations) <= length recommendations)%nat.
Proof.
  unfold all_artist_ids.
  induction 1 as [|t l Ht _ IH]; simpl; [done|].
  rewrite length_app, length_map. lia.
Qed.

Lemma Qratio_nat_bounds (a b : nat) :
  (0 < b)%nat →
  0 <= inject_Z (Z.of_nat a) / inject_Z (Z.of_nat b)
  ∧ ((a <= b)%nat → inject_Z (Z.of_nat a) / inject_Z (Z.of_nat b) <= 1).
Proof.
  intros Hb.
  assert (Hb' : 0 < inject_Z (Z.of_nat b)).
  { change 0 with (inject_Z 0). rewrite <- Zlt_Qlt. lia. }
  assert (Ha' : 0 <= inject_Z (Z.of_nat a)).
  { change 0 with (inject_Z 0). rewrite <- Zle_Qle. lia. }
  split.
  - apply Qle_shift_div_l; [done|]. lra.
  - intros Hab. apply Qle_shift_div_r; [done|].
    rewrite Qmult_1_l, <- Zle_Qle. lia.
Qed.

(** X26.  The diversity score, the number of distinct artist ids over the
    number of tracks, is never negative, and it is at most 1 when every track
    lists at most one artist. *)
Theorem diversity_score_is_a_ratio (recommendations : list Track) :
  Forall (λ t, (length (default [] (f_artists t)) <= 1)%nat) recommendations →
  0 <= calculate_diversity_score recommendations
  ∧ calculate_diversity_score recommendations <= 1.
Proof.
  intros Hone. unfold calculate_diversity_score.
  destruct recommendations as [|t l] eqn:Hrecs; [split; discriminate|].
  rewrite <- Hrecs in *.
  assert (Hlen : (0 < length recommendations)%nat) by (rewrite Hrecs; simpl; lia).
  destruct (Qratio_nat_bounds
              (size (list_to_set (all_artist_ids recommendations) : gset string))
              (length recommendations) Hlen) as [Hlo Hhi].
  split; [done|]. apply Hhi.
  etransitivity; [apply size_list_to_set_le|by apply all_artist_ids_length].
Qed.

Lemma diversity_score_is_a_ratio_witness :
  0 <= calculate_diversity_score [track_a; track_b; track_c]
  ∧ calculate_diversity_score [track_a; track_b; track_c] <= 1.
Proof.
  apply diversity_score_is_a_ratio. repeat constructor.
Defined.

(** X27.  The tracker reports the same number twice: [overall_diversity] is
    [artist_diversity], both being the diversity score of the helper; no
    metric is negative; and the history grows by exactly one entry, which
    records the returned metrics. *)
Theorem diversity_tracker_records_metrics (now : Z)
  (diversity_history : list DiversityEntry) (recommendations : list Track) :
  let history' := fst (calculate_diversity_metrics now diversity_history recommendations) in
  let metrics := snd (calculate_diversity_metrics now diversity_history recommendations) in
  overall_diversity metrics = artist_diversity metrics
  ∧ artist_diversity metrics = calculate_diversity_score recommendations
  ∧ 0 <= artist_diversity metrics
  ∧ 0 <= genre_diversity metrics
  ∧ history' = diversity_history
               ++ [ {| de_timestamp := now;
                       de_overall_diversity := overall_diversity metrics;
                       de_artist_diversity := artist_diversity metrics;
                       de_genre_diversity := genre_diversity metrics |} ].
Proof.
  unfold calculate_diversity_metrics, calculate_diversity_score.
  cbn [fst snd overall_diversity artist_diversity genre_diversity].
  destruct recommendations as [|t l] eqn:Hrecs.
  { split; [done|]. split; [done|]. split; [discriminate|].
    split; [discriminate|done]. }
  rewrite <- Hrecs.
  assert (Hlen : (0 < length recommendations)%nat) by (rewrite Hrecs; simpl; lia).
  split; [done|]. split; [done|].
  split; [by apply Qratio_nat_bounds|]. split; [by apply Qratio_nat_bounds|done].
Qed.

(** ** Audio features *)

Lemma normalize_one_lookup_ne (features normalized : Floats) (k k' : string)
  (f : Q → Q) :
  k' ≠ k → normalize_one features k f normalized !! k' = normalized !! k'.
Proof.
  intros Hne. unfold normalize_one. destruct (features !! k) as [v|]; [|done].
  by rewrite lookup_insert_ne.
Qed.

Lemma normalize_one_lookup (features normalized : Floats) (k k' : string)
  (f : Q → Q) :
  normalized !! k = None →
  normalize_one features k f normalized !! k'
  = if decide (k' = k) then f <$> features !! k else normalized !! k'.
Proof.
  intros Hfresh. case_decide as Hk; [|by apply normalize_one_lookup_ne].
  subst k'. unfold normalize_one. destruct (features !! k) as [v|]; [|done].
  by rewrite lookup_insert_eq.
Qed.

Ltac fresh_feature :=
  rewrite ?normalize_one_lookup_ne by discriminate; apply lookup_empty.

Lemma normalize_audio_features_lookup (features : Floats) (k : string) :
  normalize_audio_features features !! k
  = if decide (k = "mode"%string) then features !! k
    else if decide (k = "key"%string) then (λ v, v / 11) <$> features !! k
    else if decide (k = "loudness"%string) then
      (λ v, (v + 60) / 60) <$> features !! k
    else if decide (k = "tempo"%string) then
      (λ v, (v - 50) / 150) <$> features !! k
    else if decide (k ∈ zero_one_features) then features !! k
    else None.
Proof.
  unfold normalize_audio_features, zero_one_features. cbn [foldl].
  rewrite normalize_one_lookup by fresh_feature.
  case_decide as Hmode; [subst; by rewrite option_fmap_id|].
  rewrite normalize_one_lookup by fresh_feature.
  case_decide as Hkey; [by subst|].
  rewrite normalize_one_lookup by fresh_feature.
  case_decide as Hloudness; [by subst|].
  rewrite normalize_one_lookup by fresh_feature.
  case_decide as Htempo; [by subst|].
  do 7 (rewrite normalize_one_lookup by fresh_feature;
        case_decide;
        [subst; rewrite option_fmap_id; rewrite decide_True; [done|];
         rewrite !elem_of_cons; tauto|]).
  rewrite lookup_empty, decide_False; [done|].
  rewrite !elem_of_cons, elem_of_nil. tauto.
Qed.

(** X28.  Normalisation keeps exactly the known features that are present,
    whatever else the dict holds; the seven 0-1 features and the mode are
    copied as they are; and when the known features that are present lie
    within their typical ranges, every value of the result lies within
    [0, 1]. *)
Theorem normalized_features_are_in_unit_range (features : Floats) :
  (∀ k, match normalize_audio_features features !! k with
        | Some _ => k ∈ known_features ∧ is_Some (features !! k)
        | None => k ∈ known_features → features !! k = None
        end)
  ∧ (∀ k, k ∈ "mode"%string :: zero_one_features →
          normalize_audio_features features !! k = features !! k)
  ∧ ((∀ k v, k ∈ known_features → features !! k = Some v →
             in_typical_range k v) →
     ∀ k v', normalize_audio_features features !! k = Some v' →
             0 <= v' ∧ v' <= 1).
Proof.
  assert (Hknown : ∀ k, k ∈ known_features
                        ↔ k ∈ zero_one_features ∨ k = "tempo"%string
                          ∨ k = "loudness"%string ∨ k = "key"%string
                          ∨ k = "mode"%string).
  { intros k. unfold known_features.
    rewrite elem_of_app, !elem_of_cons, elem_of_nil. tauto. }
  split; [|split].
  - intros k. rewrite normalize_audio_features_lookup.
    specialize (Hknown k).
    repeat case_decide; subst;
      try (destruct (features !! _) as [v|] eqn:Hv;
           cbn [fmap option_fmap option_map]).
    all: try done.
    all: try (intros Hin; apply Hknown in Hin; tauto).
    all: split; [apply Hknown; tauto | by eexists].
  - intros k Hk. rewrite normalize_audio_features_lookup.
    apply elem_of_cons in Hk as [->|Hk]; [done|].
    assert (Hne : k ≠ "mode"%string ∧ k ≠ "key"%string
                  ∧ k ≠ "loudness"%string ∧ k ≠ "tempo"%string).
    { revert Hk. unfold zero_one_features.
      rewrite !elem_of_cons, elem_of_nil.
      intros [->|[->|[->|[->|[->|[->|[->|[]]]]]]]]; by repeat split. }
    destruct Hne as (? & ? & ? & ?).
    by rewrite !decide_False, decide_True by done.
  - intros Hrange k v'. rewrite normalize_audio_features_lookup.
    specialize (Hrange k). specialize (Hknown k).
    unfold in_typical_range in Hrange.
    repeat case_decide; subst;
      try (destruct (features !! _) as [v|] eqn:Hv;
           cbn [fmap option_fmap option_map];
           [destruct (Hrange v) as [Hlo Hhi]; [apply Hknown; tauto|done|]|]).
    all: try done.
    all: intros [= <-].
    all: split; [first [lra | apply Qle_shift_div_l; [reflexivity|lra]]
                |first [lra | apply Qle_shift_div_r; [reflexivity|lra]]].
Qed.

Lemma normalized_features_are_in_unit_range_witness :
  ∃ v', normalize_audio_features
          (<["tempo" := 125]> (<["liveness" := 0.3]>
           (<["duration_ms" := 215000]> (<["time_signature" := 4]> ∅))))
        !! "tempo" = Some v'
        ∧ 0 <= v' ∧ v' <= 1.
Proof.
  exists ((125 - 50) / 150). split; [by vm_compute|].
  apply (proj2 (proj2 (normalized_features_are_in_unit_range
           (<["tempo" := 125]> (<["liveness" := 0.3]>
            (<["duration_ms" := 215000]> (<["time_signature" := 4]> ∅))))))
           ) with (k := "tempo"%string); [|by vm_compute].
  intros k v Hk. unfold in_typical_range.
  destruct (decide (k = "tempo"%string)) as [->|Htempo].
  { rewrite lookup_insert_eq. intros [= <-]. split; discriminate. }
  rewrite lookup_insert_ne by done.
  destruct (decide (k = "liveness"%string)) as [->|Hliveness].
  { rewrite lookup_insert_eq. intros [= <-]. simpl. split; discriminate. }
  rewrite lookup_insert_ne by done.
  destruct (decide (k = "duration_ms"%string)) as [->|Hduration].
  { exfalso. revert Hk. unfold known_features, zero_one_features.
    rewrite elem_of_app, !elem_of_cons, elem_of_nil.
    intros [[?|[?|[?|[?|[?|[?|[?|[]]]]]]]]|[?|[?|[?|[?|[]]]]]]; discriminate. }
  rewrite lookup_insert_ne by done.
  destruct (decide (k = "time_signature"%string)) as [->|Hsignature].
  { exfalso. revert Hk. unfold known_features, zero_one_features.
    rewrite elem_of_app, !elem_of_cons, elem_of_nil.
    intros [[?|[?|[?|[?|[?|[?|[?|[]]]]]]]]|[?|[?|[?|[?|[]]]]]]; discriminate. }
  by rewrite lookup_insert_ne, lookup_empty by done.
Defined.

(** ** Context *)

(** ** The context adjustment in binary64 *)

Section Binary64_context.
Local Open Scope float_scope.
#[local] Set Warnings "-inexact-float".

(** X29.  A track that lacks the audio features the adjustment reads, a
    track without ['audio_features'] among them, is never adjusted: the
    factor is exactly 1.0 in every context, the default 0.5 making each
    bracket 1.0 in binary64.  Neither is any track in a context whose time
    category is neither morning nor night and whose mood is neither happy
    nor melancholic. *)
Theorem context_adjustment_leaves_plain_tracks
  (audio_features : option (gmap string float)) (context : Context) :
  ((∀ k, k ∈ ["energy"; "acousticness"; "valence"]%string →
         default ∅ audio_features !! k = None) →
   Binary64._calculate_context_adjustment audio_features context = 1)
  ∧ (default "afternoon"%string (ctx_time_category context) ≠ "morning"%string →
     default "afternoon"%string (ctx_time_category context) ≠ "night"%string →
     default "neutral"%string (ctx_mood context) ≠ "happy"%string →
     default "neutral"%string (ctx_mood context) ≠ "melancholic"%string →
     Binary64._calculate_context_adjustment audio_features context = 1).
Proof.
  unfold Binary64._calculate_context_adjustment, Binary64.audio_feature. split.
  - intros Hplain.
    rewrite !Hplain by (rewrite !elem_of_cons; tauto).
    repeat case_decide; reflexivity.
  - intros. by rewrite !decide_False by done.
Qed.

Lemma context_adjustment_leaves_plain_tracks_witness :
  Binary64._calculate_context_adjustment None
    {| ctx_time_category := Some "morning"%string;
       ctx_mood := Some "melancholic"%string |} = 1.
Proof.
  apply (proj1 (context_adjustment_leaves_plain_tracks None
                  {| ctx_time_category := Some "morning"%string;
                     ctx_mood := Some "melancholic"%string |})).
  intros k _. apply lookup_empty.
Defined.

(** With audio features the factor is a binary64 product: a morning, happy
    context and a track of energy 0 and valence 0 give 0.5599999999999999,
    just below [0.8 * 0.7]. *)
Lemma context_adjustment_is_rounded :
  Binary64._calculate_context_adjustment
    (Some (<["energy" := 0]> (<["valence" := 0]> ∅)))
    {| ctx_time_category := Some "morning"%string;
       ctx_mood := Some "happy"%string |} = 0.55999999999999994.
Proof. by vm_compute. Qed.

End Binary64_context.





